(** * Scholar-Scraper: reconciliation engine and crawl controller

    A shallow embedding of the parts of the scraper that decide how scraped
    author records are merged into the persisted dataset
    ([gs_library/utilities.py]), which authors are refreshed ([scraper.py]),
    and how the crawl loop reacts to a CAPTCHA ([gs_library/ScholarScraper.py]).

    Python values are modelled as follows.
    - A [str] is a sequence of Unicode code points ([ustr]).
    - A JSON scalar is an [atom]; a field value is a [value] (a scalar, a
      list of scalars, or a one-level dictionary such as [bib]).  Booleans
      and floats do not occur in the dataset and are left out.
    - A publication is a dictionary from field names to values
      ([gmap string value]); an author is the dictionary of its scalar
      fields together with its [publications] entry.
    - A Python [dict] whose iteration order is observable ([author_map],
      [pub_map]) is an association list with Python's assignment semantics
      ([od_set]).
    - A raised exception is the [Raise] branch of [result]. *)

From Stdlib Require Import ZArith NArith Ascii String List.
From stdpp Require Import gmap strings list fin_maps pretty.

Open Scope Z_scope.

(** ** Strings of code points *)

Abbreviation ustr := (list N).

(** An ASCII literal as a Python string. *)
Definition U (s : string) : ustr :=
  (λ a, N_of_ascii a) <$> list_ascii_of_string s.

Definition is_ascii (c : N) : bool := (c <? 128)%N.

Definition in_range (lo hi c : N) : bool := ((lo <=? c) && (c <=? hi))%N.

(** [\w] restricted to ASCII: letters, digits and the underscore. *)
Definition ascii_word (c : N) : bool :=
  in_range 48 57 c || in_range 65 90 c || in_range 97 122 c || (c =? 95)%N.

(** [\s] / [str.isspace] restricted to ASCII: TAB..CR, FS..US and space. *)
Definition ascii_space (c : N) : bool :=
  in_range 9 13 c || in_range 28 31 c || (c =? 32)%N.

Definition ascii_lower (c : N) : N :=
  if in_range 65 90 c then (c + 32)%N else c.

Definition ascii_upper (c : N) : N :=
  if in_range 97 122 c then (c - 32)%N else c.

(** Python's [needle in haystack] on strings. *)
Fixpoint starts_with (needle hay : ustr) : bool :=
  match needle, hay with
  | [], _ => true
  | _ :: _, [] => false
  | a :: n', b :: h' => (a =? b)%N && starts_with n' h'
  end.

Fixpoint contains (needle hay : ustr) : bool :=
  starts_with needle hay ||
  match hay with
  | [] => false
  | _ :: h' => contains needle h'
  end.

(** [s.replace(old, new)] for a non-empty [old]: leftmost, non-overlapping. *)
Fixpoint replace_aux (fuel : nat) (old new s : ustr) : ustr :=
  match fuel with
  | O => s
  | S fuel' =>
      match s with
      | [] => []
      | c :: s' =>
          if starts_with old s
          then new ++ replace_aux fuel' old new (drop (length old) s)
          else c :: replace_aux fuel' old new s'
      end
  end.

Definition replace (old new s : ustr) : ustr :=
  replace_aux (S (length s)) old new s.

(** ** JSON values *)

Inductive atom :=
  | ANone
  | AInt (z : Z)
  | AStr (s : ustr).

Inductive value :=
  | VAtom (a : atom)
  | VList (l : list atom)
  | VDict (d : gmap string atom).

Coercion VAtom : atom >-> value.

#[global] Instance atom_eq_dec : EqDecision atom.
Proof. solve_decision. Defined.

#[global] Instance value_eq_dec : EqDecision value.
Proof. solve_decision. Defined.

(** A [datetime]: microseconds since the epoch, in UTC when the value
    carries an offset ("aware"), on the wall clock otherwise ("naive"). *)
Inductive datetime :=
  | Aware (micros : Z)
  | Naive (micros : Z).

(** ** The Python runtime

    [unicodedata], [re] and [str.lower]/[str.upper] consult the Unicode
    character database, [str()] of a list or dictionary is the
    interpreter's [repr], and [datetime.fromisoformat] accepts a set of
    formats that depends on the interpreter's version; none of them is
    part of this repository.  They are a parameter; what is fixed is the
    behaviour of the tables on ASCII text. *)

Class Runtime := {
  nfkd : ustr → ustr;          (* unicodedata.normalize('NFKD', s) *)
  combining : N → bool;        (* unicodedata.combining(ch) != 0 *)
  is_word : N → bool;          (* a character matched by \w *)
  is_space : N → bool;         (* a character matched by \s *)
  lower : ustr → ustr;         (* s.lower() *)
  upper : ustr → ustr;         (* s.upper() *)
  container_str : value → ustr; (* str(v) for a list or a dict *)
  fromisoformat : ustr → option datetime; (* None: ValueError *)
  nfkd_ascii : ∀ s, forallb is_ascii s = true → nfkd s = s;
  combining_ascii : ∀ c, is_ascii c = true → combining c = false;
  is_word_ascii : ∀ c, is_ascii c = true → is_word c = ascii_word c;
  is_space_ascii : ∀ c, is_ascii c = true → is_space c = ascii_space c;
  lower_ascii : ∀ s, forallb is_ascii s = true → lower s = ascii_lower <$> s;
  upper_ascii : ∀ s, forallb is_ascii s = true → upper s = ascii_upper <$> s;
  upper_app : ∀ s t, upper (s ++ t) = upper s ++ upper t
}.

(** A reader for the timestamps that [isoformat()] emits:
    [YYYY-MM-DD?HH:MM:SS], an optional [.ffffff] and an optional
    [+HH:MM] or [-HH:MM]. *)
Definition digit (c : N) : option Z :=
  if in_range 48 57 c then Some (Z.of_N c - 48) else None.

Fixpoint number (acc : Z) (ds : ustr) : option Z :=
  match ds with
  | [] => Some acc
  | c :: ds' => d ← digit c; number (10 * acc + d) ds'
  end.

(** Days between 1970-01-01 and the given civil date. *)
Definition days_from_civil (y m d : Z) : Z :=
  let y := if m <=? 2 then y - 1 else y in
  let era := y / 400 in
  let yoe := y - era * 400 in
  let mp := (m + 9) mod 12 in
  let doy := (153 * mp + 2) / 5 + d - 1 in
  let doe := yoe * 365 + yoe / 4 - yoe / 100 + doy in
  era * 146097 + doe - 719468.

Definition expect (c : N) (s : ustr) : option ustr :=
  match s with
  | c' :: s' => if (c =? c')%N then Some s' else None
  | [] => None
  end.

Definition field (n : nat) (lo hi : Z) (s : ustr) : option (Z * ustr) :=
  if (length s <? n)%nat then None
  else
    v ← number 0 (take n s);
    if (lo <=? v) && (v <=? hi) then Some (v, drop n s) else None.

Definition read_offset (s : ustr) : option (option Z) :=
  match s with
  | [] => Some None
  | sign :: s' =>
      '(hh, s1) ← field 2 0 23 s';
      s2 ← expect 58 s1;
      '(mm, s3) ← field 2 0 59 s2;
      match s3 with
      | [] =>
          let minutes := hh * 60 + mm in
          if (sign =? 43)%N then Some (Some minutes)
          else if (sign =? 45)%N then Some (Some (- minutes))
          else None
      | _ => None
      end
  end.

Definition read_isoformat (s : ustr) : option datetime :=
  '(y, s) ← field 4 1 9999 s;
  s ← expect 45 s;
  '(m, s) ← field 2 1 12 s;
  s ← expect 45 s;
  '(d, s) ← field 2 1 31 s;
  s ← match s with _ :: s' => Some s' | [] => None end;
  '(hh, s) ← field 2 0 23 s;
  s ← expect 58 s;
  '(mi, s) ← field 2 0 59 s;
  s ← expect 58 s;
  '(ss, s) ← field 2 0 59 s;
  '(us, s) ← match s with
             | 46%N :: s' => field 6 0 999999 s'
             | _ => Some (0, s)
             end;
  off ← read_offset s;
  let wall :=
    ((days_from_civil y m d * 24 + hh) * 60 + mi) * 60 * 1000000
    + ss * 1000000 + us in
  match off with
  | Some minutes => Some (Aware (wall - minutes * 60 * 1000000))
  | None => Some (Naive wall)
  end.

(** The runtime cut down to ASCII: exact on code points below 128; every
    other code point is kept as a caseless word character, containers
    print as a placeholder, and timestamps are read by [read_isoformat]. *)
#[refine] Instance ascii_runtime : Runtime := {|
  nfkd s := s;
  combining _ := false;
  is_word c := if is_ascii c then ascii_word c else true;
  is_space c := if is_ascii c then ascii_space c else false;
  lower s := ascii_lower <$> s;
  upper s := ascii_upper <$> s;
  container_str _ := U "<container>";
  fromisoformat := read_isoformat
|}.
Proof.
  - reflexivity.
  - reflexivity.
  - intros c ->. reflexivity.
  - intros c ->. reflexivity.
  - reflexivity.
  - reflexivity.
  - intros s t. apply fmap_app.
Defined.

(** Python truthiness. *)
Definition atom_truthy (a : atom) : bool :=
  match a with
  | ANone => false
  | AInt z => negb (z =? 0)
  | AStr s => match s with [] => false | _ => true end
  end.

Definition truthy (v : value) : bool :=
  match v with
  | VAtom a => atom_truthy a
  | VList l => match l with [] => false | _ => true end
  | VDict d => negb (bool_decide (d = ∅))
  end.

(** [d.get(k)]: an absent key reads as [None]. *)
Definition get (d : gmap string value) (k : string) : value :=
  default (VAtom ANone) (d !! k).

(** A publication record. *)
Abbreviation publication := (gmap string value).

(** An author record: the dictionary without its ["publications"] key, and
    that key's list when present (a list of dictionaries, as the scraper
    and [json.load] produce it). *)
Record author := mkAuthor {
  a_fields : gmap string value;
  a_pubs : option (list publication)
}.

#[global] Instance author_eq_dec : EqDecision author.
Proof. solve_decision. Defined.

(** [a.get('publications', []) or []] *)
Definition publications (a : author) : list publication := default [] (a_pubs a).

(** [a['publications'] = l] *)
Definition set_publications (a : author) (l : list publication) : author :=
  {| a_fields := a_fields a; a_pubs := Some l |}.

Definition scholar_id (a : author) : value := get (a_fields a) "scholar_id".

Definition author_pub_id (p : publication) : value := get p "author_pub_id".

(** ** Exceptions *)

Inductive exn_class :=
  | Exception
  | CaptchaDetectedException
  | TypeError
  | AttributeError
  | OSError.

#[global] Instance exn_class_eq_dec : EqDecision exn_class.
Proof. solve_decision. Defined.

Record exn := mkExn { exn_cls : exn_class; exn_msg : ustr }.

Inductive result (A : Type) :=
  | Ok (a : A)
  | Raise (e : exn).

Arguments Ok {A} a.
Arguments Raise {A} e.

#[global] Instance result_ret : MRet result := λ A a, Ok a.

#[global] Instance result_bind : MBind result := λ A B f m,
  match m with
  | Ok a => f a
  | Raise e => Raise e
  end.

Definition is_ok {A} (r : result A) : Prop := ∃ a, r = Ok a.

(** A loop whose body may raise. *)
Fixpoint foldM {A B} (f : B → A → result B) (b : B) (l : list A) : result B :=
  match l with
  | [] => Ok b
  | x :: l' => b' ← f b x; foldM f b' l'
  end.

(** ** Insertion-ordered dictionaries *)

Section ordered_dict.
Context {K V : Type} `{EqDecision K}.

Fixpoint od_get (k : K) (d : list (K * V)) : option V :=
  match d with
  | [] => None
  | (k', v) :: d' => if decide (k = k') then Some v else od_get k d'
  end.

(** [d[k] = v]: a present key keeps its position, a new key goes last. *)
Fixpoint od_set (k : K) (v : V) (d : list (K * V)) : list (K * V) :=
  match d with
  | [] => [(k, v)]
  | (k', v') :: d' =>
      if decide (k = k') then (k', v) :: d' else (k', v') :: od_set k v d'
  end.

Definition od_values (d : list (K * V)) : list V := d.*2.
Definition od_keys (d : list (K * V)) : list K := d.*1.
End ordered_dict.

(** A dictionary key must be hashable: lists and dictionaries are not. *)
Definition as_key (v : value) : result atom :=
  match v with
  | VAtom a => Ok a
  | VList _ => Raise (mkExn TypeError (U "unhashable type: 'list'"))
  | VDict _ => Raise (mkExn TypeError (U "unhashable type: 'dict'"))
  end.

(** ** IdentityNormalizer and Deduplicator ([utilities.py]) *)

Section reconciliation.
Context `{Runtime}.

(** [''.join(ch for ch in t if not unicodedata.combining(ch))] *)
Definition strip_combining (t : ustr) : ustr :=
  List.filter (λ ch, negb (combining ch)) t.

(** [re.sub(r"[^\w\s]", ' ', t)] *)
Definition sub_punctuation (t : ustr) : ustr :=
  (λ ch, if is_word ch || is_space ch then ch else 32%N) <$> t.

(** [re.sub(r'\s+', ' ', t)]; [in_run] tells that the previous character
    belonged to the run of whitespace being replaced. *)
Fixpoint collapse_whitespace (in_run : bool) (t : ustr) : ustr :=
  match t with
  | [] => []
  | ch :: t' =>
      if is_space ch
      then (if in_run then collapse_whitespace true t'
            else 32%N :: collapse_whitespace true t')
      else ch :: collapse_whitespace false t'
  end.

Fixpoint lstrip (t : ustr) : ustr :=
  match t with
  | [] => []
  | ch :: t' => if is_space ch then lstrip t' else t
  end.

(** [t.strip()] *)
Definition strip (t : ustr) : ustr :=
  reverse (lstrip (reverse (lstrip t))).

(** [_normalize_title_for_dedupe].  On a string no call of the [try]
    block raises.  On a truthy value that is not a string
    [unicodedata.normalize] raises [TypeError], and the handler's
    [title.strip()] raises [AttributeError] in its turn. *)
Definition _normalize_title_for_dedupe (title : value) : result ustr :=
  if negb (truthy title) then Ok []
  else
    match title with
    | VAtom (AStr s) =>
        let t := nfkd s in
        let t := strip_combining t in
        let t := sub_punctuation t in
        let t := lower (strip (collapse_whitespace false t)) in
        Ok t
    | _ => Raise (mkExn AttributeError (U "object has no attribute 'strip'"))
    end.

(** [p.get('title') or (p.get('bib') and p['bib'].get('title')) or ''] *)
Definition extract_title (p : publication) : result value :=
  let t := get p "title" in
  if truthy t then Ok t
  else
    let b := get p "bib" in
    if negb (truthy b) then Ok (VAtom (AStr []))
    else
      match b with
      | VDict d =>
          let bt := default ANone (d !! "title") in
          if atom_truthy bt then Ok (VAtom bt) else Ok (VAtom (AStr []))
      | _ => Raise (mkExn AttributeError (U "object has no attribute 'get'"))
      end.

(** [str(v)], as used by the f-string. *)
Definition py_str (v : value) : ustr :=
  match v with
  | VAtom ANone => U "None"
  | VAtom (AInt z) => U (pretty z)
  | VAtom (AStr s) => s
  | _ => container_str v
  end.

(** The key under which the dedupe pass records a publication. *)
Definition dedupe_key (p : publication) : result ustr :=
  title ← extract_title p;
  normalized ← _normalize_title_for_dedupe title;
  match normalized with
  | [] =>
      let pid := author_pub_id p in
      let pid := if truthy pid then pid else VAtom (AStr []) in
      Ok (U "__id__:" ++ py_str pid)
  | _ => Ok normalized
  end.

(** The inner loop of the dedupe pass over one author's publications:
    returns the updated [seen_titles] and [new_pubs]. *)
Fixpoint dedupe_pubs (seen_titles : gset ustr) (pubs : list publication)
  : result (gset ustr * list publication) :=
  match pubs with
  | [] => Ok (seen_titles, [])
  | p :: pubs' =>
      normalized ← dedupe_key p;
      if decide (normalized ∈ seen_titles)
      then dedupe_pubs seen_titles pubs'
      else
        r ← dedupe_pubs ({[normalized]} ∪ seen_titles) pubs';
        Ok (r.1, p :: r.2)
  end.

(** The outer loop over [author_map.values()].  Every author is stored
    under its own [scholar_id], so the assignment
    [author_map[a.get('scholar_id')] = a] re-binds the key the author
    already has. *)
Fixpoint dedupe_authors (seen_titles : gset ustr) (author_map : list (atom * author))
  : result (gset ustr * list (atom * author)) :=
  match author_map with
  | [] => Ok (seen_titles, [])
  | (k, a) :: rest =>
      r ← dedupe_pubs seen_titles (publications a);
      r' ← dedupe_authors r.1 rest;
      Ok (r'.1, (k, set_publications a r.2) :: r'.2)
  end.

(** ** RecordMerger ([merge_and_save_results], lines 96-143) *)

(** [{p.get('author_pub_id'): p for p in old_pubs if p.get('author_pub_id')}] *)
Definition index_pub (pub_map : list (atom * publication)) (p : publication)
  : result (list (atom * publication)) :=
  let pid := author_pub_id p in
  if truthy pid then k ← as_key pid; Ok (od_set k p pub_map)
  else Ok pub_map.

Definition build_pub_map (old_pubs : list publication) : result (list (atom * publication)) :=
  foldM index_pub [] old_pubs.

(** The body of [for pub in new_pubs].  [existing.copy()] followed by
    [merged.update(pub)] is the union in which [pub] wins. *)
Definition merge_pub (pub_map : list (atom * publication)) (pub : publication)
  : result (list (atom * publication)) :=
  let pid := author_pub_id pub in
  if negb (truthy pid) then Ok pub_map
  else
    k ← as_key pid;
    match od_get k pub_map with
    | Some existing =>
        let merged := pub ∪ existing in
        Ok (od_set k merged pub_map)
    | None => Ok (od_set k pub pub_map)
    end.

(** The publication list of an author already in the dataset. *)
Definition merge_publications (old_pubs new_pubs : list publication) : result (list publication) :=
  pub_map ← build_pub_map old_pubs;
  pub_map ← foldM merge_pub pub_map new_pubs;
  Ok (od_values pub_map).

(** [not scraped] for a dictionary. *)
Definition author_is_empty (a : author) : bool :=
  bool_decide (a_fields a = ∅) && bool_decide (a_pubs a = None).

(** The body of [for scraped in partial_authors].  The code stores the
    incoming dictionary itself in [author_map] and then assigns to its
    ["publications"] key; the model returns the updated record.  The two
    agree as long as no object occurs twice in [partial_authors], which
    holds for the fresh dictionaries that [_make_serializable] makes of the
    scraper's objects. *)
Definition merge_author (author_map : list (atom * author)) (scraped : author)
  : result (list (atom * author)) :=
  if author_is_empty scraped then Ok author_map
  else
    let sid := scholar_id scraped in
    if negb (truthy sid) then Ok author_map
    else
      let new_pubs := publications scraped in
      k ← as_key sid;
      match od_get k author_map with
      | Some old =>
          merged ← merge_publications (publications old) new_pubs;
          Ok (od_set k (set_publications scraped merged) author_map)
      | None => Ok (od_set k (set_publications scraped new_pubs) author_map)
      end.

(** The body of [for a in existing]. *)
Definition index_author (author_map : list (atom * author)) (a : author)
  : result (list (atom * author)) :=
  let sid := scholar_id a in
  if truthy sid then k ← as_key sid; Ok (od_set k a author_map)
  else Ok author_map.

(** [p['last_scraped'] = now_iso] when the field is missing or empty. *)
Definition stamp (now_iso : ustr) (p : publication) : publication :=
  if truthy (get p "last_scraped") then p
  else <["last_scraped" := VAtom (AStr now_iso)]> p.

Definition stamp_author (now_iso : ustr) (a : author) : author :=
  {| a_fields := a_fields a; a_pubs := fmap (M:=list) (stamp now_iso) <$> a_pubs a |}.

(** The in-memory part of [merge_and_save_results] (lines 96-181): from
    the loaded dataset and the scraped records to the list that is
    written.  [now] is [datetime.datetime.utcnow().isoformat()].  The
    module-level merge of [scraper.py] (lines 304-355) runs the same two
    loops, [index_author] and [merge_author], before it hands its result
    to this function. *)
Definition merge_results (now : ustr) (existing partial_authors : list author)
  : result (list author) :=
  author_map ← foldM index_author [] existing;
  let now_iso := now ++ U "Z" in
  author_map ← foldM merge_author author_map partial_authors;
  let author_map := prod_map id (stamp_author now_iso) <$> author_map in
  r ← dedupe_authors ∅ author_map;
  Ok (od_values r.2).

End reconciliation.

(** ** FreshnessScheduler ([scraper.py], [check_author_needs_scraping]) *)

Section freshness.
Context `{Runtime}.

Definition micros_per_day : Z := 86400 * 1000000.

(** [timedelta(days=threshold_days)], in microseconds.  A [timedelta]
    holds at most 999999999 days either way. *)
Definition timedelta_days (days : Z) : result Z :=
  if Z.abs days <=? 999999999 then Ok (days * micros_per_day)
  else Raise (mkExn Exception (U "days; must have magnitude <= 999999999")).

(** The [try] block of the loop: [None] when it raises, that is when
    [last_scraped] is not a string, when [fromisoformat] rejects it, or
    when the parsed value is naive and cannot be subtracted from the
    aware [now]. *)
Definition age (now : Z) (last_scraped : value) : option Z :=
  match last_scraped with
  | VAtom (AStr s) =>
      match fromisoformat (replace (U "Z") (U "+00:00") s) with
      | Some (Aware t) => Some (now - t)
      | Some (Naive _) => None
      | None => None
      end
  | _ => None
  end.

(** [for pub in publications]: the value returned by the function. *)
Fixpoint scan_publications (now threshold : Z) (scholar_id : value)
    (publications : list publication) : value :=
  match publications with
  | [] => VAtom ANone
  | pub :: rest =>
      let last_scraped := get pub "last_scraped" in
      if negb (truthy last_scraped) then scholar_id
      else
        match age now last_scraped with
        | Some age =>
            if age >? threshold then scholar_id
            else scan_publications now threshold scholar_id rest
        | None => scholar_id
        end
  end.

(** Returns the author's [scholar_id] when the author is to be scraped
    again and [None] otherwise.  [now] is [datetime.now(timezone.utc)]
    in microseconds since the epoch. *)
Definition check_author_needs_scraping (now : Z) (a : author) (threshold_days : Z)
  : result value :=
  let scholar_id := scholar_id a in
  if negb (truthy scholar_id) then Ok (VAtom ANone)
  else
    threshold ← timedelta_days threshold_days;
    let publications := publications a in
    match publications with
    | [] => Ok scholar_id
    | _ => Ok (scan_publications now threshold scholar_id publications)
    end.

End freshness.

(** ** PersistenceGateway ([merge_and_save_results], lines 87-94 and 183-195)

    What a path holds is either the complete JSON text of a dataset, a
    proper prefix of such a text left by a write that did not finish, or
    something [json.load] rejects. *)

Inductive file :=
  | Dataset (d : list author)
  | Truncated (d : list author)
  | Corrupt.

#[global] Instance file_eq_dec : EqDecision file.
Proof. solve_decision. Defined.

(** How the operating system treats one [open(path, 'w')] followed by
    [json.dump]: it works, [open] raises and the path is untouched, or the
    write raises after [open] has truncated the file. *)
Inductive write_fault :=
  | NoFault
  | OpenFails
  | WriteFails.

(** The faults met during one call of [merge_and_save_results]. *)
Record io_faults := mkFaults {
  read_fails : bool;          (* reading the existing file raises *)
  tmp_write : write_fault;    (* the write to [path + '.tmp'] *)
  replace_fails : bool;       (* os.replace raises *)
  direct_write : write_fault  (* the best-effort write to [path] *)
}.

Definition no_faults : io_faults := mkFaults false NoFault false NoFault.

Definition io_error : exn := mkExn OSError (U "I/O error").

Definition write_file (fault : write_fault) (files : gmap string file)
    (path : string) (d : list author) : gmap string file * result unit :=
  match fault with
  | NoFault => (<[path := Dataset d]> files, Ok ())
  | OpenFails => (files, Raise io_error)
  | WriteFails => (<[path := Truncated d]> files, Raise io_error)
  end.

(** [os.replace(src, dst)]: atomic; on failure nothing changes.  It also
    fails when [src] does not exist. *)
Definition os_replace (fails : bool) (files : gmap string file) (src dst : string)
    : gmap string file * result unit :=
  match files !! src with
  | Some content =>
      if fails then (files, Raise io_error)
      else (<[dst := content]> (delete src files), Ok ())
  | None => (files, Raise io_error)
  end.

(** Lines 88-94: a missing, unreadable or unparsable file reads as []. *)
Definition read_existing (fails : bool) (files : gmap string file) (path : string)
    : list author :=
  match files !! path with
  | Some (Dataset d) => if fails then [] else d
  | _ => []
  end.

(** Lines 183-195. *)
Definition save_merged (faults : io_faults) (files : gmap string file)
    (results_file_path : string) (merged : list author)
    : gmap string file * result unit :=
  let temp_path := (results_file_path +:+ ".tmp")%string in
  let attempt :=
    let r := write_file (tmp_write faults) files temp_path merged in
    match r.2 with
    | Ok _ => os_replace (replace_fails faults) r.1 temp_path results_file_path
    | Raise e => (r.1, Raise e)
    end in
  match attempt.2 with
  | Ok _ => attempt
  | Raise _ =>
      (* Attempt best-effort write to final path *)
      write_file (direct_write faults) attempt.1 results_file_path merged
  end.

Section persistence.
Context `{Runtime}.

Definition merge_and_save_results (faults : io_faults) (now : ustr)
    (files : gmap string file) (partial_authors : list author)
    (results_file_path : string) : gmap string file * result unit :=
  let existing := read_existing (read_fails faults) files results_file_path in
  match merge_results now existing partial_authors with
  | Ok merged => save_merged faults files results_file_path merged
  | Raise e => (files, Raise e)
  end.

End persistence.

(** ** CrawlController ([ScholarScraper.py]) *)

Definition MAX_RETRIES : nat := 1.

(** [MAX_TIME_PER_AUTHOR], in milliseconds; the clock counts milliseconds. *)
Definition MAX_TIME_PER_AUTHOR : Z := 30 * 1000.

Definition CAPTCHA_KEYWORDS : list ustr :=
  [U "captcha"; U "unusual traffic"; U "not a robot"; U "verify you"; U "blocked"].

(** What the crawl cannot control: the fetch collaborator, the clock and
    the disk.  The [n]-th call of [getAuthorData] returns a record or
    raises, and takes [fetch_millis n]; [utcnow] renders the clock as
    [datetime.utcnow().isoformat()]; [disk n] are the faults met by the
    [n]-th save. *)
Record environment := mkEnv {
  getAuthorData : nat → ustr → list ustr → result author;
  fetch_millis : nat → Z;
  utcnow : Z → ustr;
  disk : nat → io_faults
}.

Record world := mkWorld {
  w_files : gmap string file;
  w_clock : Z;
  w_fetched : list ustr;   (* ids handed to getAuthorData, oldest first *)
  w_saves : nat;           (* calls of merge_and_save_results *)
  w_proxies : nat          (* calls of set_new_proxy *)
}.

(** How the process ends. *)
Inductive outcome :=
  | Exit (code : Z)
  | Uncaught (e : exn).

Section crawl.
Context `{Runtime}.
Variable env : environment.

(** [check_for_captcha] *)
Definition check_for_captcha (error_msg : ustr) : bool :=
  let error_lower := lower error_msg in
  existsb (λ keyword, contains keyword error_lower) CAPTCHA_KEYWORDS.

Definition call_getAuthorData (scholarId : ustr) (skip_ids : list ustr) (w : world)
  : world * result author :=
  let n := length (w_fetched w) in
  ({| w_files := w_files w;
      w_clock := w_clock w + fetch_millis env n;
      w_fetched := w_fetched w ++ [scholarId];
      w_saves := w_saves w;
      w_proxies := w_proxies w |},
   getAuthorData env n scholarId skip_ids).

(** [time.sleep(backoff)] followed by [set_new_proxy()] *)
Definition sleep_and_rotate (backoff_seconds : Z) (w : world) : world :=
  {| w_files := w_files w;
     w_clock := w_clock w + backoff_seconds * 1000;
     w_fetched := w_fetched w;
     w_saves := w_saves w;
     w_proxies := S (w_proxies w) |}.

(** [f'{elapsed:.1f}'] for a duration in milliseconds, rounded to the
    nearest tenth of a second. *)
Definition format_seconds (millis : Z) : ustr :=
  let tenths := (millis + 50) / 100 in
  U (pretty (tenths / 10)) ++ U "." ++ U (pretty (tenths mod 10)).

(** The loop of [crawl]: [i] is the loop variable and [remaining] the
    number of iterations of [range(MAX_RETRIES)] still to run.  Every
    exception class of the model derives from [Exception], so the
    handler catches whatever [getAuthorData] raises. *)
Fixpoint crawl_loop (scholarID : ustr) (skip_ids : list ustr) (start_time : Z)
    (i : Z) (remaining : nat) (w : world) : world * result (option author) :=
  match remaining with
  | O => (w, Ok None)
  | S remaining' =>
      let elapsed := w_clock w - start_time in
      if elapsed >? MAX_TIME_PER_AUTHOR
      then (w, Raise (mkExn Exception
              (U "CAPTCHA_DETECTED: Timeout after " ++ format_seconds elapsed
               ++ U "s - likely stuck on CAPTCHA")))
      else
        let r := call_getAuthorData scholarID skip_ids w in
        match r.2 with
        | Ok data => (r.1, Ok (Some data))
        | Raise e =>
            let error_msg := exn_msg e in
            if check_for_captcha error_msg
            then (r.1, Raise (mkExn Exception (U "CAPTCHA_DETECTED: " ++ error_msg)))
            else
              let w' :=
                if i <? Z.of_nat MAX_RETRIES - 1
                then sleep_and_rotate (Z.min (2 ^ i) 60) r.1
                else r.1 in
              crawl_loop scholarID skip_ids start_time (i + 1) remaining' w'
        end
  end.

Definition crawl (scholarID : ustr) (skip_ids : list ustr) (w : world)
  : world * result (option author) :=
  crawl_loop scholarID skip_ids (w_clock w) 0 MAX_RETRIES w.

(** The test made by [start_scraping] and by the handlers of [scraper.py]. *)
Definition is_captcha (e : exn) : bool :=
  bool_decide (exn_cls e = CaptchaDetectedException)
  || contains (U "CAPTCHA_DETECTED") (upper (exn_msg e)).

(** One call of [merge_and_save_results] against the world's disk. *)
Definition save_to_disk (authors : list author) (path : string) (w : world)
  : world * result unit :=
  let r := merge_and_save_results (disk env (w_saves w)) (utcnow env (w_clock w))
             (w_files w) authors path in
  ({| w_files := r.1;
      w_clock := w_clock w;
      w_fetched := w_fetched w;
      w_saves := S (w_saves w);
      w_proxies := w_proxies w |}, r.2).

(** [_save_partial_results]: a failure is logged, not raised. *)
Definition _save_partial_results (results_path : string) (authorsList : list author)
    (w : world) : world :=
  (save_to_disk authorsList results_path w).1.

(** The loop of [start_scraping] over [self.scholarIds].  Returns the
    world, [self.authorsList], and either normally or the exception that
    leaves the method. *)
Fixpoint scrape_loop (results_path : string) (skip_ids : list ustr)
    (scholarIds : list ustr) (authorsList : list author) (w : world)
  : world * list author * result unit :=
  match scholarIds with
  | [] => (w, authorsList, Ok ())
  | scholarId :: rest =>
      let r := crawl scholarId skip_ids w in
      match r.2 with
      | Ok (Some res) =>
          scrape_loop results_path skip_ids rest (authorsList ++ [res]) r.1
      | Ok None => scrape_loop results_path skip_ids rest authorsList r.1
      | Raise e =>
          if is_captcha e
          then
            let w' := _save_partial_results results_path authorsList r.1 in
            (w', authorsList,
             Raise (mkExn Exception
               (U "CAPTCHA_DETECTED: CAPTCHA encountered while processing "
                ++ scholarId)))
          else scrape_loop results_path skip_ids rest authorsList r.1
      end
  end.

(** [start_scraping]: [self.authorsList] starts empty, and [scholarIds]
    is the list the loop runs over (the argument or, when that is empty,
    the list the object was made with).  The loading of the cached
    session cookies before the loop (lines 232-383) is left out: it
    works under [.cache/], where it may create the directory and remove
    the session file, and touches neither the results file nor the
    list. *)
Definition start_scraping (results_path : string) (scholarIds skip_ids : list ustr)
    (w : world) : world * list author * result unit :=
  scrape_loop results_path skip_ids scholarIds [] w.

(** The handler around [start_scraping] in [scraper.py] (lines 197-220):
    called with the exception and [scholar_scraper.authorsList]. *)
Definition handle_scrape_exception (results_file : string) (e : exn)
    (partial_results : list author) (w : world) : world * outcome :=
  if is_captcha e then
    match partial_results with
    | [] => (w, Exit 3)
    | _ => ((save_to_disk partial_results results_file w).1, Exit 3)
    end
  else (w, Uncaught e).

End crawl.

(** ** Vocabulary of the statements *)

(** A publication whose [author_pub_id] can serve as a dictionary key. *)
Definition hashable_id (p : publication) : Prop :=
  ∃ a, author_pub_id p = VAtom a.

(** A publication that carries an identity: a truthy [author_pub_id]. *)
Definition has_id (p : publication) : bool := truthy (author_pub_id p).

(** [incoming] laid over [prior], field by field: the incoming value where
    the incoming record has the field, the prior value elsewhere. *)
Definition overlaid (incoming prior merged : publication) : Prop :=
  ∀ field,
    merged !! field =
      match incoming !! field with
      | Some v => Some v
      | None => prior !! field
      end.

(** A Python dictionary literal. *)
Definition dict_of (l : list (string * value)) : gmap string value :=
  list_to_map l.

(** A string field. *)
Definition str (s : string) : value := VAtom (AStr (U s)).

(** Every entry of [pub_map] sits under its own, truthy, id. *)
Definition keyed (pub_map : list (atom * publication)) : Prop :=
  ∀ k p, (k, p) ∈ pub_map → author_pub_id p = VAtom k ∧ atom_truthy k = true.

(** The Deduplicator in the words of its specification: go through the
    publications in order, each with its key; drop the one whose key has
    been seen, keep the other and mark its key seen. *)
Fixpoint first_seen (seen : gset ustr) (pubs : list (ustr * publication))
  : list (ustr * publication) :=
  match pubs with
  | [] => []
  | (key, p) :: rest =>
      if decide (key ∈ seen) then first_seen seen rest
      else (key, p) :: first_seen ({[key]} ∪ seen) rest
  end.

Section vocabulary.
Context `{Runtime}.

(** The IdentityNormalizer in the words of its specification:
    decompose, strip the combining marks, turn what is neither a word
    character nor whitespace into a space, collapse the whitespace,
    trim, lowercase. *)
Definition normalize (title : ustr) : ustr :=
  let decomposed := nfkd title in
  let unmarked := strip_combining decomposed in
  let spaced := sub_punctuation unmarked in
  let collapsed := collapse_whitespace false spaced in
  let trimmed := strip collapsed in
  lower trimmed.

(** The key of a publication of which the title and the id are given
    as text (the empty text when absent). *)
Definition normalization_key (title author_pub_id : ustr) : ustr :=
  match normalize title with
  | [] => U "__id__:" ++ author_pub_id
  | key => key
  end.

(** A publication whose title normalizes to nothing and that has no id. *)
Definition title_less_id_less (p : publication) : bool :=
  match extract_title p ≫= _normalize_title_for_dedupe with
  | Ok [] => negb (has_id p)
  | _ => false
  end.

(** The keys of a list of publications, when all can be computed. *)
Definition keys_of (pubs : list publication) (keys : list ustr) : Prop :=
  Forall2 (λ p key, dedupe_key p = Ok key) pubs keys.

(** [pub] carries a usable timestamp: a non-empty string that is read
    as the UTC instant [t] (microseconds since the epoch). *)
Definition scraped_at (pub : publication) (t : Z) : Prop :=
  ∃ s, get pub "last_scraped" = VAtom (AStr s) ∧ s ≠ [] ∧
       fromisoformat (replace (U "Z") (U "+00:00") s) = Some (Aware t).

(** The FreshnessScheduler's rule for one publication: [last_scraped] is
    absent or cannot be read, or it is older than the threshold. *)
Definition needs_refresh (now threshold_days : Z) (pub : publication) : Prop :=
  (∀ t, ¬ scraped_at pub t) ∨
  (∃ t, scraped_at pub t ∧ now - t > threshold_days * micros_per_day).
End vocabulary.

(** Every publication of a dataset, author after author. *)
Definition all_publications (d : list author) : list publication :=
  d ≫= publications.

(** A publication whose [last_scraped] is set. *)
Definition stamped (p : publication) : Prop :=
  truthy (get p "last_scraped") = true.

(** A publication with a non-empty string as its [title]. *)
Definition titled (p : publication) : Prop :=
  ∃ s, p !! "title" = Some (VAtom (AStr s)) ∧ s ≠ [].

(** A publication that does not carry an empty [last_scraped]: the field
    is missing or set. *)
Definition timestamp_missing_or_set (p : publication) : Prop :=
  p !! "last_scraped" = None ∨ stamped p.

(** The id of a publication as a dictionary key. *)
Definition pid (p : publication) : atom :=
  match author_pub_id p with
  | VAtom a => a
  | _ => ANone
  end.

(** A publication with a non-empty, hashable id. *)
Definition identified (p : publication) : Prop :=
  ∃ k, author_pub_id p = VAtom k ∧ atom_truthy k = true.

(** Publications with non-empty, pairwise distinct ids. *)
Definition distinctly_identified (pubs : list publication) : Prop :=
  Forall identified pubs ∧ NoDup (pid <$> pubs).

(** The [pub_map] built from such a list. *)
Definition entries (pubs : list publication) : list (atom * publication) :=
  (λ p, (pid p, p)) <$> pubs.

(** An [author_map] as the code builds it: every author sits under its
    own, truthy, [scholar_id], and no key occurs twice. *)
Definition indexed (author_map : list (atom * author)) : Prop :=
  NoDup author_map.*1 ∧
  ∀ k a, (k, a) ∈ author_map → scholar_id a = VAtom k ∧ atom_truthy k = true.

(** An [author_map] after the stamping pass and the dedupe pass: every
    author has a publication list, all of it stamped. *)
Definition settled (author_map : list (atom * author)) : Prop :=
  ∀ k a, (k, a) ∈ author_map → ∃ pubs, a_pubs a = Some pubs ∧ Forall stamped pubs.

(** ** Sample data *)

(** A publication on record, a sparse re-sighting of it that lacks
    [pages], and a re-sighting in which [pages] is present but empty. *)
Definition ex_prior : publication :=
  dict_of [("author_pub_id", str "p1"); ("title", str "T"); ("pages", str "1-9")].

Definition ex_sparse : publication :=
  dict_of [("author_pub_id", str "p1"); ("title", str "T")].

Definition ex_blank : publication :=
  dict_of [("author_pub_id", str "p1"); ("title", str "T"); ("pages", str "")].

(** Publications without [author_pub_id]. *)
Definition ex_draft : publication := dict_of [("title", str "Untitled Draft")].

Definition ex_new_result : publication := dict_of [("title", str "New Result")].

(** A publication with neither title nor id. *)
Definition ex_bare : publication := dict_of [("pages", str "3")].

Definition ex_author (sid : string) (pubs : list publication) : author :=
  mkAuthor (dict_of [("scholar_id", str sid)]) (Some pubs).

Definition ex_key (sid : string) : atom := AStr (U sid).

(** [datetime.utcnow().isoformat()] at two moments. *)
Definition ex_now : ustr := U "2024-01-11T00:00:00".
Definition ex_later : ustr := U "2024-01-12T00:00:00".

(** Two titles that differ by case, punctuation and spacing. *)
Definition ex_deep_1 : publication :=
  dict_of [("author_pub_id", str "x1"); ("title", str "Deep Learning!")].

Definition ex_deep_2 : publication := dict_of [("title", str "deep   learning")].

(** A publication scraped on 2024-01-01, and 2024-01-11 00:00 UTC in
    microseconds since the epoch. *)
Definition ex_ten_days_old : publication :=
  dict_of [("author_pub_id", str "p1"); ("title", str "T");
           ("last_scraped", str "2024-01-01T00:00:00Z")].

Definition ex_now_micros : Z := days_from_civil 2024 1 11 * micros_per_day.

(** A disk on which the temporary file cannot be created and the
    fallback write breaks off. *)
Definition ex_bad_disk : io_faults := mkFaults false OpenFails false WriteFails.

(** A run over five identities: the first two are fetched, the third
    meets the "unusual traffic" page. *)
Definition ex_ids : list ustr := [U "a1"; U "a2"; U "a3"; U "a4"; U "a5"].

Definition ex_fetched (id : ustr) : author :=
  mkAuthor {["scholar_id" := VAtom (AStr id)]}
    (Some [{["author_pub_id" := VAtom (AStr (id ++ U ":1"))]}]).

Definition ex_env : environment := {|
  getAuthorData n id _ :=
    if decide (id = U "a3")
    then Raise (mkExn Exception
           (U "Our systems have detected unusual traffic from your network"))
    else Ok (ex_fetched id);
  fetch_millis _ := 1200;
  utcnow _ := ex_now;
  disk _ := no_faults
|}.

(** The same run when the collaborator signals the block by the typed
    exception, with a text that holds none of the keywords. *)
Definition ex_typed_env : environment := {|
  getAuthorData n id _ :=
    if decide (id = U "a3")
    then Raise (mkExn CaptchaDetectedException
           (U "Google Scholar answered with a challenge page"))
    else Ok (ex_fetched id);
  fetch_millis _ := 1200;
  utcnow _ := ex_now;
  disk _ := no_faults
|}.

Definition ex_world : world := {|
  w_files := ∅;
  w_clock := 0;
  w_fetched := [];
  w_saves := 0;
  w_proxies := 0
|}.

Definition ex_run :=
  start_scraping (H := ascii_runtime) ex_env "results.json" ex_ids [] ex_world.

(** The same run cut before the third identity, and the crawl of the
    third identity after it. *)
Definition ex_prefix_run :=
  start_scraping (H := ascii_runtime) ex_env "results.json" [U "a1"; U "a2"] [] ex_world.


Definition ex_typed_run :=
  start_scraping (H := ascii_runtime) ex_typed_env "results.json" ex_ids [] ex_world.

(** ** Vocabulary of the further properties *)

(** A field that is empty (absent, [None], [0], [""]) or holds text. *)
Definition text_or_empty (v : value) : Prop :=
  truthy v = false ∨ ∃ s, v = VAtom (AStr s).

(** A [bib] entry that is empty or a dictionary whose [title] is empty
    or text. *)
Definition bib_or_empty (v : value) : Prop :=
  truthy v = false ∨
  ∃ d, v = VDict d ∧ text_or_empty (VAtom (default ANone (d !! "title"))).

(** A publication of the shape the scraper emits and the results file
    holds: a scalar [author_pub_id], a textual [title], a [bib]
    dictionary. *)
Definition well_formed_publication (p : publication) : Prop :=
  hashable_id p ∧ text_or_empty (get p "title") ∧ bib_or_empty (get p "bib").

(** An author record with a scalar [scholar_id] and such publications. *)
Definition well_formed_author (a : author) : Prop :=
  (∃ k, scholar_id a = VAtom k) ∧ Forall well_formed_publication (publications a).

(** An author record that carries an identity: a truthy scalar
    [scholar_id]. *)
Definition identified_author (a : author) : Prop :=
  ∃ k, scholar_id a = VAtom k ∧ atom_truthy k = true.

Section more_vocabulary.
Context `{Runtime}.

(** [t.rstrip()]: [strip] trims the left end and then the right end. *)
Definition rstrip (t : ustr) : ustr := reverse (lstrip (reverse t)).

(** A character map that respects the classes [\w] and [\s] and leaves
    the space alone, as the two case conversions do on ASCII text. *)
Definition keeps_classes (g : N → N) : Prop :=
  g 32%N = 32%N ∧ ∀ c, is_word (g c) = is_word c ∧ is_space (g c) = is_space c.

End more_vocabulary.

(** The publication list [cur] supersedes the indexed publications
    [base]: its publications carry pairwise distinct ids, those of [base]
    first and in the same order, and each of them that has the id of an
    entry of [base] holds every field of that entry. *)
Definition supersedes (base : list (atom * publication)) (cur : list publication) : Prop :=
  distinctly_identified cur ∧
  (∃ new, pid <$> cur = base.*1 ++ new) ∧
  ∀ k s x, od_get k base = Some s → x ∈ cur → pid x = k → x ∪ s = x.

(** A record of the dataset whose publications each have an id of
    their own. *)
Definition has_identified_publications (a : author) : Prop :=
  ∃ pubs, a_pubs a = Some pubs ∧ distinctly_identified pubs.

(** The author map [cur] supersedes [base]: the authors of [base] come
    first and in the same order, every author has a publication list,
    and the list of an author of [base] supersedes the one it had. *)
Definition supersedes_authors (base cur : list (atom * author)) : Prop :=
  indexed cur ∧
  (∃ new, cur.*1 = base.*1 ++ new) ∧
  (∀ k a, od_get k cur = Some a → is_Some (a_pubs a)) ∧
  ∀ k a0 a, od_get k base = Some a0 → od_get k cur = Some a →
    supersedes (entries (publications a0)) (publications a).

(** ** Words of a title *)

(** The word at hand as a list of words: none when nothing was read. *)
Definition flush (word : ustr) : list ustr :=
  match word with
  | [] => []
  | _ => [word]
  end.

(** The words of an ASCII title, in order: its maximal runs of letters,
    digits and underscores.  [word] is what has been read of the word
    at hand. *)
Fixpoint words_from (word t : ustr) : list ustr :=
  match t with
  | [] => flush word
  | c :: t' =>
      if ascii_word c then words_from (word ++ [c]) t'
      else flush word ++ words_from [] t'
  end.

Definition ascii_words (t : ustr) : list ustr := words_from [] t.

(** The words in lower case. *)
Definition lowered_words (t : ustr) : list ustr :=
  fmap (M := list) ascii_lower <$> ascii_words t.

(** [' '.join(ws)] *)
Fixpoint join_words (ws : list ustr) : ustr :=
  match ws with
  | [] => []
  | w :: ws' =>
      match ws' with
      | [] => w
      | _ => w ++ 32%N :: join_words ws'
      end
  end.

(** ** A runtime with accents *)

(** The letters of Latin-1 that carry an acute accent, each with the
    letter into which Unicode decomposes it; the decomposition is that
    letter followed by the combining acute accent U+0301. *)
Definition acute_base (c : N) : option N :=
  match c with
  | 193 => Some 65 | 201 => Some 69 | 205 => Some 73
  | 211 => Some 79 | 218 => Some 85 | 221 => Some 89
  | 225 => Some 97 | 233 => Some 101 | 237 => Some 105
  | 243 => Some 111 | 250 => Some 117 | 253 => Some 121
  | _ => None
  end%N.

Definition acute_nfkd (s : ustr) : ustr :=
  s ≫= λ c,
    if is_ascii c then [c]
    else match acute_base c with
         | Some base => [base; 769%N]
         | None => [c]
         end.

(** [ascii_runtime] with Unicode tables that know these twelve letters
    and the combining acute accent. *)
Definition acute_runtime : Runtime.
Proof.
  refine {|
    nfkd := acute_nfkd;
    combining c := (c =? 769)%N;
    is_word c := if is_ascii c then ascii_word c else true;
    is_space c := if is_ascii c then ascii_space c else false;
    lower s := ascii_lower <$> s;
    upper s := ascii_upper <$> s;
    container_str _ := U "<container>";
    fromisoformat := read_isoformat
  |}.
  - intros s. induction s as [|c s IH]; [reflexivity|].
    intros Hs. simpl in Hs. apply andb_true_iff in Hs as [Hc Hs].
    unfold acute_nfkd in *. rewrite bind_cons, Hc, (IH Hs). reflexivity.
  - intros c Hc. unfold is_ascii in Hc. apply N.ltb_lt in Hc.
    apply N.eqb_neq. lia.
  - intros c ->. reflexivity.
  - intros c ->. reflexivity.
  - reflexivity.
  - reflexivity.
  - intros s t. apply fmap_app.
Defined.

(** ** The runner ([scraper.py]) *)

Section runner.
Context `{Runtime}.

(** Lines 178-190, for the publications of one author: the ids of the
    publications whose [last_scraped] is read and lies at most
    [threshold] back.  Whatever the [try] block raises is passed over. *)
Definition fresh_pub_ids (now threshold : Z) (pubs : list publication) : list value :=
  pubs ≫= λ pub,
    let last_scraped := get pub "last_scraped" in
    if truthy last_scraped then
      match age now last_scraped with
      | Some age =>
          if age <=? threshold then
            let pub_id := get pub "author_pub_id" in
            if truthy pub_id then [pub_id] else []
          else []
      | None => []
      end
    else [].

(** Lines 174-190: [skip_ids].  [timedelta] is the one call made outside
    the inner [try]. *)
Definition build_skip_ids (now : Z) (threshold_days : Z) (existing_authors : list author)
  : result (list value) :=
  threshold ← timedelta_days threshold_days;
  Ok (existing_authors ≫= λ author, fresh_pub_ids now threshold (publications author)).

End runner.

(** The records that a run over [scholarIds] gathers when nothing stops
    it: those of the identities whose fetch returns, in order.  [n]
    counts the fetches made before. *)
Fixpoint collected (env : environment) (n : nat) (skip_ids scholarIds : list ustr)
  : list author :=
  match scholarIds with
  | [] => []
  | scholarId :: rest =>
      match getAuthorData env n scholarId skip_ids with
      | Ok data => data :: collected env (S n) skip_ids rest
      | Raise _ => collected env (S n) skip_ids rest
      end
  end.

(** The module-level merge of [scraper.py] (lines 304-355).  Its two
    loops are those of [merge_and_save_results], written out a second
    time, with one difference: an author met for the first time is
    stored as it came, without a [publications] list being forced on
    it. *)
Definition script_merge_author (author_map : list (atom * author)) (scraped_author : author)
  : result (list (atom * author)) :=
  if author_is_empty scraped_author then Ok author_map
  else
    let scholar_id := scholar_id scraped_author in
    if negb (truthy scholar_id) then Ok author_map
    else
      k ← as_key scholar_id;
      match od_get k author_map with
      | Some old =>
          let old_pubs := publications old in
          let new_pubs := publications scraped_author in
          pub_map ← foldM index_pub [] old_pubs;
          pub_map ← foldM merge_pub pub_map new_pubs;
          Ok (od_set k (set_publications scraped_author (od_values pub_map)) author_map)
      | None => Ok (od_set k scraped_author author_map)
      end.

(** Lines 304-355: [merged_results]. *)
Definition script_merge (existing_authors results : list author) : result (list author) :=
  author_map ← foldM index_author [] existing_authors;
  author_map ← foldM script_merge_author author_map results;
  Ok (od_values author_map).

(** What a run that was not stopped writes (lines 304-365): the
    module-level merge, handed to the in-memory part of
    [merge_and_save_results], which starts again from the recorded
    dataset. *)
Definition run_merge `{Runtime} (now : ustr) (existing_authors results : list author)
  : result (list author) :=
  merged_results ← script_merge existing_authors results;
  merge_results now existing_authors merged_results.

(** [config.json] as [load_config] finds it: missing; present but
    unusable, because it cannot be read, is not JSON, or is JSON other
    than an object; or an object. *)
Inductive config_file :=
  | NoConfig
  | UnusableConfig
  | ConfigObject (config : gmap string value).

Definition default_config : gmap string value :=
  dict_of [("results_file", str "results.json");
           ("rescrape_threshold_days", VAtom (AInt 7));
           ("scholar_ids", VList [])].

(** [load_config] (lines 25-44).  [{**default_config, **config}] is the
    union in which [config] wins. *)
Definition load_config (file : config_file) : gmap string value :=
  match file with
  | ConfigObject config => config ∪ default_config
  | NoConfig | UnusableConfig => default_config
  end.

(** ** Serialization helpers ([utilities.py], lines 6-50)

    [_make_serializable] walks arbitrary Python values.  Those it tells
    apart are the scalars, dictionaries, lists and tuples, objects with
    a [__dict__], and everything else, of which only [str()] is used.
    Dictionary keys are scalars; a float is given by its bits; values
    are finite trees. *)

Inductive pyobj :=
  | PNone
  | PBool (b : bool)
  | PInt (z : Z)
  | PFloat (bits : Z)
  | PStr (s : ustr)
  | PList (l : list pyobj)
  | PTuple (l : list pyobj)
  | PDict (d : list (atom * pyobj))
  | PObject (dict : list (ustr * pyobj))   (* an instance, by its __dict__ *)
  | POther (text : ustr).                  (* any other object, by its str() *)

(** [_make_serializable] ([utilities.py]) and [make_serializable]
    ([scraper.py], lines 138-148) are the same function. *)
Fixpoint _make_serializable (obj : pyobj) : pyobj :=
  match obj with
  | PNone | PBool _ | PInt _ | PFloat _ | PStr _ => obj
  | PDict d => PDict ((λ kv, (kv.1, _make_serializable kv.2)) <$> d)
  | PList l | PTuple l => PList (_make_serializable <$> l)
  | PObject dict => PDict ((λ kv, (AStr kv.1, _make_serializable kv.2)) <$> dict)
  | POther text => PStr text
  end.

(** The values [json.dump] writes without help: scalars, and lists and
    dictionaries of such values. *)
Fixpoint json_native (obj : pyobj) : bool :=
  match obj with
  | PNone | PBool _ | PInt _ | PFloat _ | PStr _ => true
  | PList l => forallb json_native l
  | PDict d => forallb (λ kv, json_native kv.2) d
  | PTuple _ | PObject _ | POther _ => false
  end.

(** [getObjectPublicAttributes].  A class is given as [dir] and
    [getattr] show it: its attribute names, each with whether the value
    found there is callable. *)
Definition getObjectPublicAttributes (class_name : string) (class_dir : list (string * bool))
  : list string :=
  (List.filter
     (λ entry,
        negb entry.2
        && negb (String.prefix "__" entry.1)
        && negb (String.prefix "_" entry.1)
        && negb (String.prefix ("_" ++ class_name ++ "__") entry.1))
     class_dir).*1.

(** ** Simplified records ([CustomScholarlyTypes.py])

    A publication as the [scholarly] library hands it over: a
    dictionary whose [bib] entry, when present, is a dictionary of
    scalars. *)
Record raw_publication := mkRaw {
  rp_fields : gmap string value;       (* the entries other than ['bib'] *)
  rp_bib : option (gmap string atom)   (* publication['bib'] *)
}.

(** What a constructor does: it builds the object or raises. *)
Inductive construction (A : Type) :=
  | Built (a : A)
  | KeyError (key : string)
  | ValueError (msg : string).

Arguments Built {A} a.
Arguments KeyError {A} key.
Arguments ValueError {A} msg.

(** [dir(SimplifiedPublication)] as far as the class body decides it.
    What the class inherits from [object] has names that start with two
    underscores. *)
Definition SimplifiedPublication_dir : list (string * bool) :=
  [("__annotations__", false); ("__dict__", false); ("__doc__", false);
   ("__init__", true); ("__module__", false); ("__str__", true);
   ("__weakref__", false); ("_class_attributes", false);
   ("abstract", false); ("author", false); ("author_id", false);
   ("author_pub_id", false); ("bib_id", false); ("citation", false);
   ("cites_per_year", false); ("journal", false); ("num_citations", false);
   ("number", false); ("pages", false); ("pub_type", false);
   ("pub_url", false); ("pub_year", false); ("publisher", false);
   ("title", false); ("url_related_articles", false); ("venue", false);
   ("volume", false)].

(** [self._class_attributes] of a [SimplifiedPublication]. *)
Definition publication_attributes : list string :=
  getObjectPublicAttributes "SimplifiedPublication" SimplifiedPublication_dir.

Definition important_bib_fields : list string :=
  ["title"; "author"; "abstract"; "journal"; "venue"; "pages"; "publisher";
   "volume"; "number"; "cites_per_year"; "pub_url"; "url"; "url_related_articles"].

(** [v is None or (isinstance(v, (str, list, dict)) and len(v) == 0)] *)
Definition is_blank (v : value) : bool :=
  match v with
  | VAtom ANone => true
  | VAtom (AStr s) => match s with [] => true | _ => false end
  | VAtom (AInt _) => false
  | VList l => match l with [] => true | _ => false end
  | VDict d => bool_decide (d = ∅)
  end.

(** The value examined for an important field: the one in [bib] when
    [bib] has the key, else the one at the top level, else [None]. *)
Definition important_value (publication : raw_publication) (k : string) : value :=
  match default ∅ (rp_bib publication) !! k with
  | Some a => VAtom a
  | None => get (rp_fields publication) k
  end.

(** The first loop: some important field is missing or empty. *)
Definition is_incomplete (publication : raw_publication) : bool :=
  existsb (λ k, is_blank (important_value publication k)) important_bib_fields.

(** [skip_ids and pid and pid in skip_ids].  Looking up an unhashable
    [pid] raises inside the [try], which leaves the decision as it
    was. *)
Definition is_skipped (pid : value) (skip_ids : list atom) : bool :=
  match skip_ids with
  | [] => false
  | _ =>
      truthy pid &&
      match pid with
      | VAtom a => bool_decide (a ∈ skip_ids)
      | _ => false
      end
  end.

Definition should_fill (publication : raw_publication) (skip_ids : list atom) : bool :=
  is_incomplete publication
  && negb (is_skipped (get (rp_fields publication) "author_pub_id") skip_ids).

(** The two copying loops: every class attribute found at the top level
    is copied, then every key of [bib] that is a class attribute is
    copied over it. *)
Definition copy_attributes (attributes : list string) (publication : raw_publication)
  : gmap string value :=
  let top := filter (λ kv, kv.1 ∈ attributes) (rp_fields publication) in
  let bib := filter (λ kv, kv.1 ∈ attributes) (default ∅ (rp_bib publication)) in
  (VAtom <$> bib) ∪ top.

(** An instance of one of the simplified classes: the list it stores
    as [self._class_attributes] and the attributes copied to it. *)
Record simplified := mkSimplified {
  class_attributes : list string;
  copied : gmap string value
}.

(** [o.__dict__] *)
Definition object_dict (o : simplified) : gmap string value :=
  <["_class_attributes" := VList (AStr ∘ U <$> class_attributes o)]> (copied o).

(** [SimplifiedPublication.__init__].  [fill] is [scholarly.fill], by
    the state in which it leaves the publication, whether it returns or
    raises. *)
Definition SimplifiedPublication (fill : raw_publication → raw_publication)
    (publication : raw_publication) (skip_ids : list atom)
  : construction simplified :=
  let _class_attributes := publication_attributes in
  match rp_fields publication !! "container_type" with
  | None => KeyError "container_type"
  | Some container_type =>
      if decide (container_type = str "Publication") then
        let publication :=
          if should_fill publication skip_ids then fill publication else publication in
        Built (mkSimplified _class_attributes
                 (copy_attributes _class_attributes publication))
      else ValueError "The given object is not a Publication object."
  end.

(** [JSONEncoder.default] on such an instance: the entries of
    [__dict__] whose key is listed in [_class_attributes]. *)
Definition JSONEncoder_default (o : simplified) : gmap string value :=
  filter (λ kv, kv.1 ∈ class_attributes o) (object_dict o).

(** A value and an instance as [_make_serializable] meets them. *)
Definition atom_to_pyobj (a : atom) : pyobj :=
  match a with
  | ANone => PNone
  | AInt z => PInt z
  | AStr s => PStr s
  end.

Definition value_to_pyobj (v : value) : pyobj :=
  match v with
  | VAtom a => atom_to_pyobj a
  | VList l => PList (atom_to_pyobj <$> l)
  | VDict d => PDict ((λ kv, (AStr (U kv.1), atom_to_pyobj kv.2)) <$> map_to_list d)
  end.

Definition dict_to_pyobj (d : gmap string value) : list (ustr * pyobj) :=
  (λ kv, (U kv.1, value_to_pyobj kv.2)) <$> map_to_list d.

Definition instance (o : simplified) : pyobj := PObject (dict_to_pyobj (object_dict o)).

(** ** Further sample data *)

(** A dataset of one author, a scrape that brings a second author and a
    re-sighting for the first, and what the merge at [ex_now] writes. *)
Definition ex_recorded : list author := [ex_author "A1" [ex_prior]].

Definition ex_scraped : list author :=
  [ex_author "A2" [ex_deep_1]; ex_author "A1" [ex_sparse]].

Definition ex_stamp : string * value := ("last_scraped", str "2024-01-11T00:00:00Z").

Definition ex_saved_1 : author :=
  ex_author "A1"
    [dict_of [("author_pub_id", str "p1"); ("title", str "T"); ("pages", str "1-9");
              ex_stamp]].

Definition ex_saved_2 : author :=
  ex_author "A2"
    [dict_of [("author_pub_id", str "x1"); ("title", str "Deep Learning!"); ex_stamp]].

Definition ex_saved : list author := [ex_saved_1; ex_saved_2].

(** A recorded author with a field that the scrape does not bring. *)
Definition ex_with_homepage : author :=
  mkAuthor (dict_of [("scholar_id", str "A1"); ("homepage", str "https://example.org")])
    (Some [ex_prior]).

(** A title of punctuation only. *)
Definition ex_punctuation : publication :=
  dict_of [("author_pub_id", str "p7"); ("title", str "?! - ...")].

(** 2024-01-19 00:00 UTC, eight days after [ex_now]. *)
Definition ex_eight_days_later : Z := days_from_civil 2024 1 19 * micros_per_day.

(** A recorded author with a publication that has no id, and what a
    run that scrapes a second author writes. *)
Definition ex_recorded_with_draft : list author := [ex_author "A1" [ex_prior; ex_draft]].

Definition ex_run_saved : list author :=
  [ex_saved_1;
   ex_author "A2"
     [dict_of [("author_pub_id", str "x1"); ("title", str "Deep Learning!"); ex_stamp]]].

(** A publication as [scholarly] hands it over, with a title in [bib]
    and another at the top level, and a [fill] that would blank it. *)
Definition ex_raw : raw_publication :=
  mkRaw (dict_of [("container_type", str "Publication"); ("author_pub_id", str "p1");
                  ("title", str "Top-level title"); ("num_citations", VAtom (AInt 3))])
        (Some {["title" := AStr (U "Bib title")]}).

Definition ex_fill (p : raw_publication) : raw_publication := mkRaw ∅ None.

Definition ex_simplified : simplified :=
  mkSimplified publication_attributes (copy_attributes publication_attributes ex_raw).

(** A value made of scalars, lists and dictionaries. *)
Definition ex_json : pyobj :=
  PDict [(AStr (U "name"), PStr (U "Ada"));
         (AStr (U "interests"), PList [PStr (U "logic"); PNone; PInt 3])].

(** Two titles that differ by a hyphen inside a word. *)
Definition ex_email_1 : publication :=
  dict_of [("author_pub_id", str "m1"); ("title", str "E-mail filtering")].

Definition ex_email_2 : publication :=
  dict_of [("author_pub_id", str "m2"); ("title", str "Email filtering")].

(** "Café society", with U+00E9, and a spelling without the accent. *)
Definition ex_cafe_title : ustr := U "Caf" ++ 233%N :: U " society".

Definition ex_cafe_1 : publication :=
  dict_of [("author_pub_id", str "c1"); ("title", VAtom (AStr ex_cafe_title))].

Definition ex_cafe_2 : publication :=
  dict_of [("author_pub_id", str "c2"); ("title", str "cafe  society?")].

(** * Properties *)

(** ** The error monad *)

Lemma bind_ok {A B} (m : result A) (f : A → result B) (b : B) :
  m ≫= f = Ok b ↔ ∃ a, m = Ok a ∧ f a = Ok b.
Proof.
  destruct m as [a|e]; simpl.
  - split; [intros Hf; exists a; auto | intros (a' & [= <-] & Hf); exact Hf].
  - split; [discriminate | intros (a' & Ha & _); discriminate].
Qed.

Ltac inv_ok :=
  repeat match goal with
  | H : _ ≫= _ = Ok _ |- _ =>
      let a := fresh "r" in
      let Ha := fresh "Hr" in
      apply bind_ok in H as (a & Ha & H)
  | H : Ok _ = Ok _ |- _ => injection H as H; try subst
  | H : Raise _ = Ok _ |- _ => discriminate H
  | H : mret _ = Ok _ |- _ => injection H as H; try subst
  end.

Lemma foldM_app {A B} (f : B → A → result B) (b : B) (l1 l2 : list A) :
  foldM f b (l1 ++ l2) = foldM f b l1 ≫= λ b', foldM f b' l2.
Proof.
  revert b. induction l1 as [|x l1 IH]; intros b; simpl; [reflexivity|].
  destruct (f b x) as [b'|e]; simpl; [apply IH | reflexivity].
Qed.

(** ** Insertion-ordered dictionaries *)

Section ordered_dict_facts.
Context {K V : Type} `{EqDecision K}.
Implicit Types (d : list (K * V)) (k : K) (v : V).

Lemma od_get_set_eq k v d : od_get k (od_set k v d) = Some v.
Proof.
  induction d as [|[k' v'] d IH]; simpl.
  - rewrite decide_True; auto.
  - destruct (decide (k = k')) as [->|Hne]; simpl.
    + rewrite decide_True; auto.
    + rewrite decide_False; auto.
Qed.

Lemma od_get_set_ne k k' v d : k ≠ k' → od_get k' (od_set k v d) = od_get k' d.
Proof.
  intros Hne. induction d as [|[k0 v0] d IH]; simpl.
  - rewrite decide_False; auto.
  - destruct (decide (k = k0)) as [->|Hne0]; simpl.
    + rewrite !decide_False; auto.
    + destruct (decide (k' = k0)); auto.
Qed.

Lemma od_get_set k k' v d :
  od_get k' (od_set k v d) = if decide (k = k') then Some v else od_get k' d.
Proof.
  destruct (decide (k = k')) as [->|Hne].
  - apply od_get_set_eq.
  - apply od_get_set_ne, Hne.
Qed.

Lemma od_get_elem_of k v d : od_get k d = Some v → (k, v) ∈ d.
Proof.
  induction d as [|[k' v'] d IH]; simpl; [discriminate|].
  destruct (decide (k = k')) as [->|Hne].
  - intros [= ->]. left.
  - intros Hg. right. auto.
Qed.

Lemma od_get_value k v d : od_get k d = Some v → v ∈ od_values d.
Proof.
  intros Hg. apply od_get_elem_of in Hg.
  unfold od_values. apply list_elem_of_fmap. exists (k, v). auto.
Qed.

Lemma od_get_None k d : od_get k d = None ↔ k ∉ od_keys d.
Proof.
  unfold od_keys. induction d as [|[k' v'] d IH]; simpl.
  - split; [intros _; apply not_elem_of_nil | reflexivity].
  - rewrite not_elem_of_cons. destruct (decide (k = k')) as [->|Hne].
    + split; [discriminate | intros [Hc _]; contradiction].
    + rewrite IH. tauto.
Qed.

(** Assignment to a present key leaves the keys alone; assignment to a
    new key appends it. *)
Lemma od_set_present k v v0 d :
  od_get k d = Some v0 → od_keys (od_set k v d) = od_keys d.
Proof.
  unfold od_keys. induction d as [|[k' v'] d IH]; simpl; [discriminate|].
  destruct (decide (k = k')) as [->|Hne]; simpl; [reflexivity|].
  intros Hg. f_equal. auto.
Qed.

Lemma od_set_absent k v d :
  od_get k d = None → od_set k v d = d ++ [(k, v)].
Proof.
  induction d as [|[k' v'] d IH]; simpl; [reflexivity|].
  destruct (decide (k = k')) as [->|Hne]; [discriminate|].
  intros Hg. f_equal. auto.
Qed.

Lemma od_set_same k v d :
  NoDup (od_keys d) → (k, v) ∈ d → od_set k v d = d.
Proof.
  unfold od_keys. induction d as [|[k' v'] d IH]; simpl.
  - intros _ Hin. apply elem_of_nil in Hin. contradiction.
  - intros Hnd Hin. apply NoDup_cons in Hnd as [Hk Hnd].
    apply elem_of_cons in Hin as [[= -> ->]|Hin].
    + rewrite decide_True; auto.
    + destruct (decide (k = k')) as [->|Hne].
      * exfalso. apply Hk. apply list_elem_of_fmap. exists (k', v). auto.
      * f_equal. auto.
Qed.

Lemma od_keys_set_NoDup k v d : NoDup (od_keys d) → NoDup (od_keys (od_set k v d)).
Proof.
  intros Hnd. destruct (od_get k d) as [v0|] eqn:Hg.
  - erewrite od_set_present; eauto.
  - rewrite od_set_absent by auto. unfold od_keys in *.
    rewrite fmap_app. simpl. apply NoDup_app. split; [auto|]. split.
    + intros x Hx Hx'. apply list_elem_of_singleton in Hx'. subst x.
      apply od_get_None in Hg. apply Hg. exact Hx.
    + apply NoDup_singleton.
Qed.

Lemma od_elem_of_get k v d : NoDup (od_keys d) → (k, v) ∈ d → od_get k d = Some v.
Proof.
  unfold od_keys. induction d as [|[k' v'] d IH]; simpl.
  - intros _ Hin. apply elem_of_nil in Hin. contradiction.
  - intros Hnd Hin. apply NoDup_cons in Hnd as [Hk Hnd].
    apply elem_of_cons in Hin as [[= -> ->]|Hin].
    + rewrite decide_True; auto.
    + destruct (decide (k = k')) as [->|Hne]; [|auto].
      exfalso. apply Hk. apply list_elem_of_fmap. exists (k', v). auto.
Qed.

Lemma elem_of_od_set k k' v v' d :
  (k', v') ∈ od_set k v d → (k' = k ∧ v' = v) ∨ (k', v') ∈ d.
Proof.
  induction d as [|[k0 v0] d IH]; simpl.
  - intros Hin. apply list_elem_of_singleton in Hin as [= -> ->]. auto.
  - destruct (decide (k = k0)) as [->|Hne]; intros Hin;
      apply elem_of_cons in Hin as [[= -> ->]|Hin]; auto.
    + right. right. exact Hin.
    + right. left.
    + destruct (IH Hin) as [?|?]; auto. right. right. auto.
Qed.

Lemma od_get_middle k v (before after : list (K * V)) :
  k ∉ before.*1 → od_get k (before ++ (k, v) :: after) = Some v.
Proof.
  induction before as [|[k0 v0] before IH]; simpl; intros Hk.
  - rewrite decide_True; auto.
  - apply not_elem_of_cons in Hk as [Hne Hk]. rewrite decide_False; auto.
Qed.

Lemma od_set_middle k v v0 (before after : list (K * V)) :
  k ∉ before.*1 →
  od_set k v (before ++ (k, v0) :: after) = before ++ (k, v) :: after.
Proof.
  induction before as [|[k0 v1] before IH]; simpl; intros Hk.
  - rewrite decide_True; auto.
  - apply not_elem_of_cons in Hk as [Hne Hk]. rewrite decide_False by auto.
    f_equal. auto.
Qed.

Lemma od_get_split k v d :
  od_get k d = Some v → ∃ before after, d = before ++ (k, v) :: after ∧ k ∉ before.*1.
Proof.
  induction d as [|[k0 v0] d IH]; simpl; [discriminate|].
  destruct (decide (k = k0)) as [->|Hne].
  - intros [= ->]. exists [], d. split; [reflexivity|apply not_elem_of_nil].
  - intros Hg. destruct (IH Hg) as (before & after & -> & Hk).
    exists ((k0, v0) :: before), after. split; [reflexivity|].
    simpl. apply not_elem_of_cons. auto.
Qed.
End ordered_dict_facts.

(** ** RecordMerger *)

Section merger_facts.

Lemma index_pub_atom pub_map p a :
  author_pub_id p = VAtom a →
  index_pub pub_map p = Ok (if atom_truthy a then od_set a p pub_map else pub_map).
Proof.
  intros Ha. unfold index_pub. rewrite Ha. simpl.
  destruct (atom_truthy a); reflexivity.
Qed.

Lemma merge_pub_atom pub_map q a :
  author_pub_id q = VAtom a →
  merge_pub pub_map q =
    Ok (if atom_truthy a
        then od_set a (match od_get a pub_map with
                       | Some existing => q ∪ existing
                       | None => q
                       end) pub_map
        else pub_map).
Proof.
  intros Ha. unfold merge_pub. rewrite Ha. simpl.
  destruct (atom_truthy a); simpl; [|reflexivity].
  destruct (od_get a pub_map); reflexivity.
Qed.

(** A publication without identity leaves [pub_map] alone. *)
Lemma merge_pub_no_id pub_map q :
  has_id q = false → merge_pub pub_map q = Ok pub_map.
Proof. unfold has_id, merge_pub. intros ->. reflexivity. Qed.

Lemma keyed_nil : keyed [].
Proof. intros k p Hin. apply elem_of_nil in Hin. contradiction. Qed.

Lemma keyed_set k p pub_map :
  author_pub_id p = VAtom k → atom_truthy k = true →
  keyed pub_map → keyed (od_set k p pub_map).
Proof.
  intros Hid Ht Hk k' p' Hin.
  apply elem_of_od_set in Hin as [[-> ->]|Hin]; auto.
Qed.

Lemma author_pub_id_union (q e : publication) a :
  author_pub_id q = VAtom a → atom_truthy a = true →
  author_pub_id (q ∪ e) = VAtom a.
Proof.
  unfold author_pub_id, get. intros Hq Ht.
  destruct (q !! "author_pub_id") as [v|] eqn:Hl; simpl in Hq.
  - subst v. erewrite lookup_union_Some_l; eauto.
  - injection Hq as <-. discriminate Ht.
Qed.

Lemma index_pub_keyed pub_map p pub_map' :
  keyed pub_map → index_pub pub_map p = Ok pub_map' → keyed pub_map'.
Proof.
  intros Hk. unfold index_pub.
  destruct (truthy (author_pub_id p)) eqn:Ht; [|intros [= <-]; exact Hk].
  destruct (author_pub_id p) as [a| |] eqn:Ha; simpl; try discriminate.
  intros [= <-]. apply keyed_set; auto.
Qed.

Lemma merge_pub_keyed pub_map q pub_map' :
  keyed pub_map → merge_pub pub_map q = Ok pub_map' → keyed pub_map'.
Proof.
  intros Hk. unfold merge_pub.
  destruct (truthy (author_pub_id q)) eqn:Ht; simpl; [|intros [= <-]; exact Hk].
  destruct (author_pub_id q) as [a| |] eqn:Ha; simpl; try discriminate.
  simpl in Ht. destruct (od_get a pub_map) as [e|]; intros [= <-];
    apply keyed_set; auto using author_pub_id_union.
Qed.

Lemma foldM_keyed (f : list (atom * publication) → publication → result _) l :
  (∀ m p m', keyed m → f m p = Ok m' → keyed m') →
  ∀ m m', keyed m → foldM f m l = Ok m' → keyed m'.
Proof.
  intros Hf. induction l as [|x l IH]; intros m m' Hk; simpl.
  - intros [= <-]. exact Hk.
  - intros Hm. inv_ok. eauto.
Qed.

(** Both loops run to completion when every id is hashable. *)
Lemma foldM_index_pub_total l : ∀ m,
  Forall hashable_id l → ∃ m', foldM index_pub m l = Ok m'.
Proof.
  induction l as [|x l IH]; intros m Hh; simpl; [eauto|].
  apply Forall_cons in Hh as [[a Ha] Hh].
  rewrite (index_pub_atom _ _ _ Ha). simpl. apply IH, Hh.
Qed.

Lemma foldM_merge_pub_total l : ∀ m,
  Forall hashable_id l → ∃ m', foldM merge_pub m l = Ok m'.
Proof.
  induction l as [|x l IH]; intros m Hh; simpl; [eauto|].
  apply Forall_cons in Hh as [[a Ha] Hh].
  rewrite (merge_pub_atom _ _ _ Ha). simpl. apply IH, Hh.
Qed.

Lemma merge_publications_total old_pubs new_pubs :
  Forall hashable_id old_pubs → Forall hashable_id new_pubs →
  ∃ merged, merge_publications old_pubs new_pubs = Ok merged.
Proof.
  intros Ho Hn. unfold merge_publications, build_pub_map.
  destruct (foldM_index_pub_total old_pubs [] Ho) as [m ->]. simpl.
  destruct (foldM_merge_pub_total new_pubs m Hn) as [m' ->]. simpl. eauto.
Qed.

(** Nothing without identity reaches the merged list. *)
Lemma merge_publications_has_id old_pubs new_pubs merged m :
  merge_publications old_pubs new_pubs = Ok merged → m ∈ merged → has_id m = true.
Proof.
  unfold merge_publications, build_pub_map. intros Hm Hin. inv_ok.
  assert (keyed r) as Hk1.
  { eapply (foldM_keyed index_pub); eauto using index_pub_keyed, keyed_nil. }
  assert (keyed r0) as Hk2.
  { eapply (foldM_keyed merge_pub); eauto using merge_pub_keyed. }
  unfold od_values in Hin. apply list_elem_of_fmap in Hin as ([k p] & -> & Hin).
  destruct (Hk2 _ _ Hin) as [Hid Ht]. unfold has_id. simpl. rewrite Hid. exact Ht.
Qed.

(** An id that is in [pub_map] stays there through both loops. *)
Lemma index_pub_keeps k pub_map p pub_map' :
  index_pub pub_map p = Ok pub_map' →
  is_Some (od_get k pub_map) → is_Some (od_get k pub_map').
Proof.
  unfold index_pub. destruct (truthy (author_pub_id p)); [|intros [= <-]; auto].
  destruct (author_pub_id p) as [a| |]; simpl; try discriminate.
  intros [= <-] Hs. rewrite od_get_set. destruct (decide (a = k)); eauto.
Qed.

Lemma merge_pub_keeps k pub_map q pub_map' :
  merge_pub pub_map q = Ok pub_map' →
  is_Some (od_get k pub_map) → is_Some (od_get k pub_map').
Proof.
  unfold merge_pub. destruct (truthy (author_pub_id q)); simpl; [|intros [= <-]; auto].
  destruct (author_pub_id q) as [a| |]; simpl; try discriminate.
  destruct (od_get a pub_map); intros [= <-] Hs; rewrite od_get_set;
    destruct (decide (a = k)); eauto.
Qed.

Lemma foldM_keeps (f : list (atom * publication) → publication → result _) k l :
  (∀ m p m', f m p = Ok m' → is_Some (od_get k m) → is_Some (od_get k m')) →
  ∀ m m', foldM f m l = Ok m' → is_Some (od_get k m) → is_Some (od_get k m').
Proof.
  intros Hf. induction l as [|x l IH]; intros m m'; simpl.
  - intros [= <-]. auto.
  - intros Hm Hs. inv_ok. eauto.
Qed.

Lemma foldM_index_pub_adds k p l : ∀ m m',
  foldM index_pub m l = Ok m' → p ∈ l →
  author_pub_id p = VAtom k → atom_truthy k = true →
  is_Some (od_get k m').
Proof.
  induction l as [|x l IH]; intros m m' Hm Hin Hid Ht; simpl in Hm.
  - apply elem_of_nil in Hin. contradiction.
  - inv_ok. apply elem_of_cons in Hin as [<-|Hin]; [|eauto].
    eapply (foldM_keeps index_pub); eauto using index_pub_keeps.
    rewrite (index_pub_atom _ _ _ Hid), Ht in Hr. injection Hr as <-.
    rewrite od_get_set_eq. eauto.
Qed.
End merger_facts.

Section merger_claims.

Lemma overlaid_union (incoming prior : publication) :
  overlaid incoming prior (incoming ∪ prior).
Proof.
  intros field. rewrite lookup_union.
  destruct (incoming !! field), (prior !! field); reflexivity.
Qed.

Lemma union_absorb (q e : publication) : q ∪ (q ∪ e) = q ∪ e.
Proof. rewrite (assoc_L (∪)). rewrite (idemp_L (∪)). reflexivity. Qed.

(** The entry of [pub_map] for an id that exactly one old publication
    carries is that publication. *)
Lemma foldM_index_pub_unique k prior l : ∀ m m',
  foldM index_pub m l = Ok m' →
  author_pub_id prior = VAtom k → atom_truthy k = true →
  (∀ p, p ∈ l → author_pub_id p = VAtom k → p = prior) →
  (prior ∈ l ∨ od_get k m = Some prior) →
  od_get k m' = Some prior.
Proof.
  induction l as [|x l IH]; intros m m' Hm Hid Ht Huniq Hin; simpl in Hm.
  - injection Hm as <-. destruct Hin as [Hin|?]; [|auto].
    apply elem_of_nil in Hin. contradiction.
  - inv_ok. eapply IH; eauto.
    { intros p Hp. apply Huniq. right. exact Hp. }
    unfold index_pub in Hr.
    destruct (decide (author_pub_id x = VAtom k)) as [Hx|Hx].
    + assert (x = prior) as -> by (apply Huniq; [left|auto]).
      rewrite Hid in Hr. simpl in Hr. rewrite Ht in Hr. simpl in Hr.
      injection Hr as <-. right. apply od_get_set_eq.
    + destruct Hin as [Hin|Hg].
      * apply elem_of_cons in Hin as [->|Hin]; [contradiction|auto].
      * right. destruct (truthy (author_pub_id x)); [|injection Hr as <-; exact Hg].
        destruct (author_pub_id x) as [a| |]; simpl in Hr; try discriminate.
        injection Hr as <-. rewrite od_get_set_ne; [exact Hg|congruence].
Qed.

(** Once the only incoming publication with id [k] has been merged, the
    entry for [k] is that publication laid over the prior one. *)
Lemma foldM_merge_pub_unique k pub prior l : ∀ m m',
  foldM merge_pub m l = Ok m' →
  author_pub_id pub = VAtom k → atom_truthy k = true →
  (∀ q, q ∈ l → author_pub_id q = VAtom k → q = pub) →
  (od_get k m = Some prior ∧ pub ∈ l) ∨ od_get k m = Some (pub ∪ prior) →
  od_get k m' = Some (pub ∪ prior).
Proof.
  induction l as [|x l IH]; intros m m' Hm Hid Ht Huniq Hin; simpl in Hm.
  - injection Hm as <-. destruct Hin as [[_ Hin]|?]; [|auto].
    apply elem_of_nil in Hin. contradiction.
  - inv_ok. eapply IH; eauto.
    { intros q Hq. apply Huniq. right. exact Hq. }
    unfold merge_pub in Hr.
    destruct (decide (author_pub_id x = VAtom k)) as [Hx|Hx].
    + assert (x = pub) as -> by (apply Huniq; [left|auto]).
      rewrite Hid in Hr. simpl in Hr. rewrite Ht in Hr. simpl in Hr.
      right. destruct Hin as [[Hg _]|Hg]; rewrite Hg in Hr;
        injection Hr as <-; rewrite od_get_set_eq; [reflexivity|].
      f_equal. apply union_absorb.
    + assert (od_get k r = od_get k m) as Hsame.
      { destruct (truthy (author_pub_id x)); simpl in Hr;
          [|injection Hr as <-; reflexivity].
        destruct (author_pub_id x) as [a| |]; simpl in Hr; try discriminate.
        destruct (od_get a m); injection Hr as <-;
          rewrite od_get_set_ne; congruence. }
      rewrite Hsame. destruct Hin as [[Hg Hin]|Hg]; [left|right; exact Hg].
      split; [exact Hg|]. apply elem_of_cons in Hin as [->|Hin]; [contradiction|auto].
Qed.

Lemma scholar_id_not_empty scraped sid :
  scholar_id scraped = VAtom sid → atom_truthy sid = true →
  author_is_empty scraped = false.
Proof.
  unfold scholar_id, get, author_is_empty. intros Hs Ht.
  destruct (a_fields scraped !! "scholar_id") as [v|] eqn:Hl; simpl in Hs.
  - apply andb_false_intro1. apply bool_decide_eq_false. intros He.
    rewrite He in Hl. rewrite lookup_empty in Hl. discriminate.
  - injection Hs as <-. discriminate.
Qed.

(** The branch of [merge_author] taken for an author already known. *)
Lemma merge_author_known author_map scraped sid old :
  scholar_id scraped = VAtom sid → atom_truthy sid = true →
  od_get sid author_map = Some old →
  merge_author author_map scraped =
    merged ← merge_publications (publications old) (publications scraped);
    Ok (od_set sid (set_publications scraped merged) author_map).
Proof.
  intros Hs Ht Hg. unfold merge_author.
  rewrite (scholar_id_not_empty _ _ Hs Ht), Hs. simpl. rewrite Ht. simpl.
  rewrite Hg. reflexivity.
Qed.

(** The branch of [merge_author] taken for a new author. *)
Lemma merge_author_new author_map scraped sid :
  scholar_id scraped = VAtom sid → atom_truthy sid = true →
  od_get sid author_map = None →
  merge_author author_map scraped =
    Ok (od_set sid (set_publications scraped (publications scraped)) author_map).
Proof.
  intros Hs Ht Hg. unfold merge_author.
  rewrite (scholar_id_not_empty _ _ Hs Ht), Hs. simpl. rewrite Ht. simpl.
  rewrite Hg. reflexivity.
Qed.

(** C1 (as amended).  When an incoming publication carries the id of a
    prior publication of the same author, the merged record holds one
    publication in which every field present on the incoming side has the
    incoming value (an empty one included) and every other field has the
    prior value: a field missing on the incoming side erases nothing. *)
Theorem merged_publication_overlays_prior
    (author_map : list (atom * author)) (scraped old : author) (sid : atom)
    (pub prior : publication) :
  scholar_id scraped = VAtom sid →
  atom_truthy sid = true →
  od_get sid author_map = Some old →
  Forall hashable_id (publications old) →
  Forall hashable_id (publications scraped) →
  pub ∈ publications scraped →
  prior ∈ publications old →
  has_id pub = true →
  author_pub_id prior = author_pub_id pub →
  (∀ q, q ∈ publications scraped → author_pub_id q = author_pub_id pub → q = pub) →
  (∀ p, p ∈ publications old → author_pub_id p = author_pub_id pub → p = prior) →
  ∃ author_map' merged_author merged,
    merge_author author_map scraped = Ok author_map' ∧
    od_get sid author_map' = Some merged_author ∧
    merged ∈ publications merged_author ∧
    overlaid pub prior merged.
Proof.
  intros Hs Ht Hg Hho Hhn Hpub Hprior Hid Hsame Hun Huo.
  rewrite (merge_author_known _ _ _ _ Hs Ht Hg).
  destruct (merge_publications_total _ _ Hho Hhn) as [merged_list Hm].
  rewrite Hm. simpl.
  exists (od_set sid (set_publications scraped merged_list) author_map),
    (set_publications scraped merged_list), (pub ∪ prior).
  split; [reflexivity|]. split; [apply od_get_set_eq|].
  split; [|apply overlaid_union].
  unfold merge_publications, build_pub_map in Hm. inv_ok. simpl.
  apply Forall_forall with (x := pub) in Hhn as [k Hk]; [|exact Hpub].
  unfold has_id in Hid. rewrite Hk in Hid. simpl in Hid.
  rewrite Hk in Hsame, Hun, Huo.
  apply (od_get_value k).
  eapply foldM_merge_pub_unique; eauto.
  left. split; [|exact Hpub].
  eapply foldM_index_pub_unique; eauto.
Qed.

(** C2 (as amended).  Merging an incoming record into an author already
    in the dataset keeps every prior publication that carries an
    [author_pub_id]: the merged list holds a publication with that id.
    Nothing without an id is in the merged list, so a prior publication
    that lacks one is not carried over. *)
Theorem merge_keeps_identified_publications
    (author_map : list (atom * author)) (scraped old : author) (sid : atom) :
  scholar_id scraped = VAtom sid →
  atom_truthy sid = true →
  od_get sid author_map = Some old →
  Forall hashable_id (publications old) →
  Forall hashable_id (publications scraped) →
  ∃ author_map' merged_author,
    merge_author author_map scraped = Ok author_map' ∧
    od_get sid author_map' = Some merged_author ∧
    (∀ p, p ∈ publications old → has_id p = true →
       ∃ m, m ∈ publications merged_author ∧ author_pub_id m = author_pub_id p) ∧
    (∀ m, m ∈ publications merged_author → has_id m = true).
Proof.
  intros Hs Ht Hg Hho Hhn.
  rewrite (merge_author_known _ _ _ _ Hs Ht Hg).
  destruct (merge_publications_total _ _ Hho Hhn) as [merged_list Hm].
  rewrite Hm. simpl.
  exists (od_set sid (set_publications scraped merged_list) author_map),
    (set_publications scraped merged_list).
  split; [reflexivity|]. split; [apply od_get_set_eq|]. simpl. split.
  - intros p Hp Hid.
    pose proof Hm as Hm'. unfold merge_publications, build_pub_map in Hm'. inv_ok.
    apply Forall_forall with (x := p) in Hho as [k Hk]; [|exact Hp].
    unfold has_id in Hid. rewrite Hk in Hid. simpl in Hid.
    assert (is_Some (od_get k r0)) as [m Hgm].
    { eapply (foldM_keeps merge_pub); eauto using merge_pub_keeps.
      eapply foldM_index_pub_adds; eauto. }
    exists m. split; [eapply od_get_value; eauto|].
    assert (keyed r0) as Hkeyed.
    { eapply (foldM_keyed merge_pub); eauto using merge_pub_keyed.
      eapply (foldM_keyed index_pub); eauto using index_pub_keyed, keyed_nil. }
    apply od_get_elem_of in Hgm. destruct (Hkeyed _ _ Hgm) as [-> _]. auto.
  - intros m Hin. eapply merge_publications_has_id; eauto.
Qed.

Lemma foldM_merge_pub_skip pre pub post pub_map :
  has_id pub = false →
  foldM merge_pub pub_map (pre ++ pub :: post) = foldM merge_pub pub_map (pre ++ post).
Proof.
  intros Hid. rewrite !foldM_app. destruct (foldM merge_pub pub_map pre); simpl; auto.
  rewrite merge_pub_no_id by exact Hid. reflexivity.
Qed.

(** C3 (as amended).  When an incoming record is merged into an author
    already in the dataset, an incoming publication whose
    [author_pub_id] is empty or absent is skipped: the outcome is the one
    obtained without it, so it is matched to no prior entry, and it is
    not in the merged list. *)
Theorem incoming_publication_without_id_is_skipped
    (author_map : list (atom * author)) (scraped old : author) (sid : atom)
    (pre post : list publication) (pub : publication) :
  scholar_id scraped = VAtom sid →
  atom_truthy sid = true →
  od_get sid author_map = Some old →
  publications scraped = pre ++ pub :: post →
  has_id pub = false →
  merge_author author_map scraped =
    merge_author author_map (set_publications scraped (pre ++ post)) ∧
  ∀ author_map' merged_author,
    merge_author author_map scraped = Ok author_map' →
    od_get sid author_map' = Some merged_author →
    pub ∉ publications merged_author.
Proof.
  intros Hs Ht Hg Hpubs Hid.
  assert (scholar_id (set_publications scraped (pre ++ post)) = VAtom sid) as Hs'
    by exact Hs.
  rewrite (merge_author_known _ _ _ _ Hs Ht Hg).
  rewrite (merge_author_known _ _ _ _ Hs' Ht Hg).
  rewrite Hpubs. simpl. unfold merge_publications. split.
  - destruct (build_pub_map (publications old)) as [pm|e]; simpl; [|reflexivity].
    rewrite foldM_merge_pub_skip by exact Hid. reflexivity.
  - intros author_map' merged_author Hm Hget Hin.
    apply bind_ok in Hm as (merged & Hm & Hok). injection Hok as <-.
    rewrite od_get_set_eq in Hget. injection Hget as <-. simpl in Hin.
    assert (has_id pub = true) as Hid'.
    { eapply (merge_publications_has_id (publications old) (pre ++ pub :: post)); eauto. }
    congruence.
Qed.

End merger_claims.

(** ** IdentityNormalizer *)

Lemma forallb_reverse (f : N → bool) t :
  forallb f (reverse t) = forallb f t.
Proof.
  induction t as [|c t IH]; [reflexivity|].
  rewrite reverse_cons, forallb_app. simpl. rewrite IH.
  destruct (f c), (forallb f t); reflexivity.
Qed.

Lemma forallb_fmap (f : N → bool) (g : N → N) t :
  (∀ c, f c = true → f (g c) = true) →
  forallb f t = true → forallb f (g <$> t) = true.
Proof.
  intros Hg. induction t as [|c t IH]; [reflexivity|].
  intros Hall. simpl in Hall. apply andb_true_iff in Hall as [Hc Ht].
  rewrite fmap_cons. simpl. rewrite (Hg c Hc). auto.
Qed.

(** On ASCII text the ASCII runtime yields ASCII text. *)
Section ascii_closed.
Local Existing Instance ascii_runtime.

Lemma strip_combining_id t : strip_combining t = t.
Proof.
  unfold strip_combining. induction t as [|c t IH]; [reflexivity|].
  simpl. f_equal. exact IH.
Qed.

Lemma sub_punctuation_closed t :
  forallb is_ascii t = true → forallb is_ascii (sub_punctuation t) = true.
Proof.
  apply forallb_fmap. intros c Hc.
  destruct (is_word c || is_space c); [exact Hc|reflexivity].
Qed.

Lemma collapse_whitespace_closed t : ∀ in_run,
  forallb is_ascii t = true →
  forallb is_ascii (collapse_whitespace in_run t) = true.
Proof.
  induction t as [|c t IH]; intros in_run; [reflexivity|].
  intros Hall. simpl in Hall. apply andb_true_iff in Hall as [Hc Ht].
  simpl. rewrite Hc. destruct (ascii_space c), in_run; simpl;
    rewrite ?Hc; simpl; auto.
Qed.

Lemma lstrip_closed t :
  forallb is_ascii t = true → forallb is_ascii (lstrip t) = true.
Proof.
  induction t as [|c t IH]; [reflexivity|].
  intros Hall. simpl in Hall. apply andb_true_iff in Hall as [Hc Ht].
  simpl. rewrite Hc. destruct (ascii_space c); [auto|].
  simpl. rewrite Hc. exact Ht.
Qed.

Lemma strip_closed t :
  forallb is_ascii t = true → forallb is_ascii (strip t) = true.
Proof.
  intros Ht. unfold strip.
  rewrite forallb_reverse. apply lstrip_closed.
  rewrite forallb_reverse. apply lstrip_closed, Ht.
Qed.
End ascii_closed.

Section normalizer_facts.
Context `{Runtime}.

Lemma nfkd_nil : nfkd [] = [].
Proof. apply nfkd_ascii. reflexivity. Qed.

Lemma lower_nil : lower [] = [].
Proof. rewrite lower_ascii; reflexivity. Qed.

Lemma normalize_nil : normalize [] = [].
Proof. unfold normalize. rewrite nfkd_nil. simpl. apply lower_nil. Qed.

(** On a string the code computes what the specification describes. *)
Lemma normalize_title_for_dedupe_str (s : ustr) :
  _normalize_title_for_dedupe (VAtom (AStr s)) = Ok (normalize s).
Proof.
  unfold _normalize_title_for_dedupe. destruct s as [|c s]; simpl.
  - rewrite normalize_nil. reflexivity.
  - reflexivity.
Qed.

(** On ASCII text every runtime computes what [ascii_runtime] does. *)
Lemma strip_combining_ascii t :
  forallb is_ascii t = true → strip_combining t = t.
Proof.
  unfold strip_combining. induction t as [|c t IH]; simpl; [reflexivity|].
  intros [Hc Ht]%andb_true_iff. rewrite (combining_ascii c Hc). simpl.
  f_equal. auto.
Qed.

Lemma sub_punctuation_agree t :
  forallb is_ascii t = true →
  sub_punctuation t = sub_punctuation (H := ascii_runtime) t.
Proof.
  unfold sub_punctuation. induction t as [|c t IH]; [reflexivity|].
  intros Hall. simpl in Hall. apply andb_true_iff in Hall as [Hc Ht].
  rewrite !fmap_cons, (IH Ht), (is_word_ascii c Hc), (is_space_ascii c Hc).
  simpl. rewrite Hc. reflexivity.
Qed.

Lemma collapse_whitespace_agree t : ∀ in_run,
  forallb is_ascii t = true →
  collapse_whitespace in_run t = collapse_whitespace (H := ascii_runtime) in_run t.
Proof.
  induction t as [|c t IH]; intros in_run; [reflexivity|].
  intros Hall. simpl in Hall. apply andb_true_iff in Hall as [Hc Ht]. simpl.
  rewrite (is_space_ascii c Hc), Hc, !(IH _ Ht). reflexivity.
Qed.

Lemma lstrip_agree t :
  forallb is_ascii t = true → lstrip t = lstrip (H := ascii_runtime) t.
Proof.
  induction t as [|c t IH]; [reflexivity|].
  intros Hall. simpl in Hall. apply andb_true_iff in Hall as [Hc Ht]. simpl.
  rewrite (is_space_ascii c Hc), Hc, (IH Ht). reflexivity.
Qed.

Lemma strip_agree t :
  forallb is_ascii t = true → strip t = strip (H := ascii_runtime) t.
Proof.
  intros Ht. unfold strip. rewrite (lstrip_agree t Ht).
  rewrite lstrip_agree; [reflexivity|].
  rewrite forallb_reverse. apply lstrip_closed, Ht.
Qed.

Lemma normalize_ascii s :
  forallb is_ascii s = true → normalize s = normalize (H := ascii_runtime) s.
Proof.
  intros Hs. unfold normalize. rewrite (nfkd_ascii s Hs).
  rewrite (strip_combining_ascii s Hs).
  change (nfkd (Runtime := ascii_runtime) s) with s.
  rewrite strip_combining_id.
  rewrite (sub_punctuation_agree s Hs).
  pose proof (sub_punctuation_closed s Hs) as A1.
  rewrite (collapse_whitespace_agree _ false A1).
  pose proof (collapse_whitespace_closed _ false A1) as A2.
  rewrite (strip_agree _ A2).
  apply lower_ascii. apply strip_closed, A2.
Qed.

(** The key the code computes for a publication whose [title] is a
    string and whose [author_pub_id] is a string or absent. *)
Lemma dedupe_key_typed (p : publication) (title : ustr) :
  extract_title p = Ok (VAtom (AStr title)) →
  dedupe_key p =
    Ok (match normalize title with
        | [] => U "__id__:" ++ (if has_id p then py_str (author_pub_id p) else [])
        | key => key
        end).
Proof.
  intros Ht. unfold dedupe_key. rewrite Ht. simpl.
  rewrite normalize_title_for_dedupe_str. simpl.
  destruct (normalize title); [|reflexivity].
  unfold has_id. destruct (truthy (author_pub_id p)); reflexivity.
Qed.

End normalizer_facts.

(** ** Deduplicator *)

Section first_seen_facts.
Implicit Types (seen : gset ustr) (l : list (ustr * publication)).

Lemma first_seen_app seen l1 l2 :
  first_seen seen (l1 ++ l2) =
    first_seen seen l1 ++ first_seen (list_to_set l1.*1 ∪ seen) l2.
Proof.
  revert seen. induction l1 as [|[k p] l1 IH]; intros seen; simpl.
  - f_equal. set_solver.
  - destruct (decide (k ∈ seen)) as [Hin|Hout].
    + rewrite IH. do 2 f_equal. set_solver.
    + simpl. rewrite IH. do 3 f_equal. set_solver.
Qed.

Lemma first_seen_keys seen l key :
  key ∈ (first_seen seen l).*1 ↔ key ∈ l.*1 ∧ key ∉ seen.
Proof.
  revert seen. induction l as [|[k p] l IH]; intros seen; simpl.
  - set_solver.
  - destruct (decide (k ∈ seen)) as [Hin|Hout]; simpl.
    + rewrite IH. set_solver.
    + rewrite elem_of_cons, IH. rewrite elem_of_cons.
      destruct (decide (key = k)) as [->|Hne]; set_solver.
Qed.

Lemma first_seen_NoDup seen l : NoDup (first_seen seen l).*1.
Proof.
  revert seen. induction l as [|[k p] l IH]; intros seen; simpl.
  - constructor.
  - destruct (decide (k ∈ seen)) as [Hin|Hout]; simpl; [apply IH|].
    constructor; [|apply IH]. rewrite first_seen_keys. set_solver.
Qed.

Lemma first_seen_sublist seen l : first_seen seen l `sublist_of` l.
Proof.
  revert seen. induction l as [|[k p] l IH]; intros seen; simpl.
  - constructor.
  - destruct (decide (k ∈ seen)); [apply sublist_cons | apply sublist_skip]; apply IH.
Qed.

(** A list without repeated keys, none of them seen, goes through whole. *)
Lemma first_seen_fixed seen l :
  NoDup l.*1 → (∀ key, key ∈ l.*1 → key ∉ seen) → first_seen seen l = l.
Proof.
  revert seen. induction l as [|[k p] l IH]; intros seen Hnd Hout; simpl; [reflexivity|].
  simpl in Hnd. apply NoDup_cons in Hnd as [Hk Hnd].
  rewrite decide_False by (apply Hout; simpl; left).
  f_equal. apply IH; [exact Hnd|].
  intros key Hkey. simpl in Hout. specialize (Hout key).
  assert (key ≠ k) by (intros ->; contradiction). set_solver.
Qed.

(** A list all of whose keys have been seen is dropped whole. *)
Lemma first_seen_dropped seen l :
  (∀ key, key ∈ l.*1 → key ∈ seen) → first_seen seen l = [].
Proof.
  induction l as [|[k p] l IH]; intros Hin; simpl; [reflexivity|].
  rewrite decide_True by (apply Hin; simpl; left).
  apply IH. intros key Hkey. apply Hin. simpl. right. exact Hkey.
Qed.

(** The fate of one publication: it is kept exactly when its key was
    neither seen before the pass nor carried by an earlier publication. *)
Lemma first_seen_split seen before key p after :
  first_seen seen (before ++ (key, p) :: after) =
    first_seen seen before
    ++ (if decide (key ∈ seen ∨ key ∈ before.*1) then [] else [(key, p)])
    ++ first_seen ({[key]} ∪ (list_to_set before.*1 ∪ seen)) after.
Proof.
  rewrite first_seen_app. f_equal. simpl.
  destruct (decide (key ∈ list_to_set before.*1 ∪ seen)) as [Hin|Hout].
  - rewrite decide_True by set_solver. simpl. f_equal. set_solver.
  - rewrite decide_False by set_solver. reflexivity.
Qed.

End first_seen_facts.

Section deduplicator_facts.
Context `{Runtime}.

Lemma keys_of_length pubs keys : keys_of pubs keys → length pubs = length keys.
Proof. apply Forall2_length. Qed.

Lemma keys_of_app pubs1 pubs2 keys1 keys2 :
  keys_of pubs1 keys1 → keys_of pubs2 keys2 →
  keys_of (pubs1 ++ pubs2) (keys1 ++ keys2).
Proof. apply Forall2_app. Qed.

(** The pass over one list of publications is [first_seen]. *)
Lemma dedupe_pubs_first_seen seen pubs keys :
  keys_of pubs keys →
  dedupe_pubs seen pubs =
    Ok (list_to_set keys ∪ seen, (first_seen seen (zip keys pubs)).*2).
Proof.
  intros Hk. revert seen. induction Hk as [|p key pubs keys Hp Hk IH]; intros seen; simpl.
  - f_equal. f_equal. set_solver.
  - rewrite Hp. simpl. destruct (decide (key ∈ seen)) as [Hin|Hout].
    + rewrite IH. do 2 f_equal. set_solver.
    + rewrite IH. simpl. do 2 f_equal. set_solver.
Qed.

(** The pass returns exactly when every key can be computed. *)
Lemma dedupe_pubs_ok seen pubs r :
  dedupe_pubs seen pubs = Ok r → ∃ keys, keys_of pubs keys.
Proof.
  revert seen r. induction pubs as [|p pubs IH]; intros seen r; simpl.
  - intros _. exists []. constructor.
  - intros Hd. apply bind_ok in Hd as (key & Hkey & Hd).
    destruct (decide (key ∈ seen)).
    + destruct (IH _ _ Hd) as [keys Hk]. exists (key :: keys). constructor; auto.
    + apply bind_ok in Hd as (r' & Hd & _).
      destruct (IH _ _ Hd) as [keys Hk]. exists (key :: keys). constructor; auto.
Qed.

Lemma keys_of_zip_fst pubs keys : keys_of pubs keys → (zip keys pubs).*1 = keys.
Proof. intros Hk. apply fst_zip. rewrite (keys_of_length _ _ Hk). lia. Qed.

Lemma keys_of_zip_snd pubs keys : keys_of pubs keys → (zip keys pubs).*2 = pubs.
Proof. intros Hk. apply snd_zip. rewrite (keys_of_length _ _ Hk). lia. Qed.

(** Each survivor is paired with its own key. *)
Lemma keys_of_first_seen seen pubs keys :
  keys_of pubs keys →
  keys_of (first_seen seen (zip keys pubs)).*2 (first_seen seen (zip keys pubs)).*1.
Proof.
  intros Hk. revert seen. induction Hk as [|p key pubs keys Hp Hk IH]; intros seen; simpl.
  - constructor.
  - destruct (decide (key ∈ seen)); simpl; [apply IH|].
    constructor; [exact Hp | apply IH].
Qed.
End deduplicator_facts.

Section deduplicator_claims.
Context `{Runtime}.

(** Across all authors of one pass the survivors have distinct keys,
    none of which had been seen before the pass. *)
Lemma dedupe_authors_keys author_map : ∀ seen r,
  dedupe_authors seen author_map = Ok r →
  ∃ keys, keys_of (all_publications (od_values r.2)) keys ∧ NoDup keys ∧
          (∀ key, key ∈ keys → key ∉ seen) ∧ seen ⊆ r.1.
Proof.
  induction author_map as [|[k a] rest IH]; intros seen r; simpl.
  - intros [= <-]. exists []. simpl. repeat split; [constructor|constructor|set_solver|set_solver].
  - intros Hd. apply bind_ok in Hd as (rp & Hrp & Hd).
    apply bind_ok in Hd as (rr & Hrr & Hd). injection Hd as <-. simpl.
    destruct (dedupe_pubs_ok _ _ _ Hrp) as [keys_a Hka].
    rewrite (dedupe_pubs_first_seen _ _ _ Hka) in Hrp. injection Hrp as <-.
    simpl in Hrr. destruct (IH _ _ Hrr) as (keys & Hk & Hnd & Hout & Hsub).
    exists ((first_seen seen (zip keys_a (publications a))).*1 ++ keys).
    unfold od_values in *. simpl.
    split; [|split; [|split]].
    + apply keys_of_app; [apply keys_of_first_seen, Hka | exact Hk].
    + apply NoDup_app. split; [apply first_seen_NoDup|]. split; [|exact Hnd].
      intros key Hin Hin'. apply Hout in Hin'. apply first_seen_keys in Hin as [Hin _].
      rewrite (keys_of_zip_fst _ _ Hka) in Hin. set_solver.
    + intros key [Hin|Hin]%elem_of_app.
      * apply first_seen_keys in Hin. tauto.
      * apply Hout in Hin. set_solver.
    + set_solver.
Qed.

Lemma at_most_one_with_key (f : publication → bool) (c : ustr) pubs keys :
  keys_of pubs keys → NoDup keys →
  (∀ p, f p = true → dedupe_key p = Ok c) →
  (length (List.filter f pubs) ≤ 1)%nat.
Proof.
  intros Hk Hnd Hf. induction Hk as [|p key pubs keys Hp Hk IH]; simpl; [lia|].
  apply NoDup_cons in Hnd as [Hnotin Hnd].
  destruct (f p) eqn:Hfp; [|auto]. simpl.
  assert (List.filter f pubs = []) as ->; [|simpl; lia].
  apply Hf in Hfp. assert (key = c) as -> by congruence.
  clear IH Hp Hnd. induction Hk as [|p' key' pubs keys Hp' Hk IH]; simpl; [reflexivity|].
  apply not_elem_of_cons in Hnotin as [Hne Hnotin].
  destruct (f p') eqn:Hfp'; [|auto].
  apply Hf in Hfp'. congruence.
Qed.

(** A publication without title and without id gets the bare fallback key. *)
Lemma title_less_id_less_key p :
  title_less_id_less p = true → dedupe_key p = Ok (U "__id__:").
Proof.
  unfold title_less_id_less, dedupe_key, has_id.
  destruct (extract_title p) as [title|e]; simpl; [|discriminate].
  destruct (_normalize_title_for_dedupe title) as [[|c n]|e]; simpl; try discriminate.
  destruct (truthy (author_pub_id p)); [discriminate|reflexivity].
Qed.

(** C10.  Every publication whose title normalizes to the empty string
    and whose [author_pub_id] is empty or absent has the one key
    ["__id__:"], and [seen_titles] is shared by all authors of a pass:
    the dataset that [merge_and_save_results] writes holds at most one
    such publication, whichever authors the others belonged to. *)
Theorem at_most_one_title_less_id_less_survives
    (now : ustr) (existing partial_authors merged : list author) :
  merge_results now existing partial_authors = Ok merged →
  (∀ p, title_less_id_less p = true → dedupe_key p = Ok (U "__id__:")) ∧
  (length (List.filter title_less_id_less (all_publications merged)) ≤ 1)%nat.
Proof.
  intros Hm. split; [exact title_less_id_less_key|].
  unfold merge_results in Hm.
  apply bind_ok in Hm as (am0 & _ & Hm). apply bind_ok in Hm as (am1 & _ & Hm).
  apply bind_ok in Hm as (rd & Hd & Hm). injection Hm as <-.
  destruct (dedupe_authors_keys _ _ _ Hd) as (keys & Hk & Hnd & _).
  eapply at_most_one_with_key; eauto using title_less_id_less_key.
Qed.

End deduplicator_claims.

(** ** FreshnessScheduler *)

Section freshness_claims.
Context `{Runtime}.

Lemma scraped_at_fun pub t t' : scraped_at pub t → scraped_at pub t' → t = t'.
Proof. intros (s & Hs & _ & Hp) (s' & Hs' & _ & Hp'). congruence. Qed.

(** What the [try] block computes, in terms of [scraped_at]. *)
Lemma age_scraped_at now pub :
  truthy (get pub "last_scraped") = true →
  match age now (get pub "last_scraped") with
  | Some d => ∃ t, scraped_at pub t ∧ d = now - t
  | None => ∀ t, ¬ scraped_at pub t
  end.
Proof.
  intros Ht. unfold age.
  destruct (get pub "last_scraped") as [[|z|s]|l|d] eqn:Hg;
    try (intros t (s' & Hs' & _); congruence).
  assert (s ≠ []) as Hne by (destruct s; [discriminate|congruence]).
  destruct (fromisoformat (replace (U "Z") (U "+00:00") s)) as [[t|t]|] eqn:Hp.
  - exists t. split; [exists s; auto|reflexivity].
  - intros t' (s' & Hs' & _ & Hp'). congruence.
  - intros t' (s' & Hs' & _ & Hp'). congruence.
Qed.

Lemma falsy_not_scraped_at pub :
  truthy (get pub "last_scraped") = false → ∀ t, ¬ scraped_at pub t.
Proof.
  intros Hf t (s & Hs & Hne & _). rewrite Hs in Hf. destruct s; [congruence|discriminate].
Qed.

Lemma scan_publications_spec now threshold_days sid pubs :
  (Exists (needs_refresh now threshold_days) pubs ∧
   scan_publications now (threshold_days * micros_per_day) sid pubs = sid)
  ∨ (Forall (λ pub, ¬ needs_refresh now threshold_days pub) pubs ∧
     scan_publications now (threshold_days * micros_per_day) sid pubs = VAtom ANone).
Proof.
  induction pubs as [|pub pubs IH]; simpl.
  - right. split; [constructor|reflexivity].
  - destruct (truthy (get pub "last_scraped")) eqn:Ht; simpl.
    + pose proof (age_scraped_at now pub Ht) as Hage.
      destruct (age now (get pub "last_scraped")) as [d|].
      * destruct Hage as (t & Hs & ->).
        destruct (Z.gtb_spec (now - t) (threshold_days * micros_per_day)) as [Hgt|Hle].
        -- left. split; [|reflexivity]. left. right. exists t. split; [exact Hs|lia].
        -- destruct IH as [[Hex Hscan]|[Hall Hscan]].
           ++ left. split; [right; exact Hex|exact Hscan].
           ++ right. split; [|exact Hscan]. constructor; [|exact Hall].
              intros [Hno|(t' & Hs' & Hgt)]; [exact (Hno t Hs)|].
              rewrite (scraped_at_fun _ _ _ Hs' Hs) in Hgt. lia.
      * left. split; [|reflexivity]. left. left. exact Hage.
    + left. split; [|reflexivity]. left. left. apply falsy_not_scraped_at, Ht.
Qed.

(** C7.  An author with a [scholar_id] is selected (the function
    returns that id) exactly when the author has no publication or some
    publication needs a refresh: its [last_scraped] is absent, cannot be
    read, or lies more than [threshold_days] before the current UTC
    time.  Otherwise [None] is returned.  An author whose publications
    were all scraped ten days ago is selected with a threshold of 7
    days and, having publications, not selected with 14. *)
Theorem check_author_needs_scraping_selects (now : Z) (a : author) (threshold_days : Z) :
  truthy (scholar_id a) = true →
  Z.abs threshold_days ≤ 999999999 →
  (check_author_needs_scraping now a threshold_days = Ok (scholar_id a) ↔
     publications a = [] ∨ Exists (needs_refresh now threshold_days) (publications a))
  ∧ (check_author_needs_scraping now a threshold_days = Ok (VAtom ANone) ↔
       publications a ≠ [] ∧
       Forall (λ pub, ¬ needs_refresh now threshold_days pub) (publications a))
  ∧ (Forall (λ pub, scraped_at pub (now - 10 * micros_per_day)) (publications a) →
       check_author_needs_scraping now a 7 = Ok (scholar_id a) ∧
       (publications a ≠ [] →
          check_author_needs_scraping now a 14 = Ok (VAtom ANone))).
Proof.
  intros Hsid Hrange.
  assert (scholar_id a ≠ VAtom ANone) as Hnone
    by (intros Heq; rewrite Heq in Hsid; discriminate).
  assert (∀ days, Z.abs days ≤ 999999999 →
            check_author_needs_scraping now a days =
              Ok (match publications a with
                  | [] => scholar_id a
                  | _ => scan_publications now (days * micros_per_day)
                           (scholar_id a) (publications a)
                  end)) as Hcheck.
  { intros days Hd. unfold check_author_needs_scraping, timedelta_days.
    rewrite Hsid. simpl. rewrite (proj2 (Z.leb_le _ _) Hd). simpl.
    destruct (publications a); reflexivity. }
  assert (∀ days, Forall (λ pub, ¬ needs_refresh now days pub) (publications a) →
            Exists (needs_refresh now days) (publications a) → False) as Hexcl.
  { intros days Hall Hex. apply Exists_exists in Hex as (pub & Hin & Hn).
    rewrite Forall_forall in Hall. exact (Hall pub Hin Hn). }
  split; [|split].
  - rewrite (Hcheck _ Hrange). destruct (publications a) as [|pub pubs] eqn:Hpubs.
    + split; auto.
    + destruct (scan_publications_spec now threshold_days (scholar_id a) (pub :: pubs))
        as [[Hex ->]|[Hall ->]].
      * split; auto.
      * split; [intros [= Heq]; congruence|].
        intros [[=]|Hex]. exfalso. rewrite <- Hpubs in *. eauto.
  - rewrite (Hcheck _ Hrange). destruct (publications a) as [|pub pubs] eqn:Hpubs.
    + split; [intros [= Heq]; congruence | intros [Hne _]; congruence].
    + destruct (scan_publications_spec now threshold_days (scholar_id a) (pub :: pubs))
        as [[Hex ->]|[Hall ->]].
      * split; [intros [= Heq]; congruence|].
        intros [_ Hall]. exfalso. rewrite <- Hpubs in *. eauto.
      * split; [|reflexivity]. intros _. split; [discriminate|exact Hall].
  - intros Hten. split.
    + rewrite (Hcheck 7) by lia. destruct (publications a) as [|pub pubs] eqn:Hpubs;
        [reflexivity|].
      destruct (scan_publications_spec now 7 (scholar_id a) (pub :: pubs))
        as [[Hex ->]|[Hall Hscan]]; [reflexivity|].
      exfalso. apply Forall_cons in Hall as [Hno _]. apply Forall_cons in Hten as [Hs _].
      apply Hno. right. exists (now - 10 * micros_per_day). split; [exact Hs|].
      unfold micros_per_day. lia.
    + intros Hne. rewrite (Hcheck 14) by lia.
      destruct (publications a) as [|pub pubs] eqn:Hpubs; [congruence|].
      destruct (scan_publications_spec now 14 (scholar_id a) (pub :: pubs))
        as [[Hex Hscan]|[Hall ->]]; [|reflexivity].
      exfalso. apply Exists_exists in Hex as (q & Hin & Hq).
      rewrite Forall_forall in Hten. specialize (Hten q Hin).
      destruct Hq as [Hno|(t & Hs & Hgt)]; [exact (Hno _ Hten)|].
      rewrite (scraped_at_fun _ _ _ Hs Hten) in Hgt. unfold micros_per_day in Hgt. lia.
Qed.

End freshness_claims.

(** ** PersistenceGateway *)

Section persistence_claims.
Context `{Runtime}.

Lemma length_append_tmp (path : string) :
  String.length (path +:+ ".tmp") = (String.length path + 4)%nat.
Proof. induction path as [|c path IH]; simpl; [reflexivity|]. rewrite IH. reflexivity. Qed.

Lemma temp_path_differs (path : string) : (path +:+ ".tmp")%string ≠ path.
Proof.
  intros Heq. apply (f_equal String.length) in Heq.
  rewrite length_append_tmp in Heq. lia.
Qed.

(** The save of [merge_and_save_results] (lines 183-195) under every
    combination of faults.  The merged dataset is written to the
    temporary path and renamed over the destination; when both steps
    work the destination holds the complete new content and the
    temporary file is gone.  When either fails, the code falls back on
    writing the destination in place.  The call returns normally exactly
    when the rename or the fallback write has worked, and the
    destination then holds the complete new content; it raises exactly
    when the fallback has failed too, and the destination then holds its
    old content, when it could not be opened, or a partial write, when
    the write broke off.  The temporary file is removed by the rename
    only. *)
Theorem save_is_atomic_unless_fallback_fails
    (faults : io_faults) (now : ustr) (files : gmap string file)
    (partial_authors merged : list author) (results_file_path : string) :
  merge_results now (read_existing (read_fails faults) files results_file_path)
    partial_authors = Ok merged →
  let r := merge_and_save_results faults now files partial_authors results_file_path in
  let temp_path := (results_file_path +:+ ".tmp")%string in
  (tmp_write faults = NoFault → replace_fails faults = false →
     r.2 = Ok () ∧ r.1 !! results_file_path = Some (Dataset merged) ∧
     r.1 !! temp_path = None)
  ∧ (r.2 = Ok () → r.1 !! results_file_path = Some (Dataset merged))
  ∧ (∀ e, r.2 = Raise e →
       (tmp_write faults ≠ NoFault ∨ replace_fails faults = true) ∧
       direct_write faults ≠ NoFault ∧
       (r.1 !! results_file_path = files !! results_file_path ∨
        r.1 !! results_file_path = Some (Truncated merged)))
  ∧ (r.2 = Ok () ↔
       (tmp_write faults = NoFault ∧ replace_fails faults = false) ∨
       direct_write faults = NoFault)
  ∧ (tmp_write faults ≠ NoFault ∨ replace_fails faults = true →
       match direct_write faults with
       | NoFault =>
           r.2 = Ok () ∧ r.1 !! results_file_path = Some (Dataset merged)
       | OpenFails =>
           r.2 = Raise io_error ∧
           r.1 !! results_file_path = files !! results_file_path
       | WriteFails =>
           r.2 = Raise io_error ∧
           r.1 !! results_file_path = Some (Truncated merged)
       end)
  ∧ r.1 !! temp_path =
      match tmp_write faults with
      | NoFault => if replace_fails faults then Some (Dataset merged) else None
      | OpenFails => files !! temp_path
      | WriteFails => Some (Truncated merged)
      end.
Proof.
  intros Hm r temp_path. subst r temp_path. unfold merge_and_save_results. rewrite Hm.
  pose proof (temp_path_differs results_file_path) as Htmp.
  assert (results_file_path ≠ (results_file_path +:+ ".tmp")%string) as Htmp'
    by (intros Heq; apply Htmp; symmetry; exact Heq).
  unfold save_merged, os_replace.
  destruct faults as [rf [| |] rp [| |]]; simpl;
    rewrite ?lookup_insert_eq; destruct rp; simpl;
    rewrite ?lookup_insert_eq, ?lookup_insert_ne, ?lookup_delete_eq,
      ?lookup_insert_eq, ?lookup_insert_ne by done;
    (split; [|split; [|split; [|split; [|split]]]]);
    try reflexivity; try done; try tauto; try (intros e [=]); auto;
    try (intros _; split; reflexivity);
    try (intros; repeat split; try done; auto; fail);
    try (split; [intros _; auto | intros _; reflexivity]);
    try solve [intuition (discriminate || congruence)].
Qed.

End persistence_claims.

(** ** CrawlController *)

Lemma starts_with_app (needle rest : ustr) : starts_with needle (needle ++ rest) = true.
Proof.
  induction needle as [|c needle IH]; simpl; [reflexivity|].
  rewrite N.eqb_refl. exact IH.
Qed.

Lemma starts_with_contains (needle hay : ustr) :
  starts_with needle hay = true → contains needle hay = true.
Proof. intros Hs. destruct hay; simpl in *; rewrite Hs; reflexivity. Qed.

Lemma starts_with_prefix (needle hay : ustr) :
  starts_with needle hay = true ↔ ∃ rest, hay = needle ++ rest.
Proof.
  revert hay. induction needle as [|c needle IH]; intros hay; simpl.
  - split; eauto.
  - destruct hay as [|c' hay]; [split; [discriminate|intros [rest [=]]]|].
    rewrite andb_true_iff, N.eqb_eq, IH. split.
    + intros [-> [rest ->]]. eauto.
    + intros [rest [= -> ->]]. eauto.
Qed.

(** [contains] is Python's substring test. *)
Lemma contains_infix (needle hay : ustr) :
  contains needle hay = true ↔ ∃ before after, hay = before ++ needle ++ after.
Proof.
  induction hay as [|c hay IH]; simpl.
  - rewrite orb_false_r, starts_with_prefix. split.
    + intros [rest Hr]. exists [], rest. exact Hr.
    + intros (before & after & Hb). destruct before; [eauto|discriminate].
  - rewrite orb_true_iff, starts_with_prefix, IH. split.
    + intros [[rest Hr]|(before & after & ->)].
      * exists [], rest. exact Hr.
      * exists (c :: before), after. reflexivity.
    + intros (before & after & Hb). destruct before as [|c' before].
      * left. eauto.
      * right. injection Hb as -> ->. eauto.
Qed.

Section crawl_claims.
Context `{Runtime}.
Variable env : environment.

(** The classification by text made by [check_for_captcha]. *)
Lemma check_for_captcha_keywords (error_msg : ustr) :
  check_for_captcha error_msg = true ↔
  ∃ keyword before after,
    keyword ∈ CAPTCHA_KEYWORDS ∧ lower error_msg = before ++ keyword ++ after.
Proof.
  unfold check_for_captcha. rewrite existsb_exists. split.
  - intros (keyword & Hin & Hc). apply contains_infix in Hc as (before & after & Hc).
    exists keyword, before, after. split; [apply list_elem_of_In, Hin|exact Hc].
  - intros (keyword & before & after & Hin & Hc). exists keyword.
    split; [apply list_elem_of_In, Hin|]. apply contains_infix. eauto.
Qed.

(** An exception whose text starts with the marker is classified as a
    CAPTCHA by [start_scraping] and by the handlers of [scraper.py]. *)
Lemma is_captcha_marker cls (rest : ustr) :
  is_captcha (mkExn cls (U "CAPTCHA_DETECTED" ++ rest)) = true.
Proof.
  unfold is_captcha. cbn [exn_msg]. rewrite upper_app.
  rewrite (upper_ascii (U "CAPTCHA_DETECTED")) by reflexivity.
  apply orb_true_intro. right. apply starts_with_contains.
  change (ascii_upper <$> U "CAPTCHA_DETECTED") with (U "CAPTCHA_DETECTED").
  apply starts_with_app.
Qed.



(** A fetch error whose text holds a keyword ends the crawl of that
    identity at once, with the distinguished exception. *)
Lemma crawl_loop_block_aborts scholarID skip_ids start_time i remaining w e :
  (w_clock w - start_time >? MAX_TIME_PER_AUTHOR) = false →
  getAuthorData env (length (w_fetched w)) scholarID skip_ids = Raise e →
  check_for_captcha (exn_msg e) = true →
  crawl_loop env scholarID skip_ids start_time i (S remaining) w =
    ((call_getAuthorData env scholarID skip_ids w).1,
     Raise (mkExn Exception (U "CAPTCHA_DETECTED: " ++ exn_msg e))).
Proof. intros Htime Hfetch Hcheck. simpl. rewrite Htime, Hfetch, Hcheck. reflexivity. Qed.

(** A fetch error whose text holds no keyword is not a block for [crawl],
    whatever its class: after the single attempt that [MAX_RETRIES]
    allows, [crawl] returns [None]. *)
Lemma crawl_unclassified_error_returns_none scholarID skip_ids w e :
  getAuthorData env (length (w_fetched w)) scholarID skip_ids = Raise e →
  check_for_captcha (exn_msg e) = false →
  crawl env scholarID skip_ids w =
    ((call_getAuthorData env scholarID skip_ids w).1, Ok None).
Proof.
  intros Hfetch Hcheck. unfold crawl, MAX_RETRIES. simpl.
  rewrite Z.sub_diag. simpl. rewrite Hfetch, Hcheck. reflexivity.
Qed.

Lemma scrape_loop_abort results_path skip_ids scholarIds :
  ∀ authorsList w w' final e,
    scrape_loop env results_path skip_ids scholarIds authorsList w = (w', final, Raise e) →
    ∃ done failing rest w1 w2 e0,
      scholarIds = done ++ failing :: rest ∧
      scrape_loop env results_path skip_ids done authorsList w = (w1, final, Ok ()) ∧
      crawl env failing skip_ids w1 = (w2, Raise e0) ∧
      is_captcha e0 = true ∧
      w' = _save_partial_results env results_path final w2 ∧
      e = mkExn Exception
            (U "CAPTCHA_DETECTED: CAPTCHA encountered while processing " ++ failing).
Proof.
  induction scholarIds as [|scholarId ids IH]; intros authorsList w w' final e; simpl;
    [discriminate|].
  destruct (crawl env scholarId skip_ids w) as [w1 [[res|]|e0]] eqn:Hcrawl; simpl.
  - intros Hloop. destruct (IH _ _ _ _ _ Hloop)
      as (done & failing & rest & wa & wb & e1 & -> & Hdone & Hc & Hcap & -> & ->).
    exists (scholarId :: done), failing, rest, wa, wb, e1.
    simpl. rewrite Hcrawl. simpl. auto 10.
  - intros Hloop. destruct (IH _ _ _ _ _ Hloop)
      as (done & failing & rest & wa & wb & e1 & -> & Hdone & Hc & Hcap & -> & ->).
    exists (scholarId :: done), failing, rest, wa, wb, e1.
    simpl. rewrite Hcrawl. simpl. auto 10.
  - destruct (is_captcha e0) eqn:Hcap.
    + intros [= <- <- <-]. exists [], scholarId, ids, w, w1, e0. simpl. auto 10.
    + intros Hloop. destruct (IH _ _ _ _ _ Hloop)
        as (done & failing & rest & wa & wb & e1 & -> & Hdone & Hc & Hcap' & -> & ->).
      exists (scholarId :: done), failing, rest, wa, wb, e1.
      simpl. rewrite Hcrawl. simpl. rewrite Hcap. auto 10.
Qed.


(** An exception that leaves [start_scraping] comes from the CAPTCHA
    branch alone: the identities before the failing one were processed
    normally and the crawl of the failing one raised. *)
Lemma start_scraping_raises_only_after_block
    (results_path : string) (scholarIds skip_ids : list ustr)
    (w w' : world) (authorsList : list author) (e : exn) :
  start_scraping env results_path scholarIds skip_ids w = (w', authorsList, Raise e) →
  ∃ done failing rest w1 w2 e0,
    scholarIds = done ++ failing :: rest ∧
    start_scraping env results_path done skip_ids w = (w1, authorsList, Ok ()) ∧
    crawl env failing skip_ids w1 = (w2, Raise e0) ∧
    w' = (save_to_disk env authorsList results_path w2).1 ∧
    e = mkExn Exception
          (U "CAPTCHA_DETECTED: CAPTCHA encountered while processing " ++ failing).
Proof.
  unfold start_scraping. intros Hloop.
  destruct (scrape_loop_abort _ _ _ _ _ _ _ _ Hloop)
    as (done & failing & rest & w1 & w2 & e0 & -> & Hdone & Hc & Hcap & -> & ->).
  exists done, failing, rest, w1, w2, e0. auto 10.
Qed.




End crawl_claims.

(** ** Merging the same record twice *)

Section stamp_facts.

Lemma stamp_stamped now_iso p : stamped p → stamp now_iso p = p.
Proof. unfold stamped, stamp. intros ->. reflexivity. Qed.

Lemma stamped_stamp now p : stamped (stamp (now ++ U "Z") p).
Proof.
  unfold stamped, stamp. destruct (truthy (get p "last_scraped")) eqn:Ht; [exact Ht|].
  unfold get. rewrite lookup_insert_eq. simpl. destruct now; reflexivity.
Qed.

Lemma stamp_lookup_other now_iso p (field : string) :
  field ≠ "last_scraped" → stamp now_iso p !! field = p !! field.
Proof.
  intros Hne. unfold stamp. destruct (truthy (get p "last_scraped")); [reflexivity|].
  apply lookup_insert_ne. congruence.
Qed.

Lemma stamp_author_pub_id now_iso p : author_pub_id (stamp now_iso p) = author_pub_id p.
Proof. unfold author_pub_id, get. rewrite stamp_lookup_other; [reflexivity|discriminate]. Qed.

Lemma stamp_extract_title now_iso p : extract_title (stamp now_iso p) = extract_title p.
Proof.
  unfold extract_title, get.
  rewrite !stamp_lookup_other by discriminate. reflexivity.
Qed.

Lemma stamp_fmap_stamped now_iso (pubs : list publication) :
  Forall stamped pubs → stamp now_iso <$> pubs = pubs.
Proof.
  induction 1 as [|p pubs Hp _ IH]; [reflexivity|].
  rewrite fmap_cons, IH, (stamp_stamped _ _ Hp). reflexivity.
Qed.

(** A re-sighting laid over the stamped record it produced changes
    nothing, provided it does not carry an empty [last_scraped]. *)
Lemma resighting_absorbed now_iso (q x : publication) :
  timestamp_missing_or_set q → q ∪ stamp now_iso (q ∪ x) = stamp now_iso (q ∪ x).
Proof.
  intros Hq. unfold stamp.
  destruct (truthy (get (q ∪ x) "last_scraped")) eqn:Ht.
  - rewrite (assoc_L (∪)), (idemp_L (∪)). reflexivity.
  - assert (q !! "last_scraped" = None) as Hnone.
    { destruct Hq as [Hq|Hq]; [exact Hq|]. exfalso.
      unfold stamped, get in Hq. unfold get in Ht.
      destruct (q !! "last_scraped") as [v|] eqn:Hl; [|discriminate].
      rewrite (lookup_union_Some_l _ _ _ _ Hl) in Ht. simpl in *. congruence. }
    apply map_eq. intros field. rewrite lookup_union.
    destruct (decide (field = "last_scraped")) as [->|Hne].
    + rewrite Hnone, lookup_insert_eq. reflexivity.
    + rewrite lookup_insert_ne by congruence. rewrite lookup_union.
      destruct (q !! field), (x !! field); reflexivity.
Qed.

End stamp_facts.

Section key_facts.
Context `{Runtime}.

Lemma stamp_dedupe_key now_iso p : dedupe_key (stamp now_iso p) = dedupe_key p.
Proof.
  unfold dedupe_key. rewrite stamp_extract_title, stamp_author_pub_id. reflexivity.
Qed.

(** The key of a titled, identified re-sighting does not depend on the
    record it is laid over. *)
Lemma titled_union_key (q x : publication) :
  titled q → has_id q = true → dedupe_key (q ∪ x) = dedupe_key q.
Proof.
  intros (s & Hs & Hne) Hid. unfold dedupe_key.
  assert (extract_title (q ∪ x) = extract_title q) as ->.
  { unfold extract_title, get.
    rewrite (lookup_union_Some_l _ _ _ _ Hs), Hs. simpl.
    destruct s; [contradiction|reflexivity]. }
  assert (author_pub_id (q ∪ x) = author_pub_id q) as ->; [|reflexivity].
  unfold has_id, author_pub_id, get in *.
  destruct (q !! "author_pub_id") as [v|] eqn:Hl; [|discriminate].
  rewrite (lookup_union_Some_l _ _ _ _ Hl). reflexivity.
Qed.

(** The pass absorbs what it has seen: running it again on its survivors,
    followed by publications whose keys it has met, gives the survivors. *)
Lemma dedupe_pubs_absorbs seen pubs r extra extra_keys :
  dedupe_pubs seen pubs = Ok r →
  keys_of extra extra_keys →
  (∀ key, key ∈ extra_keys → key ∈ r.1) →
  dedupe_pubs seen (r.2 ++ extra) = Ok r.
Proof.
  intros Hd Hke Hin.
  destruct (dedupe_pubs_ok _ _ _ Hd) as [keys Hk].
  rewrite (dedupe_pubs_first_seen _ _ _ Hk) in Hd. injection Hd as <-. simpl in *.
  set (survivors := first_seen seen (zip keys pubs)).
  assert (keys_of survivors.*2 survivors.*1) as Hks by apply keys_of_first_seen, Hk.
  rewrite (dedupe_pubs_first_seen seen _ (survivors.*1 ++ extra_keys))
    by (apply keys_of_app; assumption).
  assert (∀ key, key ∈ survivors.*1 ↔ key ∈ keys ∧ key ∉ seen) as Hsk.
  { intros key. unfold survivors. rewrite first_seen_keys, (keys_of_zip_fst _ _ Hk).
    reflexivity. }
  f_equal. f_equal.
  - apply set_eq. intros key. rewrite !elem_of_union, !elem_of_list_to_set, elem_of_app.
    rewrite Hsk. split.
    + intros [[[Hin' _]|Hin']|Hin']; auto.
      apply Hin in Hin'. rewrite elem_of_union, elem_of_list_to_set in Hin'. exact Hin'.
    + intros [Hin'|Hin']; [|auto]. destruct (decide (key ∈ seen)); auto.
  - rewrite zip_with_app by (rewrite !length_fmap; reflexivity).
    rewrite first_seen_app.
    rewrite (first_seen_fixed seen), first_seen_dropped.
    + rewrite app_nil_r. rewrite zip_fst_snd. reflexivity.
    + intros key Hkey. rewrite fst_zip in Hkey
        by (rewrite (keys_of_length _ _ Hke); lia).
      rewrite zip_fst_snd. apply Hin in Hkey.
      rewrite elem_of_union, elem_of_list_to_set in *.
      destruct Hkey as [Hkey|Hkey]; [|auto].
      destruct (decide (key ∈ seen)); [auto|]. left. apply Hsk. auto.
    + rewrite zip_fst_snd. apply first_seen_NoDup.
    + intros key Hkey. rewrite zip_fst_snd in Hkey. apply Hsk in Hkey. tauto.
Qed.

Lemma dedupe_pubs_idem seen pubs r :
  dedupe_pubs seen pubs = Ok r → dedupe_pubs seen r.2 = Ok r.
Proof.
  intros Hd. rewrite <- (app_nil_r r.2).
  apply (dedupe_pubs_absorbs seen pubs r [] []); [exact Hd|constructor|].
  intros key Hkey. apply elem_of_nil in Hkey. contradiction.
Qed.

Lemma dedupe_authors_app seen l1 l2 :
  dedupe_authors seen (l1 ++ l2) =
    r1 ← dedupe_authors seen l1;
    r2 ← dedupe_authors r1.1 l2;
    Ok (r2.1, r1.2 ++ r2.2).
Proof.
  revert seen. induction l1 as [|[k a] l1 IH]; intros seen; simpl.
  - destruct (dedupe_authors seen l2) as [[s l]|e]; reflexivity.
  - destruct (dedupe_pubs seen (publications a)) as [r|e]; simpl; [|reflexivity].
    rewrite IH. destruct (dedupe_authors r.1 l1) as [r1|e]; simpl; [|reflexivity].
    destruct (dedupe_authors r1.1 l2) as [r2|e]; reflexivity.
Qed.

Lemma dedupe_authors_idem author_map : ∀ seen r,
  dedupe_authors seen author_map = Ok r → dedupe_authors seen r.2 = Ok r.
Proof.
  induction author_map as [|[k a] rest IH]; intros seen r; simpl.
  - intros [= <-]. reflexivity.
  - intros Hd. apply bind_ok in Hd as (rp & Hrp & Hd).
    apply bind_ok in Hd as (rr & Hrr & Hd). injection Hd as <-. simpl.
    change (publications (set_publications a rp.2)) with rp.2.
    rewrite (dedupe_pubs_idem _ _ _ Hrp). simpl.
    rewrite (IH _ _ Hrr). simpl. reflexivity.
Qed.

End key_facts.

Section resighting_facts.

Lemma identified_pid p : identified p → author_pub_id p = VAtom (pid p) ∧ atom_truthy (pid p) = true.
Proof. intros (k & Hk & Ht). unfold pid. rewrite Hk. auto. Qed.

Lemma identified_has_id p : identified p → has_id p = true.
Proof. intros (k & Hk & Ht). unfold has_id. rewrite Hk. exact Ht. Qed.

Lemma entries_keys pubs : (entries pubs).*1 = pid <$> pubs.
Proof. unfold entries. rewrite <- list_fmap_compose. reflexivity. Qed.

Lemma entries_values pubs : (entries pubs).*2 = pubs.
Proof. unfold entries. rewrite <- list_fmap_compose. apply list_fmap_id. Qed.

Lemma entries_app l1 l2 : entries (l1 ++ l2) = entries l1 ++ entries l2.
Proof. apply fmap_app. Qed.

Lemma elem_of_entries k p pubs : (k, p) ∈ entries pubs ↔ k = pid p ∧ p ∈ pubs.
Proof.
  unfold entries. rewrite list_elem_of_fmap. split.
  - intros (p' & [= -> ->] & Hin). auto.
  - intros [-> Hin]. eauto.
Qed.

Lemma stamp_pid now_iso p : pid (stamp now_iso p) = pid p.
Proof. unfold pid. rewrite stamp_author_pub_id. reflexivity. Qed.

Lemma stamp_identified now_iso p : identified p → identified (stamp now_iso p).
Proof. unfold identified. rewrite stamp_author_pub_id. auto. Qed.

Lemma distinctly_identified_stamp now_iso pubs :
  distinctly_identified pubs → distinctly_identified (stamp now_iso <$> pubs).
Proof.
  intros [Hid Hnd]. split.
  - apply Forall_fmap. eapply Forall_impl; [exact Hid|]. intros p. apply stamp_identified.
  - rewrite <- list_fmap_compose.
    erewrite list_fmap_ext; [exact Hnd|]. intros i p _. apply stamp_pid.
Qed.

Lemma distinctly_identified_sublist l1 l2 :
  l1 `sublist_of` l2 → distinctly_identified l2 → distinctly_identified l1.
Proof.
  intros Hsub [Hid Hnd]. split.
  - rewrite Forall_forall in *. intros p Hp. apply Hid. eapply elem_of_sublist; eauto.
  - eapply sublist_NoDup; [exact Hnd|]. apply fmap_sublist, Hsub.
Qed.

(** Distinct ids name distinct publications. *)
Lemma distinctly_identified_inj pubs p q :
  distinctly_identified pubs → p ∈ pubs → q ∈ pubs → pid p = pid q → p = q.
Proof.
  intros [_ Hnd] Hp Hq Heq.
  apply list_elem_of_lookup in Hp as [i Hi]. apply list_elem_of_lookup in Hq as [j Hj].
  assert (i = j) as ->; [|congruence].
  eapply NoDup_lookup; [exact Hnd| |].
  - rewrite list_lookup_fmap, Hi. reflexivity.
  - rewrite list_lookup_fmap, Hj. simpl. congruence.
Qed.

(** [pub_map] as built from distinctly identified publications. *)
Lemma foldM_index_pub_entries pubs : ∀ pre,
  Forall identified pubs → NoDup (pre.*1 ++ (pid <$> pubs)) →
  foldM index_pub pre pubs = Ok (pre ++ entries pubs).
Proof.
  induction pubs as [|p pubs IH]; intros pre Hid Hnd; simpl.
  - rewrite app_nil_r. reflexivity.
  - apply Forall_cons in Hid as [Hp Hid]. destruct (identified_pid p Hp) as [Hk Ht].
    rewrite (index_pub_atom _ _ _ Hk), Ht. simpl.
    rewrite fmap_cons in Hnd.
    rewrite od_set_absent.
    + rewrite IH; [rewrite <- app_assoc; reflexivity|exact Hid|].
      rewrite fmap_app. simpl. rewrite <- app_assoc. exact Hnd.
    + apply od_get_None. unfold od_keys.
      apply NoDup_app in Hnd as (_ & Hdis & _). intros Hin.
      apply (Hdis _ Hin). left.
Qed.

Lemma build_pub_map_entries pubs :
  distinctly_identified pubs → build_pub_map pubs = Ok (entries pubs).
Proof.
  intros [Hid Hnd]. unfold build_pub_map.
  rewrite (foldM_index_pub_entries pubs []); auto.
Qed.

End resighting_facts.

Section resighting_merge.

(** Merging incoming publications into entries that already absorb them:
    the entries stay as they are, and the incoming publications with a new
    id are appended in order. *)
Lemma foldM_merge_pub_resighting (old new : list publication) :
  distinctly_identified old →
  (∀ s q, s ∈ old → q ∈ new → pid q = pid s → q ∪ s = s) →
  ∀ acc,
    Forall identified new →
    NoDup ((pid <$> acc) ++ (pid <$> new)) →
    (∀ p, p ∈ acc → pid p ∉ pid <$> old) →
    foldM merge_pub (entries old ++ entries acc) new =
      Ok (entries old ++ entries (acc ++ filter (λ q, pid q ∉ pid <$> old) new)).
Proof.
  intros Hold Habs. induction new as [|q new IH]; intros acc Hid Hnd Hacc; simpl.
  - rewrite filter_nil, app_nil_r. reflexivity.
  - apply Forall_cons in Hid as [Hq Hid]. destruct (identified_pid q Hq) as [Hk Ht].
    rewrite (merge_pub_atom _ _ _ Hk), Ht. simpl.
    rewrite fmap_cons in Hnd.
    assert (NoDup (pid <$> acc ++ new)) as Hnd'.
    { rewrite fmap_app. eapply sublist_NoDup; [exact Hnd|].
      apply sublist_app; [reflexivity|]. apply sublist_cons. reflexivity. }
    assert (pid q ∉ pid <$> acc) as Hqacc.
    { apply NoDup_app in Hnd as (_ & Hdis & _). intros Hin. apply (Hdis _ Hin). left. }
    assert (pid q ∉ pid <$> new) as Hqnew.
    { apply NoDup_app in Hnd as (_ & _ & Hnd). apply NoDup_cons in Hnd as [Hnd _]. exact Hnd. }
    rewrite filter_cons. destruct (decide (pid q ∉ pid <$> old)) as [Hnew|Hknown].
    + rewrite (proj2 (od_get_None (pid q) (entries old ++ entries acc))).
      * rewrite od_set_absent.
        -- rewrite <- app_assoc. change [(pid q, q)] with (entries [q]).
           rewrite <- entries_app. rewrite IH.
           ++ rewrite <- app_assoc. reflexivity.
           ++ intros s q' Hs Hq'. apply Habs; [exact Hs|right; exact Hq'].
           ++ exact Hid.
           ++ rewrite fmap_app. simpl. rewrite <- app_assoc. exact Hnd.
           ++ intros p [Hp|Hp]%elem_of_app; [auto|].
              apply list_elem_of_singleton in Hp. subst p. exact Hnew.
        -- apply od_get_None. unfold od_keys.
           rewrite fmap_app, !entries_keys. rewrite not_elem_of_app. auto.
      * unfold od_keys. rewrite fmap_app, !entries_keys. rewrite not_elem_of_app. auto.
    + assert (pid q ∈ pid <$> old) as Hin by (destruct (decide (pid q ∈ pid <$> old)); tauto).
      apply list_elem_of_fmap in Hin as (s & Hs & Hsin).
      assert (NoDup (od_keys (entries old ++ entries acc))) as Hnd3.
      { unfold od_keys. rewrite fmap_app, !entries_keys. apply NoDup_app.
        destruct Hold as [_ Hold]. split; [exact Hold|]. split.
        - intros x Hx Hx'. apply list_elem_of_fmap in Hx' as (p & -> & Hp).
          exact (Hacc p Hp Hx).
        - apply NoDup_app in Hnd as (Hnd & _). exact Hnd. }
      assert ((pid q, s) ∈ entries old ++ entries acc) as Hentry.
      { apply elem_of_app. left. apply elem_of_entries. auto. }
      rewrite (od_elem_of_get _ _ _ Hnd3 Hentry).
      rewrite (Habs s q Hsin (list_elem_of_here _ _) Hs).
      rewrite (od_set_same _ _ _ Hnd3 Hentry).
      apply IH; auto.
      * intros s' q' Hs' Hq'. apply Habs; [exact Hs'|right; exact Hq'].
      * rewrite fmap_app in Hnd'. exact Hnd'.
Qed.

Lemma merge_publications_resighting (old new : list publication) :
  distinctly_identified old → distinctly_identified new →
  (∀ s q, s ∈ old → q ∈ new → pid q = pid s → q ∪ s = s) →
  merge_publications old new = Ok (old ++ filter (λ q, pid q ∉ pid <$> old) new).
Proof.
  intros Hold [Hid Hnd] Habs. unfold merge_publications.
  rewrite (build_pub_map_entries _ Hold). simpl.
  pose proof (foldM_merge_pub_resighting old new Hold Habs [] Hid) as Hfold.
  simpl in Hfold. rewrite app_nil_r in Hfold. rewrite Hfold.
  - simpl. unfold od_values. rewrite <- entries_app, entries_values. reflexivity.
  - exact Hnd.
  - intros p Hp. apply elem_of_nil in Hp. contradiction.
Qed.

(** A publication of another id leaves the entry of [k] alone. *)
Lemma merge_pub_other k pub_map q pub_map' :
  merge_pub pub_map q = Ok pub_map' → pid q ≠ k ∨ has_id q = false →
  od_get k pub_map' = od_get k pub_map.
Proof.
  unfold merge_pub, has_id, pid.
  destruct (truthy (author_pub_id q)) eqn:Ht; simpl; [|intros [= <-]; reflexivity].
  destruct (author_pub_id q) as [a| |]; simpl; try discriminate.
  intros Hm [Hne|Hf]; [|discriminate].
  destruct (od_get a pub_map); injection Hm as <-; apply od_get_set_ne; exact Hne.
Qed.

Lemma foldM_merge_pub_other k new : ∀ pub_map pub_map',
  foldM merge_pub pub_map new = Ok pub_map' → k ∉ pid <$> new →
  od_get k pub_map' = od_get k pub_map.
Proof.
  induction new as [|q new IH]; intros pub_map pub_map'; simpl.
  - intros [= <-]. reflexivity.
  - intros Hm Hk. apply bind_ok in Hm as (m1 & Hm1 & Hm).
    apply not_elem_of_cons in Hk as [Hne Hk].
    rewrite (IH _ _ Hm Hk). eapply merge_pub_other; eauto.
Qed.

(** After the merge, the entry of each incoming publication is that
    publication laid over something. *)
Lemma foldM_merge_pub_resighted new : ∀ pub_map pub_map',
  foldM merge_pub pub_map new = Ok pub_map' → distinctly_identified new →
  ∀ q, q ∈ new → ∃ x, od_get (pid q) pub_map' = Some (q ∪ x).
Proof.
  induction new as [|p new IH]; intros pub_map pub_map' Hm [Hid Hnd] q Hq; simpl in Hm.
  - apply elem_of_nil in Hq. contradiction.
  - apply bind_ok in Hm as (m1 & Hm1 & Hm).
    apply Forall_cons in Hid as [Hp Hid]. rewrite fmap_cons in Hnd.
    apply NoDup_cons in Hnd as [Hpnew Hnd].
    apply elem_of_cons in Hq as [->|Hq].
    + rewrite (foldM_merge_pub_other _ _ _ _ Hm Hpnew).
      destruct (identified_pid p Hp) as [Hk Ht].
      rewrite (merge_pub_atom _ _ _ Hk), Ht in Hm1. injection Hm1 as <-.
      rewrite od_get_set_eq. destruct (od_get (pid p) pub_map) as [e|].
      * exists e. reflexivity.
      * exists ∅. rewrite (right_id_L ∅ (∪)). reflexivity.
    + apply (IH _ _ Hm); [split; assumption|exact Hq].
Qed.

End resighting_merge.

Section indexed_facts.

Lemma indexed_nil : indexed [].
Proof.
  split; [constructor|]. intros k a Hin. apply elem_of_nil in Hin. contradiction.
Qed.

Lemma indexed_set k a author_map :
  scholar_id a = VAtom k → atom_truthy k = true →
  indexed author_map → indexed (od_set k a author_map).
Proof.
  intros Hs Ht [Hnd Hall]. split.
  - apply (od_keys_set_NoDup k a author_map Hnd).
  - intros k' a' Hin. apply elem_of_od_set in Hin as [[-> ->]|Hin]; auto.
Qed.

Lemma index_author_indexed author_map a author_map' :
  indexed author_map → index_author author_map a = Ok author_map' → indexed author_map'.
Proof.
  intros Hi. unfold index_author.
  destruct (truthy (scholar_id a)) eqn:Ht; [|intros [= <-]; exact Hi].
  destruct (scholar_id a) as [k| |] eqn:Hs; simpl; try discriminate.
  intros [= <-]. apply indexed_set; auto.
Qed.

Lemma foldM_index_author_indexed existing : ∀ author_map author_map',
  indexed author_map → foldM index_author author_map existing = Ok author_map' →
  indexed author_map'.
Proof.
  induction existing as [|a existing IH]; intros author_map author_map' Hi; simpl.
  - intros [= <-]. exact Hi.
  - intros Hm. apply bind_ok in Hm as (m1 & Hm1 & Hm).
    eauto using index_author_indexed.
Qed.

Lemma merge_author_indexed author_map scraped author_map' :
  indexed author_map → merge_author author_map scraped = Ok author_map' →
  indexed author_map'.
Proof.
  intros Hi. unfold merge_author.
  destruct (author_is_empty scraped); [intros [= <-]; exact Hi|].
  destruct (truthy (scholar_id scraped)) eqn:Ht; simpl; [|intros [= <-]; exact Hi].
  destruct (scholar_id scraped) as [k| |] eqn:Hs; simpl; try discriminate.
  destruct (od_get k author_map).
  - intros Hm. apply bind_ok in Hm as (merged & _ & Hm). injection Hm as <-.
    apply indexed_set; auto.
  - intros [= <-]. apply indexed_set; auto.
Qed.

Lemma index_author_atom author_map a k :
  scholar_id a = VAtom k → atom_truthy k = true →
  index_author author_map a = Ok (od_set k a author_map).
Proof. intros Hs Ht. unfold index_author. rewrite Hs. simpl. rewrite Ht. reflexivity. Qed.

(** Reading back a dataset that was written from an indexed map gives
    the map. *)
Lemma foldM_index_author_values author_map : ∀ pre,
  indexed (pre ++ author_map) →
  foldM index_author pre (od_values author_map) = Ok (pre ++ author_map).
Proof.
  induction author_map as [|[k a] author_map IH]; intros pre Hi.
  - rewrite app_nil_r. reflexivity.
  - destruct Hi as [Hnd Hall].
    destruct (Hall k a) as [Hs Ht]; [apply elem_of_app; right; left|].
    change (od_values ((k, a) :: author_map)) with (a :: od_values author_map).
    change (foldM index_author pre (a :: od_values author_map))
      with (index_author pre a ≫= λ m, foldM index_author m (od_values author_map)).
    rewrite (index_author_atom pre a k Hs Ht). simpl.
    rewrite od_set_absent.
    + rewrite IH; rewrite <- app_assoc; [reflexivity|]. split; assumption.
    + apply od_get_None. unfold od_keys. rewrite fmap_app in Hnd.
      apply NoDup_app in Hnd as (_ & Hdis & _). intros Hin.
      apply (Hdis _ Hin). left.
Qed.

(** The stamping pass and the dedupe pass touch the publications only. *)
Lemma indexed_same_identity (author_map author_map' : list (atom * author)) :
  Forall2 (λ e e', e'.1 = e.1 ∧ a_fields e'.2 = a_fields e.2) author_map author_map' →
  indexed author_map → indexed author_map'.
Proof.
  intros Hsame [Hnd Hall].
  assert (author_map'.*1 = author_map.*1) as Hkeys.
  { clear Hnd Hall. induction Hsame as [|e e' l l' [He _] _ IH]; [reflexivity|].
    rewrite !fmap_cons. congruence. }
  split; [rewrite Hkeys; exact Hnd|].
  intros k a Hin. apply list_elem_of_lookup in Hin as [i Hi].
  destruct (Forall2_lookup_r _ _ _ _ _ Hsame Hi) as ([k0 a0] & Hi0 & Hk & Hf).
  simpl in *. subst k0.
  destruct (Hall k a0) as [Hs Ht]; [eapply list_elem_of_lookup_2; eauto|].
  split; [|exact Ht]. unfold scholar_id in *. rewrite Hf. exact Hs.
Qed.

Lemma stamp_same_identity now_iso (author_map : list (atom * author)) :
  Forall2 (λ e e', e'.1 = e.1 ∧ a_fields e'.2 = a_fields e.2)
    author_map (prod_map id (stamp_author now_iso) <$> author_map).
Proof. induction author_map as [|[k a] l IH]; constructor; auto. Qed.

End indexed_facts.

Section settled_facts.
Context `{Runtime}.

Lemma dedupe_pubs_sublist seen pubs r :
  dedupe_pubs seen pubs = Ok r → r.2 `sublist_of` pubs.
Proof.
  intros Hd. destruct (dedupe_pubs_ok _ _ _ Hd) as [keys Hk].
  rewrite (dedupe_pubs_first_seen _ _ _ Hk) in Hd. injection Hd as <-. simpl.
  rewrite <- (keys_of_zip_snd _ _ Hk) at 2.
  apply fmap_sublist, first_seen_sublist.
Qed.

Lemma dedupe_same_identity author_map : ∀ seen r,
  dedupe_authors seen author_map = Ok r →
  Forall2 (λ e e', e'.1 = e.1 ∧ a_fields e'.2 = a_fields e.2) author_map r.2.
Proof.
  induction author_map as [|[k a] rest IH]; intros seen r; simpl.
  - intros [= <-]. constructor.
  - intros Hd. apply bind_ok in Hd as (rp & Hrp & Hd).
    apply bind_ok in Hd as (rr & Hrr & Hd). injection Hd as <-. simpl.
    constructor; [auto|eauto].
Qed.

Lemma dedupe_authors_settled author_map : ∀ seen r,
  dedupe_authors seen author_map = Ok r →
  (∀ k a, (k, a) ∈ author_map → Forall stamped (publications a)) →
  settled r.2.
Proof.
  induction author_map as [|[k a] rest IH]; intros seen r; simpl.
  - intros [= <-] _ k a Hin. apply elem_of_nil in Hin. contradiction.
  - intros Hd Hst. apply bind_ok in Hd as (rp & Hrp & Hd).
    apply bind_ok in Hd as (rr & Hrr & Hd). injection Hd as <-. simpl.
    intros k' a' Hin. apply elem_of_cons in Hin as [[= -> ->]|Hin].
    + exists rp.2. split; [reflexivity|].
      pose proof (Hst k a (list_elem_of_here _ _)) as Ha.
      rewrite Forall_forall in *. intros p Hp. apply Ha.
      eapply elem_of_sublist; [exact Hp|]. eapply dedupe_pubs_sublist; eauto.
    + eapply (IH _ _ Hrr); [|exact Hin].
      intros k0 a0 Hin0. apply (Hst k0 a0). right. exact Hin0.
Qed.

Lemma stamp_author_stamped now a :
  Forall stamped (publications (stamp_author (now ++ U "Z") a)).
Proof.
  unfold publications, stamp_author. simpl. destruct (a_pubs a) as [pubs|]; simpl;
    [|constructor].
  apply Forall_fmap, Forall_true. intros p. apply stamped_stamp.
Qed.

Lemma stamp_settled now_iso (author_map : list (atom * author)) :
  settled author_map → prod_map id (stamp_author now_iso) <$> author_map = author_map.
Proof.
  induction author_map as [|[k a] l IH]; intros Hs; [reflexivity|].
  rewrite fmap_cons. rewrite IH.
  - destruct (Hs k a (list_elem_of_here _ _)) as (pubs & Hp & Hst).
    unfold prod_map, stamp_author. simpl. destruct a as [fields ps]. simpl in *. subst ps.
    simpl. rewrite (stamp_fmap_stamped _ _ Hst). reflexivity.
  - intros k' a' Hin. apply (Hs k' a'). right. exact Hin.
Qed.

Lemma settled_app l1 l2 : settled (l1 ++ l2) ↔ settled l1 ∧ settled l2.
Proof.
  unfold settled. split.
  - intros Hs. split; intros k a Hin; apply (Hs k a), elem_of_app; auto.
  - intros [H1 H2] k a [Hin|Hin]%elem_of_app; eauto.
Qed.

End settled_facts.

Section second_merge.
Context `{Runtime}.

Lemma truthy_scholar_id_not_empty a :
  truthy (scholar_id a) = true → author_is_empty a = false.
Proof.
  unfold scholar_id, get, author_is_empty. intros Ht.
  destruct (a_fields a !! "scholar_id") as [v|] eqn:Hl; simpl in Ht; [|discriminate].
  apply andb_false_intro1. apply bool_decide_eq_false. intros He.
  rewrite He in Hl. rewrite lookup_empty in Hl. discriminate.
Qed.

Lemma same_identity_keys (author_map author_map' : list (atom * author)) :
  Forall2 (λ e e', e'.1 = e.1 ∧ a_fields e'.2 = a_fields e.2) author_map author_map' →
  author_map'.*1 = author_map.*1.
Proof.
  induction 1 as [|e e' l l' [He _] _ IH]; [reflexivity|].
  rewrite !fmap_cons. congruence.
Qed.

Lemma index_pub_NoDup pub_map p pub_map' :
  NoDup pub_map.*1 → index_pub pub_map p = Ok pub_map' → NoDup pub_map'.*1.
Proof.
  intros Hnd. unfold index_pub.
  destruct (truthy (author_pub_id p)); [|intros [= <-]; exact Hnd].
  destruct (author_pub_id p) as [a| |]; simpl; try discriminate.
  intros [= <-]. apply (od_keys_set_NoDup a p pub_map Hnd).
Qed.

Lemma merge_pub_NoDup pub_map q pub_map' :
  NoDup pub_map.*1 → merge_pub pub_map q = Ok pub_map' → NoDup pub_map'.*1.
Proof.
  intros Hnd. unfold merge_pub.
  destruct (truthy (author_pub_id q)); simpl; [|intros [= <-]; exact Hnd].
  destruct (author_pub_id q) as [a| |]; simpl; try discriminate.
  destruct (od_get a pub_map) as [e|]; intros [= <-].
  - apply (od_keys_set_NoDup a (q ∪ e) pub_map Hnd).
  - apply (od_keys_set_NoDup a q pub_map Hnd).
Qed.

Lemma foldM_NoDup (f : list (atom * publication) → publication → result _) l :
  (∀ m p m', NoDup m.*1 → f m p = Ok m' → NoDup m'.*1) →
  ∀ m m', NoDup m.*1 → foldM f m l = Ok m' → NoDup m'.*1.
Proof.
  intros Hf. induction l as [|x l IH]; intros m m' Hnd; simpl.
  - intros [= <-]. exact Hnd.
  - intros Hm. apply bind_ok in Hm as (m1 & Hm1 & Hm). eauto.
Qed.

Lemma keyed_distinctly_identified (pub_map : list (atom * publication)) :
  keyed pub_map → NoDup pub_map.*1 → distinctly_identified pub_map.*2.
Proof.
  intros Hk Hnd. split.
  - apply Forall_fmap, Forall_forall. intros [k p] Hin. simpl.
    destruct (Hk k p Hin) as [Hid Ht]. exists k. auto.
  - rewrite <- list_fmap_compose.
    erewrite list_fmap_ext; [exact Hnd|].
    intros i [k p] Hi. simpl. apply list_elem_of_lookup_2 in Hi.
    destruct (Hk k p Hi) as [Hid _]. unfold pid. rewrite Hid. reflexivity.
Qed.

(** What the merged list of a known author looks like. *)
Lemma merge_publications_shape old_pubs new_pubs merged :
  merge_publications old_pubs new_pubs = Ok merged →
  distinctly_identified new_pubs →
  distinctly_identified merged ∧ ∀ q, q ∈ new_pubs → ∃ x, q ∪ x ∈ merged.
Proof.
  unfold merge_publications, build_pub_map. intros Hm Hnew.
  apply bind_ok in Hm as (pm & Hpm & Hm). apply bind_ok in Hm as (pm' & Hpm' & Hm).
  injection Hm as <-. split.
  - apply keyed_distinctly_identified.
    + eapply (foldM_keyed merge_pub); eauto using merge_pub_keyed.
      eapply (foldM_keyed index_pub); eauto using index_pub_keyed, keyed_nil.
    + eapply (foldM_NoDup merge_pub); eauto using merge_pub_NoDup.
      eapply (foldM_NoDup index_pub); eauto using index_pub_NoDup. constructor.
  - intros q Hq. destruct (foldM_merge_pub_resighted _ _ _ Hpm' Hnew q Hq) as [x Hx].
    exists x. eapply od_get_value; eauto.
Qed.

(** The map after the record has been merged in: the record sits at the
    first position of its key, with a merged list in which every incoming
    publication is laid over something. *)
Lemma merge_author_shape author_map scraped k author_map' :
  scholar_id scraped = VAtom k → atom_truthy k = true →
  distinctly_identified (publications scraped) →
  merge_author author_map scraped = Ok author_map' →
  ∃ before after merged,
    author_map' = before ++ (k, set_publications scraped merged) :: after ∧
    k ∉ (before.*1) ∧
    distinctly_identified merged ∧
    ∀ q, q ∈ publications scraped → ∃ x, q ∪ x ∈ merged.
Proof.
  intros Hs Ht Hnew Hm. destruct (od_get k author_map) as [old|] eqn:Hg.
  - rewrite (merge_author_known _ _ _ _ Hs Ht Hg) in Hm.
    apply bind_ok in Hm as (merged & Hmerged & Hm). injection Hm as <-.
    destruct (od_get_split _ _ _ Hg) as (before & after & -> & Hk).
    exists before, after, merged. rewrite (od_set_middle _ _ _ _ _ Hk).
    destruct (merge_publications_shape _ _ _ Hmerged Hnew) as [Hd Hx]. auto.
  - rewrite (merge_author_new _ _ _ Hs Ht Hg) in Hm. injection Hm as <-.
    exists author_map, [], (publications scraped). rewrite (od_set_absent _ _ _ Hg).
    split; [reflexivity|]. split; [apply od_get_None, Hg|]. split; [exact Hnew|].
    intros q Hq. exists ∅. rewrite (right_id_L ∅ (∪)). exact Hq.
Qed.

Lemma keys_of_exist (wanted : gset ustr) (pubs : list publication) :
  (∀ p, p ∈ pubs → ∃ key, dedupe_key p = Ok key ∧ key ∈ wanted) →
  ∃ keys, keys_of pubs keys ∧ ∀ key, key ∈ keys → key ∈ wanted.
Proof.
  induction pubs as [|p pubs IH]; intros Hall.
  - exists []. split; [constructor|]. intros key Hin. apply elem_of_nil in Hin. contradiction.
  - destruct (Hall p (list_elem_of_here _ _)) as (key & Hkey & Hin).
    destruct IH as (keys & Hk & Hins); [intros q Hq; apply Hall; right; exact Hq|].
    exists (key :: keys). split; [constructor; assumption|].
    intros key' [->|Hin']%elem_of_cons; auto.
Qed.

Lemma keys_of_elem pubs keys p :
  keys_of pubs keys → p ∈ pubs → ∃ key, dedupe_key p = Ok key ∧ key ∈ keys.
Proof.
  intros Hk Hp. apply list_elem_of_lookup in Hp as [i Hi].
  destruct (Forall2_lookup_l _ _ _ _ _ Hk Hi) as (key & Hkey & Hd).
  exists key. split; [exact Hd|]. eapply list_elem_of_lookup_2; eauto.
Qed.

End second_merge.

Section idempotence_claim.
Context `{Runtime}.

(** The second run of the stamping and dedupe passes, after the record
    has been merged a second time into what the first run produced. *)
Lemma second_pass (now now' : ustr) (before after : list (atom * author))
    (k : atom) (A : author) (merged : list publication)
    (r : gset ustr * list (atom * author)) :
  indexed (before ++ (k, set_publications A merged) :: after) →
  k ∉ before.*1 →
  scholar_id A = VAtom k → atom_truthy k = true →
  distinctly_identified merged →
  (∀ q, q ∈ publications A → ∃ x, q ∪ x ∈ merged) →
  distinctly_identified (publications A) →
  Forall titled (publications A) →
  Forall timestamp_missing_or_set (publications A) →
  dedupe_authors ∅
    (prod_map id (stamp_author (now ++ U "Z")) <$>
       (before ++ (k, set_publications A merged) :: after)) = Ok r →
  merge_results now' (od_values r.2) [A] = Ok (od_values r.2).
Proof.
  intros Hindexed Hk Hs Ht Hmerged Hlaid Hnew Htitled Hstamp Hd.
  set (st := prod_map id (stamp_author (now ++ U "Z"))) in *.
  (* what the first run produced is indexed and settled *)
  assert (indexed r.2) as Hindexed3.
  { eapply indexed_same_identity; [eapply dedupe_same_identity; exact Hd|].
    eapply indexed_same_identity; [apply stamp_same_identity|exact Hindexed]. }
  assert (settled r.2) as Hsettled3.
  { eapply dedupe_authors_settled; [exact Hd|].
    intros k0 a0 Hin. apply list_elem_of_fmap in Hin as ([k1 a1] & [= -> ->] & _).
    apply stamp_author_stamped. }
  (* the first run, author by author *)
  rewrite fmap_app, fmap_cons in Hd. rewrite dedupe_authors_app in Hd.
  apply bind_ok in Hd as (rL & HrL & Hd). apply bind_ok in Hd as (r2 & Hr2 & Hd).
  injection Hd as <-. simpl in Hr2.
  apply bind_ok in Hr2 as (rK & HrK & Hr2). apply bind_ok in Hr2 as (rR & HrR & Hr2).
  injection Hr2 as <-. simpl in *.
  change (publications (stamp_author (now ++ U "Z") (set_publications A merged)))
    with (stamp (now ++ U "Z") <$> merged) in HrK.
  set (a3 := set_publications (stamp_author (now ++ U "Z") (set_publications A merged)) rK.2)
    in *.
  assert (rL.2.*1 = before.*1) as HkeysL.
  { rewrite (same_identity_keys _ _ (dedupe_same_identity _ _ _ HrL)).
    apply same_identity_keys, stamp_same_identity. }
  apply settled_app in Hsettled3 as [HsettledL HsettledR].
  assert (settled rR.2) as HsettledR'.
  { intros k0 a0 Hin. apply (HsettledR k0 a0). right. exact Hin. }
  destruct (HsettledR k a3 (list_elem_of_here _ _)) as (pubs3 & Hpubs3 & HstampedK).
  injection Hpubs3 as <-.
  (* the survivors of the record's publications *)
  assert (rK.2 `sublist_of` stamp (now ++ U "Z") <$> merged) as Hsub
    by (eapply dedupe_pubs_sublist; exact HrK).
  assert (distinctly_identified rK.2) as HidK.
  { eapply distinctly_identified_sublist; [exact Hsub|].
    apply distinctly_identified_stamp, Hmerged. }
  assert (∀ q, q ∈ publications A →
            ∃ x, stamp (now ++ U "Z") (q ∪ x) ∈ stamp (now ++ U "Z") <$> merged ∧
                 q ∪ x ∈ merged) as Hlaid'.
  { intros q Hq. destruct (Hlaid q Hq) as [x Hx]. exists x.
    split; [apply list_elem_of_fmap; eauto|exact Hx]. }
  assert (∀ q, q ∈ publications A → identified q) as HidA.
  { destruct Hnew as [Hid _]. rewrite Forall_forall in Hid. exact Hid. }
  assert (∀ q x, q ∈ publications A → pid (q ∪ x) = pid q) as Hpid.
  { intros q x Hq. destruct (identified_pid q (HidA q Hq)) as [Hq1 Hq2].
    unfold pid at 1. rewrite (author_pub_id_union q x _ Hq1 Hq2). reflexivity. }
  assert (∀ s q, s ∈ rK.2 → q ∈ publications A → pid q = pid s → q ∪ s = s) as Habs.
  { intros s q Hsin Hq Hpq.
    pose proof (elem_of_sublist _ _ _ Hsin Hsub) as Hs'.
    apply list_elem_of_fmap in Hs' as (m & -> & Hm).
    destruct (Hlaid q Hq) as [x Hx].
    assert (m = q ∪ x) as ->.
    { apply (distinctly_identified_inj merged); auto.
      rewrite stamp_pid in Hpq. rewrite (Hpid q x Hq). congruence. }
    apply resighting_absorbed. rewrite Forall_forall in Hstamp. auto. }
  (* the second merge *)
  unfold merge_results.
  rewrite (foldM_index_author_values _ [] Hindexed3). simpl.
  rewrite (merge_author_known _ _ k a3 Hs Ht)
    by (apply od_get_middle; rewrite HkeysL; exact Hk).
  change (publications a3) with rK.2.
  rewrite (merge_publications_resighting _ _ HidK Hnew Habs). simpl.
  rewrite od_set_middle by (rewrite HkeysL; exact Hk).
  rewrite fmap_app, fmap_cons.
  rewrite (stamp_settled _ _ HsettledL), (stamp_settled _ _ HsettledR').
  (* the second run of the dedupe pass *)
  rewrite dedupe_authors_app. rewrite (dedupe_authors_idem _ _ _ HrL). simpl.
  set (extra := filter (λ q, pid q ∉ pid <$> rK.2) (publications A)).
  change (publications (stamp_author (now' ++ U "Z")
            (set_publications A (rK.2 ++ extra))))
    with (stamp (now' ++ U "Z") <$> (rK.2 ++ extra)).
  rewrite fmap_app, (stamp_fmap_stamped _ _ HstampedK).
  destruct (dedupe_pubs_ok _ _ _ HrK) as [keys1 Hkeys1].
  assert (rK.1 = list_to_set keys1 ∪ rL.1) as HseenK.
  { rewrite (dedupe_pubs_first_seen _ _ _ Hkeys1) in HrK. injection HrK as <-. reflexivity. }
  destruct (keys_of_exist rK.1 (stamp (now' ++ U "Z") <$> extra)) as (extra_keys & Hek & Hein).
  { intros p Hp. apply list_elem_of_fmap in Hp as (q & -> & Hq).
    apply list_elem_of_filter in Hq as [_ Hq].
    destruct (Hlaid' q Hq) as (x & Hin & _).
    destruct (keys_of_elem _ _ _ Hkeys1 Hin) as (key & Hkey & Hkin).
    exists key. split; [|rewrite HseenK; set_solver].
    rewrite stamp_dedupe_key in *. rewrite <- Hkey. symmetry.
    apply titled_union_key; [rewrite Forall_forall in Htitled; auto|].
    apply identified_has_id, HidA, Hq. }
  rewrite (dedupe_pubs_absorbs _ _ _ _ _ HrK Hek Hein). simpl.
  rewrite (dedupe_authors_idem _ _ _ HrR). simpl.
  reflexivity.
Qed.

(** A record without [scholar_id] is skipped by both merges; the second
    run then finds the dataset as the first run left it. *)
Lemma second_pass_skipped (now now' : ustr) (author_map : list (atom * author))
    (A : author) (r : gset ustr * list (atom * author)) :
  indexed author_map →
  (∀ m, merge_author m A = Ok m) →
  dedupe_authors ∅ (prod_map id (stamp_author (now ++ U "Z")) <$> author_map) = Ok r →
  merge_results now' (od_values r.2) [A] = Ok (od_values r.2).
Proof.
  intros Hindexed Hskip Hd.
  assert (indexed r.2) as Hindexed3.
  { eapply indexed_same_identity; [eapply dedupe_same_identity; exact Hd|].
    eapply indexed_same_identity; [apply stamp_same_identity|exact Hindexed]. }
  assert (settled r.2) as Hsettled3.
  { eapply dedupe_authors_settled; [exact Hd|].
    intros k0 a0 Hin. apply list_elem_of_fmap in Hin as ([k1 a1] & [= -> ->] & _).
    apply stamp_author_stamped. }
  unfold merge_results.
  rewrite (foldM_index_author_values _ [] Hindexed3). simpl.
  rewrite Hskip. simpl. rewrite (stamp_settled _ _ Hsettled3).
  rewrite (dedupe_authors_idem _ _ _ Hd). reflexivity.
Qed.

Lemma merge_author_skips (A : author) :
  truthy (scholar_id A) = false → ∀ m, merge_author m A = Ok m.
Proof.
  intros Hf m. unfold merge_author. rewrite Hf. simpl.
  destruct (author_is_empty A); reflexivity.
Qed.

(** C9 (as amended).  Let the publications of an author record have
    non-empty, pairwise distinct [author_pub_id], each with a non-empty
    string [title] and with [last_scraped] missing or set.  If merging the
    record into a dataset gives a dataset, merging the unchanged record
    into that dataset again, at any later time, gives the same dataset. *)
Theorem second_merge_changes_nothing
    (now now' : ustr) (dataset : list author) (A : author) (first : list author) :
  distinctly_identified (publications A) →
  Forall titled (publications A) →
  Forall timestamp_missing_or_set (publications A) →
  merge_results now dataset [A] = Ok first →
  merge_results now' first [A] = Ok first.
Proof.
  intros Hnew Htitled Hstamp Hfirst.
  unfold merge_results in Hfirst.
  apply bind_ok in Hfirst as (am0 & Ham0 & Hfirst).
  apply bind_ok in Hfirst as (am1 & Ham1 & Hfirst).
  apply bind_ok in Hfirst as (r & Hr & Hfirst). injection Hfirst as <-.
  simpl in Ham1. apply bind_ok in Ham1 as (am1' & Ham1 & Heq). injection Heq as ->.
  assert (indexed am0) as Hi0
    by (eapply foldM_index_author_indexed; [apply indexed_nil|exact Ham0]).
  assert (indexed am1) as Hi1 by (eapply merge_author_indexed; eauto).
  destruct (truthy (scholar_id A)) eqn:Hsid; cycle 1.
  { pose proof (merge_author_skips A Hsid) as Hskip.
    rewrite Hskip in Ham1. injection Ham1 as <-.
    eapply second_pass_skipped; eauto. }
  assert (∃ k, scholar_id A = VAtom k ∧ atom_truthy k = true) as (k & Hs & Ht).
  { unfold merge_author in Ham1.
    rewrite (truthy_scholar_id_not_empty _ Hsid), Hsid in Ham1. simpl in Ham1.
    destruct (scholar_id A) as [k| |]; simpl in Ham1; try discriminate.
    exists k. auto. }
  destruct (merge_author_shape _ _ _ _ Hs Ht Hnew Ham1)
    as (before & after & merged & -> & Hk & Hmerged & Hlaid).
  eapply second_pass; eauto.
Qed.

End idempotence_claim.

(** * The claims on sample data *)

Section instances.
Local Existing Instance ascii_runtime.

(** The example of C1: the sparse re-sighting leaves [pages] in place. *)
Lemma sparse_resighting_keeps_pages :
  merge_results ex_now [ex_author "A1" [ex_prior]] [ex_author "A1" [ex_sparse]] =
    Ok [ex_author "A1"
          [dict_of [("author_pub_id", str "p1"); ("title", str "T");
                    ("pages", str "1-9");
                    ("last_scraped", str "2024-01-11T00:00:00Z")]]].
Proof. vm_compute. reflexivity. Qed.

(** C1 as stated fails: a field that is present but empty on the
    incoming side replaces the recorded value. *)
Lemma empty_incoming_field_erases_recorded_value :
  truthy (get ex_blank "pages") = false ∧
  get ex_prior "pages" = str "1-9" ∧
  ∃ merged,
    merge_results ex_now [ex_author "A1" [ex_prior]] [ex_author "A1" [ex_blank]] =
      Ok [ex_author "A1" [merged]] ∧
    author_pub_id merged = author_pub_id ex_prior ∧
    get merged "pages" = str "".
Proof.
  split; [reflexivity|]. split; [reflexivity|].
  exists (dict_of [("author_pub_id", str "p1"); ("title", str "T"); ("pages", str "");
                   ("last_scraped", str "2024-01-11T00:00:00Z")]).
  repeat split; vm_compute; reflexivity.
Qed.

Lemma merged_publication_overlays_prior_witness :
  ∃ author_map' merged_author merged,
    merge_author [(ex_key "A1", ex_author "A1" [ex_prior])] (ex_author "A1" [ex_sparse])
      = Ok author_map' ∧
    od_get (ex_key "A1") author_map' = Some merged_author ∧
    merged ∈ publications merged_author ∧
    overlaid ex_sparse ex_prior merged.
Proof.
  apply (merged_publication_overlays_prior
           [(ex_key "A1", ex_author "A1" [ex_prior])]
           (ex_author "A1" [ex_sparse]) (ex_author "A1" [ex_prior])
           (ex_key "A1") ex_sparse ex_prior).
  - reflexivity.
  - reflexivity.
  - reflexivity.
  - repeat constructor. exists (AStr (U "p1")). reflexivity.
  - repeat constructor. exists (AStr (U "p1")). reflexivity.
  - apply list_elem_of_here.
  - apply list_elem_of_here.
  - reflexivity.
  - reflexivity.
  - intros q Hq _. apply list_elem_of_singleton in Hq. exact Hq.
  - intros p Hp _. apply list_elem_of_singleton in Hp. exact Hp.
Defined.

(** C2 as stated fails: a recorded publication without [author_pub_id]
    is gone after the merge. *)
Lemma merge_drops_unidentified_prior_publication :
  ex_draft ∈ publications (ex_author "A1" [ex_draft; ex_prior]) ∧
  ∃ merged,
    merge_author [(ex_key "A1", ex_author "A1" [ex_draft; ex_prior])]
      (ex_author "A1" [ex_sparse])
      = Ok [(ex_key "A1", ex_author "A1" [merged])] ∧
    get merged "title" ≠ get ex_draft "title".
Proof.
  split; [apply list_elem_of_here|].
  exists (dict_of [("author_pub_id", str "p1"); ("title", str "T"); ("pages", str "1-9")]).
  split; [vm_compute; reflexivity|]. vm_compute. discriminate.
Qed.

Lemma merge_keeps_identified_publications_witness :
  ∃ author_map' merged_author,
    merge_author [(ex_key "A1", ex_author "A1" [ex_draft; ex_prior])]
      (ex_author "A1" [ex_sparse]) = Ok author_map' ∧
    od_get (ex_key "A1") author_map' = Some merged_author ∧
    (∀ p, p ∈ publications (ex_author "A1" [ex_draft; ex_prior]) → has_id p = true →
       ∃ m, m ∈ publications merged_author ∧ author_pub_id m = author_pub_id p) ∧
    (∀ m, m ∈ publications merged_author → has_id m = true).
Proof.
  apply (merge_keeps_identified_publications
           [(ex_key "A1", ex_author "A1" [ex_draft; ex_prior])]
           (ex_author "A1" [ex_sparse]) (ex_author "A1" [ex_draft; ex_prior])
           (ex_key "A1")).
  - reflexivity.
  - reflexivity.
  - reflexivity.
  - repeat constructor; [exists ANone | exists (AStr (U "p1"))]; reflexivity.
  - repeat constructor. exists (AStr (U "p1")). reflexivity.
Defined.

(** C3 as stated fails: an incoming publication without
    [author_pub_id] is not inserted when its author is already known. *)
Lemma incoming_unidentified_publication_is_discarded :
  ex_new_result ∈ publications (ex_author "A1" [ex_new_result; ex_sparse]) ∧
  has_id ex_new_result = false ∧
  ∃ merged,
    merge_author [(ex_key "A1", ex_author "A1" [ex_prior])]
      (ex_author "A1" [ex_new_result; ex_sparse])
      = Ok [(ex_key "A1", ex_author "A1" [merged])] ∧
    merged ≠ ex_new_result.
Proof.
  split; [apply list_elem_of_here|]. split; [reflexivity|].
  exists (dict_of [("author_pub_id", str "p1"); ("title", str "T"); ("pages", str "1-9")]).
  split; [vm_compute; reflexivity|]. vm_compute. discriminate.
Qed.

Lemma incoming_publication_without_id_is_skipped_witness :
  merge_author [(ex_key "A1", ex_author "A1" [ex_prior])]
    (ex_author "A1" [ex_new_result; ex_sparse]) =
  merge_author [(ex_key "A1", ex_author "A1" [ex_prior])]
    (set_publications (ex_author "A1" [ex_new_result; ex_sparse]) ([] ++ [ex_sparse])) ∧
  ∀ author_map' merged_author,
    merge_author [(ex_key "A1", ex_author "A1" [ex_prior])]
      (ex_author "A1" [ex_new_result; ex_sparse]) = Ok author_map' →
    od_get (ex_key "A1") author_map' = Some merged_author →
    ex_new_result ∉ publications merged_author.
Proof.
  apply (incoming_publication_without_id_is_skipped
           [(ex_key "A1", ex_author "A1" [ex_prior])]
           (ex_author "A1" [ex_new_result; ex_sparse]) (ex_author "A1" [ex_prior])
           (ex_key "A1") [] [ex_sparse] ex_new_result);
    reflexivity.
Defined.

(** The example of C4: of the two spellings only the first survives. *)
Lemma deep_learning_collapses :
  dedupe_pubs ∅ [ex_deep_1; ex_deep_2] = Ok ({[U "deep learning"]}, [ex_deep_1]).
Proof. vm_compute. reflexivity. Qed.

(** The example of C7. *)
Lemma ten_days_old_is_selected_at_7_not_at_14 :
  check_author_needs_scraping ex_now_micros (ex_author "A1" [ex_ten_days_old]) 7
    = Ok (str "A1") ∧
  check_author_needs_scraping ex_now_micros (ex_author "A1" [ex_ten_days_old]) 14
    = Ok (VAtom ANone).
Proof. split; vm_compute; reflexivity. Qed.

Lemma check_author_needs_scraping_selects_witness :
  check_author_needs_scraping ex_now_micros (ex_author "A1" [ex_ten_days_old]) 7
    = Ok (scholar_id (ex_author "A1" [ex_ten_days_old])) ↔
  publications (ex_author "A1" [ex_ten_days_old]) = [] ∨
  Exists (needs_refresh ex_now_micros 7) (publications (ex_author "A1" [ex_ten_days_old])).
Proof.
  apply (check_author_needs_scraping_selects ex_now_micros
           (ex_author "A1" [ex_ten_days_old]) 7); [reflexivity|].
  vm_compute. discriminate.
Defined.

(** C8 at a failing save.  The docstring of [merge_and_save_results]
    promises to "write atomically to [results_file_path]"; when the
    temporary file cannot be created and the best-effort write in place
    breaks off, the call raises and the destination holds neither its
    old content nor the new one, but a partial write. *)
Lemma failed_fallback_leaves_partial_write :
  ∃ merged,
    merge_results ex_now [ex_author "A1" [ex_prior]] [ex_author "A1" [ex_sparse]]
      = Ok merged ∧
    let before := {["results.json" := Dataset [ex_author "A1" [ex_prior]]]} in
    let r := merge_and_save_results ex_bad_disk ex_now before
               [ex_author "A1" [ex_sparse]] "results.json" in
    r.2 = Raise io_error ∧
    r.1 !! "results.json" = Some (Truncated merged) ∧
    r.1 !! "results.json" ≠ before !! "results.json" ∧
    r.1 !! "results.json" ≠ Some (Dataset merged).
Proof.
  eexists. split; [vm_compute; reflexivity|].
  repeat split; vm_compute; try reflexivity; discriminate.
Qed.

Lemma save_is_atomic_unless_fallback_fails_witness :
  let before := {["results.json" := Dataset [ex_author "A1" [ex_prior]]]} in
  let merged :=
    [ex_author "A1"
       [dict_of [("author_pub_id", str "p1"); ("title", str "T"); ("pages", str "1-9");
                 ("last_scraped", str "2024-01-11T00:00:00Z")]]] in
  let r := merge_and_save_results no_faults ex_now before
             [ex_author "A1" [ex_sparse]] "results.json" in
  r.2 = Ok () ∧ r.1 !! "results.json" = Some (Dataset merged).
Proof.
  intros before merged r.
  assert (merge_results ex_now (read_existing (read_fails no_faults) before "results.json")
            [ex_author "A1" [ex_sparse]] = Ok merged) as Hm
    by (vm_compute; reflexivity).
  destruct (proj1 (save_is_atomic_unless_fallback_fails no_faults ex_now before
                     [ex_author "A1" [ex_sparse]] merged "results.json" Hm)
              eq_refl eq_refl) as (Hr & Hf & _).
  exact (conj Hr Hf).
Defined.

(** C9 as stated fails: a record with a publication that has no id is
    merged into the empty dataset; merging it again removes the
    publication. *)
Lemma second_merge_changes_dataset :
  ∃ first second,
    merge_results ex_now [] [ex_author "A1" [ex_draft]] = Ok first ∧
    merge_results ex_now first [ex_author "A1" [ex_draft]] = Ok second ∧
    all_publications first ≠ [] ∧
    all_publications second = [] ∧
    first ≠ second.
Proof.
  eexists. eexists. split; [vm_compute; reflexivity|].
  split; [vm_compute; reflexivity|].
  split; [vm_compute; discriminate|]. split; [vm_compute; reflexivity|].
  vm_compute. discriminate.
Qed.

Lemma second_merge_changes_nothing_witness :
  merge_results ex_later
    [ex_author "A1"
       [dict_of [("author_pub_id", str "p1"); ("title", str "T"); ("pages", str "1-9");
                 ("last_scraped", str "2024-01-11T00:00:00Z")]]]
    [ex_author "A1" [ex_sparse]] =
  Ok [ex_author "A1"
        [dict_of [("author_pub_id", str "p1"); ("title", str "T"); ("pages", str "1-9");
                  ("last_scraped", str "2024-01-11T00:00:00Z")]]].
Proof.
  apply (second_merge_changes_nothing ex_now ex_later
           [ex_author "A1" [ex_prior]] (ex_author "A1" [ex_sparse])).
  - split.
    + repeat constructor. exists (AStr (U "p1")). split; reflexivity.
    + repeat constructor; try apply not_elem_of_nil.
  - repeat constructor. exists (U "T"). split; [reflexivity|discriminate].
  - constructor; [left; reflexivity|constructor].
  - vm_compute. reflexivity.
Defined.

(** The example of C10: the second author's bare publication is dropped. *)
Lemma second_bare_publication_is_dropped :
  merge_results ex_now [] [ex_author "A1" [ex_bare]; ex_author "A2" [ex_bare]] =
    Ok [ex_author "A1" [stamp (ex_now ++ U "Z") ex_bare]; ex_author "A2" []].
Proof. vm_compute. reflexivity. Qed.

Lemma at_most_one_title_less_id_less_survives_witness :
  (∀ p, title_less_id_less p = true → dedupe_key p = Ok (U "__id__:")) ∧
  (length (List.filter title_less_id_less
             (all_publications
                [ex_author "A1" [stamp (ex_now ++ U "Z") ex_bare]; ex_author "A2" []]))
     ≤ 1)%nat.
Proof.
  apply (at_most_one_title_less_id_less_survives ex_now []
           [ex_author "A1" [ex_bare]; ex_author "A2" [ex_bare]]).
  vm_compute. reflexivity.
Defined.

(** The example of C5: the third of five identities meets the block. *)
Lemma third_identity_blocked :
  w_fetched ex_run.1.1 = [U "a1"; U "a2"; U "a3"] ∧
  w_files ex_run.1.1 !! "results.json" =
    Some (Dataset [set_publications (ex_fetched (U "a1"))
                     (stamp (ex_now ++ U "Z") <$> publications (ex_fetched (U "a1")));
                   set_publications (ex_fetched (U "a2"))
                     (stamp (ex_now ++ U "Z") <$> publications (ex_fetched (U "a2")))]) ∧
  ex_run.1.2 = [ex_fetched (U "a1"); ex_fetched (U "a2")] ∧
  ex_run.2 = Raise (mkExn Exception
               (U "CAPTCHA_DETECTED: CAPTCHA encountered while processing a3")) ∧
  handle_scrape_exception ex_env "results.json"
    (mkExn Exception (U "CAPTCHA_DETECTED: CAPTCHA encountered while processing a3"))
    ex_run.1.2 ex_run.1.1 =
    ({| w_files := w_files ex_run.1.1;
        w_clock := w_clock ex_run.1.1;
        w_fetched := w_fetched ex_run.1.1;
        w_saves := 2;
        w_proxies := 0 |}, Exit 3).
Proof. repeat split; vm_compute; reflexivity. Qed.


(** C6 on the typed exception: [crawl] does not classify it as a block.
    It returns [None], the run goes on to the remaining identities and
    ends normally, although the exception itself is one that
    [start_scraping] would have classified as a CAPTCHA. *)
Lemma typed_captcha_exception_is_not_classified :
  let e := mkExn CaptchaDetectedException
             (U "Google Scholar answered with a challenge page") in
  getAuthorData ex_typed_env 0 (U "a3") [] = Raise e ∧
  is_captcha e = true ∧
  check_for_captcha (exn_msg e) = false ∧
  (crawl ex_typed_env (U "a3") [] ex_world).2 = Ok None ∧
  w_fetched ex_typed_run.1.1 = ex_ids ∧
  ex_typed_run.2 = Ok ().
Proof. repeat split; vm_compute; reflexivity. Qed.

End instances.

(** * Further properties of the reconciliation engine

    Invariants of the dataset that [merge_and_save_results] writes. *)

Section dataset_invariants.
Context `{Runtime}.

Lemma foldM_merge_author_indexed partial_authors : ∀ author_map author_map',
  indexed author_map → foldM merge_author author_map partial_authors = Ok author_map' →
  indexed author_map'.
Proof.
  induction partial_authors as [|a l IH]; intros am am' Hi; simpl.
  - intros [= <-]. exact Hi.
  - intros Hf. apply bind_ok in Hf as (am1 & H1 & Hf).
    eapply IH; [|exact Hf]. eapply merge_author_indexed; eauto.
Qed.

(** What the three passes of [merge_results] hand to one another. *)
Lemma merge_results_passes now existing partial_authors merged :
  merge_results now existing partial_authors = Ok merged →
  ∃ am0 am1 r,
    foldM index_author [] existing = Ok am0 ∧
    foldM merge_author am0 partial_authors = Ok am1 ∧
    dedupe_authors ∅ (prod_map id (stamp_author (now ++ U "Z")) <$> am1) = Ok r ∧
    merged = od_values r.2 ∧
    indexed am0 ∧ indexed am1 ∧ indexed r.2 ∧
    r.2.*1 = am1.*1 ∧
    Forall2 (λ e e', e'.1 = e.1 ∧ a_fields e'.2 = a_fields e.2) am1 r.2.
Proof.
  intros Hm. unfold merge_results in Hm.
  apply bind_ok in Hm as (am0 & H0 & Hm). apply bind_ok in Hm as (am1 & H1 & Hm).
  apply bind_ok in Hm as (r & Hd & Hm). injection Hm as <-.
  exists am0, am1, r.
  assert (indexed am0) as Hi0 by (eapply foldM_index_author_indexed; eauto using indexed_nil).
  assert (indexed am1) as Hi1 by (eapply foldM_merge_author_indexed; eauto).
  pose proof (stamp_same_identity (now ++ U "Z") am1) as Hs.
  pose proof (dedupe_same_identity _ _ _ Hd) as Hdd.
  assert (Forall2 (λ e e', e'.1 = e.1 ∧ a_fields e'.2 = a_fields e.2) am1 r.2) as Hid.
  { clear -Hs Hdd. revert Hdd. generalize r.2.
    induction Hs as [|e e' l l' [He1 He2] _ IH]; intros l2 Hdd.
    - inversion Hdd. constructor.
    - inversion Hdd as [|e1 e2 l1 l3 [Ha Hb] Hrest]; subst.
      constructor; [split; congruence|apply IH, Hrest]. }
  split; [exact H0|]. split; [exact H1|]. split; [exact Hd|].
  split; [reflexivity|]. split; [exact Hi0|]. split; [exact Hi1|].
  split; [eapply indexed_same_identity; [exact Hid|exact Hi1]|].
  split; [apply same_identity_keys, Hid|exact Hid].
Qed.

Lemma indexed_scholar_ids (author_map : list (atom * author)) :
  indexed author_map → scholar_id <$> od_values author_map = VAtom <$> author_map.*1.
Proof.
  intros [_ Hk]. unfold od_values.
  induction author_map as [|[k a] l IH]; [reflexivity|].
  rewrite !fmap_cons. simpl. f_equal.
  - apply (Hk k a). left.
  - apply IH. intros k' a' Hin. apply Hk. right. exact Hin.
Qed.

(** X1.  The authors of a dataset written by [merge_and_save_results]
    all carry a non-empty [scholar_id], and no two of them carry the
    same one. *)
Theorem merged_authors_have_distinct_scholar_ids
    (now : ustr) (existing partial_authors merged : list author) :
  merge_results now existing partial_authors = Ok merged →
  Forall identified_author merged ∧ NoDup (scholar_id <$> merged).
Proof.
  intros Hm.
  destruct (merge_results_passes _ _ _ _ Hm)
    as (am0 & am1 & r & _ & _ & _ & -> & _ & _ & Hi & _).
  split.
  - apply Forall_forall. intros a Hin. unfold od_values in Hin.
    apply list_elem_of_fmap in Hin as ([k a'] & -> & Hin).
    exists k. apply (proj2 Hi), Hin.
  - rewrite (indexed_scholar_ids _ Hi).
    apply NoDup_fmap; [|exact (proj1 Hi)]. intros x y [=]. assumption.
Qed.

(** X2.  In a dataset written by [merge_and_save_results] every author
    has a [publications] list and every publication in it carries a
    [last_scraped]: the freshness check never finds the field missing in
    what a save has written. *)
Theorem merged_publications_are_stamped
    (now : ustr) (existing partial_authors merged : list author) (a : author) :
  merge_results now existing partial_authors = Ok merged →
  a ∈ merged →
  ∃ pubs, a_pubs a = Some pubs ∧ Forall stamped pubs.
Proof.
  intros Hm Hin.
  destruct (merge_results_passes _ _ _ _ Hm)
    as (am0 & am1 & r & _ & _ & Hd & -> & _).
  assert (settled r.2) as Hs.
  { eapply dedupe_authors_settled; [exact Hd|].
    intros k0 a0 Hin0. apply list_elem_of_fmap in Hin0 as ([k1 a1] & [= -> ->] & _).
    apply stamp_author_stamped. }
  unfold od_values in Hin. apply list_elem_of_fmap in Hin as ([k a'] & -> & Hin).
  exact (Hs k a' Hin).
Qed.

Lemma keys_of_app_inv pubs1 pubs2 keys :
  keys_of (pubs1 ++ pubs2) keys →
  ∃ keys1 keys2, keys = keys1 ++ keys2 ∧ keys_of pubs1 keys1 ∧ keys_of pubs2 keys2.
Proof.
  unfold keys_of. intros Hk. apply Forall2_app_inv_l in Hk as (k1 & k2 & H1 & H2 & ->).
  eauto.
Qed.

Lemma all_publications_app d1 d2 :
  all_publications (d1 ++ d2) = all_publications d1 ++ all_publications d2.
Proof. unfold all_publications. apply bind_app. Qed.

Lemma all_publications_cons a d :
  all_publications (a :: d) = publications a ++ all_publications d.
Proof. reflexivity. Qed.

(** X3.  Titles are deduplicated across the whole dataset, not per
    author: two publications that survive under two different authors
    of a written dataset never have the same dedupe key.  A paper listed
    under two tracked authors is kept under the first of them only. *)
Theorem publications_of_two_authors_never_share_a_key
    (now : ustr) (existing partial_authors merged before between after : list author)
    (a b : author) (p q : publication) :
  merge_results now existing partial_authors = Ok merged →
  merged = before ++ a :: between ++ b :: after →
  p ∈ publications a → q ∈ publications b →
  ∃ key_p key_q,
    dedupe_key p = Ok key_p ∧ dedupe_key q = Ok key_q ∧ key_p ≠ key_q.
Proof.
  intros Hm Hsplit Hp Hq.
  destruct (merge_results_passes _ _ _ _ Hm)
    as (am0 & am1 & r & _ & _ & Hd & Hmerged & _).
  destruct (dedupe_authors_keys _ _ _ Hd) as (keys & Hk & Hnd & _).
  rewrite <- Hmerged, Hsplit in Hk.
  rewrite all_publications_app, all_publications_cons,
    all_publications_app, all_publications_cons in Hk.
  apply keys_of_app_inv in Hk as (k1 & r1 & -> & _ & Hk).
  apply keys_of_app_inv in Hk as (ka & r2 & -> & Hka & Hk).
  apply keys_of_app_inv in Hk as (k2 & r3 & -> & _ & Hk).
  apply keys_of_app_inv in Hk as (kb & k3 & -> & Hkb & _).
  destruct (keys_of_elem _ _ _ Hka Hp) as (key_p & Hkp & Hinp).
  destruct (keys_of_elem _ _ _ Hkb Hq) as (key_q & Hkq & Hinq).
  exists key_p, key_q. split; [exact Hkp|]. split; [exact Hkq|].
  intros ->.
  apply NoDup_app in Hnd as (_ & _ & Hnd).
  apply NoDup_app in Hnd as (_ & Hdisj & _).
  apply (Hdisj key_q Hinp). set_solver.
Qed.

Lemma od_set_keys_elem {V} (k k' : atom) (v : V) d :
  k' ∈ (od_set k v d).*1 ↔ k' = k ∨ k' ∈ d.*1.
Proof.
  induction d as [|[k0 v0] d IH]; simpl.
  - rewrite list_elem_of_singleton. set_solver.
  - destruct (decide (k = k0)) as [->|Hne]; simpl.
    + set_solver.
    + rewrite !elem_of_cons, IH. tauto.
Qed.

Lemma od_set_keys_grow {V} (k : atom) (v : V) d :
  ∃ new, (od_set k v d).*1 = d.*1 ++ new ∧ (new = [] ∨ (new = [k] ∧ k ∉ d.*1)).
Proof.
  destruct (od_get k d) as [v0|] eqn:Hg.
  - exists []. rewrite app_nil_r. split; [|left; reflexivity].
    exact (od_set_present _ _ _ _ Hg).
  - exists [k]. rewrite (od_set_absent _ _ _ Hg), fmap_app. split; [reflexivity|].
    right. split; [reflexivity|]. apply od_get_None, Hg.
Qed.

(** The keys of [author_map] after one record has been indexed or
    merged: the keys before, and the record's id when it has one. *)
Lemma index_author_keys author_map a author_map' :
  index_author author_map a = Ok author_map' →
  (∀ k, k ∈ author_map'.*1 ↔
        k ∈ author_map.*1 ∨ (scholar_id a = VAtom k ∧ atom_truthy k = true)) ∧
  ∃ new, author_map'.*1 = author_map.*1 ++ new ∧
         ∀ k, k ∈ new → scholar_id a = VAtom k ∧ k ∉ author_map.*1.
Proof.
  unfold index_author. destruct (scholar_id a) as [k0| |] eqn:Hs; simpl.
  - destruct (atom_truthy k0) eqn:Ht.
    + intros [= <-]. split.
      * intros k. rewrite od_set_keys_elem. split.
        -- intros [->|?]; auto.
        -- intros [?|[[= ->] _]]; auto.
      * destruct (od_set_keys_grow k0 a author_map) as (new & Hn & Hcase).
        exists new. split; [exact Hn|]. intros k Hk.
        destruct Hcase as [->|[-> Hnotin]].
        -- apply elem_of_nil in Hk. contradiction.
        -- apply list_elem_of_singleton in Hk as ->. auto.
    + intros [= <-]. split.
      * intros k. split; [auto|]. intros [?|[[= ->] Hk]]; [assumption|congruence].
      * exists []. rewrite app_nil_r. split; [reflexivity|].
        intros k Hk. apply elem_of_nil in Hk. contradiction.
  - destruct l; simpl; [|discriminate]. intros [= <-]. split.
    + intros k. split; [auto|]. intros [?|[[=] _]]. assumption.
    + exists []. rewrite app_nil_r. split; [reflexivity|].
      intros k Hk. apply elem_of_nil in Hk. contradiction.
  - destruct (bool_decide (d = ∅)); simpl; [|discriminate]. intros [= <-]. split.
    + intros k. split; [auto|]. intros [?|[[=] _]]. assumption.
    + exists []. rewrite app_nil_r. split; [reflexivity|].
      intros k Hk. apply elem_of_nil in Hk. contradiction.
Qed.

Lemma merge_author_keys author_map a author_map' :
  merge_author author_map a = Ok author_map' →
  (∀ k, k ∈ author_map'.*1 ↔
        k ∈ author_map.*1 ∨ (scholar_id a = VAtom k ∧ atom_truthy k = true)) ∧
  ∃ new, author_map'.*1 = author_map.*1 ++ new ∧
         ∀ k, k ∈ new → scholar_id a = VAtom k ∧ k ∉ author_map.*1.
Proof.
  assert (author_map' = author_map →
    (∀ k, scholar_id a = VAtom k → atom_truthy k = true → False) →
    (∀ k, k ∈ author_map'.*1 ↔
        k ∈ author_map.*1 ∨ (scholar_id a = VAtom k ∧ atom_truthy k = true)) ∧
    ∃ new, author_map'.*1 = author_map.*1 ++ new ∧
         ∀ k, k ∈ new → scholar_id a = VAtom k ∧ k ∉ author_map.*1) as Hsame.
  { intros -> Hno. split.
    - intros k. split; [auto|]. intros [?|[Hs Ht]]; [assumption|]. destruct (Hno k Hs Ht).
    - exists []. rewrite app_nil_r. split; [reflexivity|].
      intros k Hk. apply elem_of_nil in Hk. contradiction. }
  unfold merge_author. destruct (author_is_empty a) eqn:He.
  { intros [= <-]. apply Hsame; [reflexivity|]. intros k Hs Ht.
    assert (truthy (scholar_id a) = true) as Htr by (rewrite Hs; exact Ht).
    apply truthy_scholar_id_not_empty in Htr. congruence. }
  destruct (truthy (scholar_id a)) eqn:Ht; simpl.
  2:{ intros [= <-]. apply Hsame; [reflexivity|]. intros k Hs Hk.
      rewrite Hs in Ht. simpl in Ht. congruence. }
  destruct (scholar_id a) as [k0| |] eqn:Hs; simpl; try discriminate.
  simpl in Ht.
  assert (∀ v : author,
    (∀ k, k ∈ (od_set k0 v author_map).*1 ↔
        k ∈ author_map.*1 ∨ (VAtom k0 = VAtom k ∧ atom_truthy k = true)) ∧
    ∃ new, (od_set k0 v author_map).*1 = author_map.*1 ++ new ∧
         ∀ k, k ∈ new → VAtom k0 = VAtom k ∧ k ∉ author_map.*1) as Hset.
  { intros v. split.
    - intros k. rewrite od_set_keys_elem. split.
      + intros [->|?]; auto.
      + intros [?|[[= ->] _]]; auto.
    - destruct (od_set_keys_grow k0 v author_map) as (new & Hn & Hcase).
      exists new. split; [exact Hn|]. intros k Hk.
      destruct Hcase as [->|[-> Hnotin]].
      + apply elem_of_nil in Hk. contradiction.
      + apply list_elem_of_singleton in Hk as ->. auto. }
  destruct (od_get k0 author_map) as [old|].
  - intros Hm. apply bind_ok in Hm as (merged & _ & [= <-]). apply Hset.
  - intros [= <-]. apply Hset.
Qed.

Lemma foldM_keys (f : list (atom * author) → author → result (list (atom * author))) l :
  (∀ am a am', f am a = Ok am' →
     (∀ k, k ∈ am'.*1 ↔ k ∈ am.*1 ∨ (scholar_id a = VAtom k ∧ atom_truthy k = true)) ∧
     ∃ new, am'.*1 = am.*1 ++ new ∧ ∀ k, k ∈ new → scholar_id a = VAtom k ∧ k ∉ am.*1) →
  ∀ am am', foldM f am l = Ok am' →
    (∀ k, k ∈ am'.*1 ↔
          k ∈ am.*1 ∨ (atom_truthy k = true ∧ VAtom k ∈ scholar_id <$> l)) ∧
    ∃ new, am'.*1 = am.*1 ++ new ∧
           ∀ k, k ∈ new → VAtom k ∈ scholar_id <$> l ∧ k ∉ am.*1.
Proof.
  intros Hf. induction l as [|a l IH]; intros am am' Hm; simpl in Hm.
  - injection Hm as <-. split.
    + intros k. split; [auto|]. intros [?|[_ Hin]]; [assumption|].
      rewrite fmap_nil in Hin. apply elem_of_nil in Hin. contradiction.
    + exists []. rewrite app_nil_r. split; [reflexivity|].
      intros k Hk. apply elem_of_nil in Hk. contradiction.
  - apply bind_ok in Hm as (am1 & H1 & Hm).
    destruct (Hf _ _ _ H1) as (Hk1 & new1 & Hn1 & Hnew1).
    destruct (IH _ _ Hm) as (Hk2 & new2 & Hn2 & Hnew2). split.
    + intros k. rewrite Hk2, Hk1, fmap_cons, elem_of_cons. split.
      * intros [[Hin|[Hs Ht]]|[Ht Hin]].
        -- left. exact Hin.
        -- right. split; [exact Ht|]. left. symmetry. exact Hs.
        -- right. split; [exact Ht|]. right. exact Hin.
      * intros [Hin|[Ht [Hs|Hin]]].
        -- left. left. exact Hin.
        -- left. right. split; [symmetry; exact Hs|exact Ht].
        -- right. split; assumption.
    + exists (new1 ++ new2). rewrite Hn2, Hn1, app_assoc. split; [reflexivity|].
      intros k [Hk|Hk]%elem_of_app.
      * destruct (Hnew1 k Hk) as [Hs Hnotin]. split; [|exact Hnotin].
        rewrite fmap_cons, Hs. left.
      * destruct (Hnew2 k Hk) as [Hs Hnotin]. split.
        -- rewrite fmap_cons. right. exact Hs.
        -- rewrite Hn1 in Hnotin. set_solver.
Qed.

(** X4.  No identified author is ever lost and none is invented: the
    non-empty ids of the written dataset are those of the loaded
    dataset together with those of the scraped records. *)
Theorem merge_keeps_every_identified_author
    (now : ustr) (existing partial_authors merged : list author) (k : atom) :
  merge_results now existing partial_authors = Ok merged →
  atom_truthy k = true →
  (VAtom k ∈ scholar_id <$> merged ↔
   VAtom k ∈ scholar_id <$> (existing ++ partial_authors)).
Proof.
  intros Hm Ht.
  destruct (merge_results_passes _ _ _ _ Hm)
    as (am0 & am1 & r & H0 & H1 & _ & -> & _ & _ & Hi & Hkeys & _).
  rewrite (indexed_scholar_ids _ Hi), Hkeys.
  destruct (foldM_keys _ _ index_author_keys _ _ H0) as [Hk0 _].
  destruct (foldM_keys _ _ merge_author_keys _ _ H1) as [Hk1 _].
  rewrite fmap_app, elem_of_app. split.
  - intros Hin. apply list_elem_of_fmap in Hin as (k' & [= <-] & Hin).
    apply Hk1 in Hin as [Hin|[_ Hin]]; [|auto].
    apply Hk0 in Hin as [Hin|[_ Hin]]; [|auto].
    apply elem_of_nil in Hin. contradiction.
  - intros Hin. apply list_elem_of_fmap. exists k. split; [reflexivity|].
    apply Hk1. destruct Hin as [Hin|Hin]; [|auto].
    left. apply Hk0. auto.
Qed.

(** X5.  A merge never reorders the dataset: when the loaded authors
    have pairwise distinct non-empty ids, as every written dataset has,
    they keep their places, and the authors seen for the first time
    follow them. *)
Theorem merge_keeps_recorded_authors_in_place
    (now : ustr) (existing partial_authors merged : list author) :
  Forall identified_author existing →
  NoDup (scholar_id <$> existing) →
  merge_results now existing partial_authors = Ok merged →
  ∃ new,
    scholar_id <$> merged = (scholar_id <$> existing) ++ new ∧
    ∀ sid, sid ∈ new → sid ∈ scholar_id <$> partial_authors ∧
                       sid ∉ scholar_id <$> existing.
Proof.
  intros Hid Hnd Hm.
  destruct (merge_results_passes _ _ _ _ Hm)
    as (am0 & am1 & r & H0 & H1 & _ & -> & _ & _ & Hi & Hkeys & _).
  rewrite (indexed_scholar_ids _ Hi), Hkeys.
  assert (∀ pre am, foldM index_author pre existing = Ok am →
            (∀ k, k ∈ pre.*1 → VAtom k ∉ scholar_id <$> existing) →
            VAtom <$> am.*1 = (VAtom <$> pre.*1) ++ (scholar_id <$> existing)) as Hidx.
  { clear H0 Hm. induction existing as [|a l IH]; intros pre am Hf Hpre; simpl in Hf.
    - injection Hf as <-. rewrite fmap_nil, app_nil_r. reflexivity.
    - apply bind_ok in Hf as (pre1 & Hp1 & Hf).
      apply Forall_cons in Hid as [(k & Hs & Ht) Hid].
      rewrite fmap_cons in Hnd. apply NoDup_cons in Hnd as [Hnotin Hnd].
      rewrite (index_author_atom _ _ _ Hs Ht) in Hp1. injection Hp1 as <-.
      assert (od_get k pre = None) as Hnone.
      { apply od_get_None. intros Hin. apply (Hpre k Hin). rewrite fmap_cons, Hs. left. }
      rewrite (od_set_absent _ _ _ Hnone) in Hf.
      rewrite (IH Hid Hnd _ _ Hf).
      + rewrite !fmap_app, <- app_assoc. simpl. rewrite Hs. reflexivity.
      + intros k' Hin. rewrite fmap_app in Hin. apply elem_of_app in Hin as [Hin|Hin].
        * intros Hin'. apply (Hpre k' Hin). rewrite fmap_cons. right. exact Hin'.
        * simpl in Hin. apply list_elem_of_singleton in Hin as ->. rewrite <- Hs. exact Hnotin. }
  specialize (Hidx [] am0 H0). simpl in Hidx.
  destruct (foldM_keys _ _ merge_author_keys _ _ H1) as (_ & new & Hn & Hnew).
  exists (VAtom <$> new). rewrite Hn, fmap_app, Hidx.
  2:{ intros k Hin. apply elem_of_nil in Hin. contradiction. }
  split; [reflexivity|].
  intros sid Hin. apply list_elem_of_fmap in Hin as (k & -> & Hin).
  destruct (Hnew k Hin) as [Hp Hnotin]. split; [exact Hp|].
  rewrite <- Hidx. intros Hin'. apply Hnotin.
  apply list_elem_of_fmap in Hin' as (k' & [= <-] & Hin'). exact Hin'.
  intros k' Hk'. apply elem_of_nil in Hk'. contradiction.
Qed.

(** Merging a record leaves the entries of the other ids alone and
    stores the record itself, with a publication list, under its own. *)
Lemma merge_author_get_other author_map B author_map' k :
  merge_author author_map B = Ok author_map' →
  scholar_id B ≠ VAtom k →
  od_get k author_map' = od_get k author_map.
Proof.
  unfold merge_author. destruct (author_is_empty B); [intros [= <-]; reflexivity|].
  destruct (truthy (scholar_id B)); simpl; [|intros [= <-]; reflexivity].
  destruct (scholar_id B) as [k0| |]; simpl; try discriminate.
  intros Hm Hne. assert (k0 ≠ k) as Hne' by congruence.
  destruct (od_get k0 author_map).
  - apply bind_ok in Hm as (merged & _ & [= <-]). apply od_get_set_ne, Hne'.
  - injection Hm as <-. apply od_get_set_ne, Hne'.
Qed.

Lemma merge_author_get_own author_map A author_map' k :
  merge_author author_map A = Ok author_map' →
  scholar_id A = VAtom k → atom_truthy k = true →
  ∃ pubs, od_get k author_map' = Some (set_publications A pubs).
Proof.
  intros Hm Hs Ht. unfold merge_author in Hm.
  rewrite (scholar_id_not_empty _ _ Hs Ht), Hs in Hm. simpl in Hm. rewrite Ht in Hm.
  simpl in Hm. destruct (od_get k author_map).
  - apply bind_ok in Hm as (merged & _ & [= <-]). eexists. apply od_get_set_eq.
  - injection Hm as <-. eexists. apply od_get_set_eq.
Qed.

Lemma foldM_merge_author_get_other post : ∀ author_map author_map' k,
  foldM merge_author author_map post = Ok author_map' →
  (∀ B, B ∈ post → scholar_id B ≠ VAtom k) →
  od_get k author_map' = od_get k author_map.
Proof.
  induction post as [|B post IH]; intros am am' k Hf Hne; simpl in Hf.
  - injection Hf as <-. reflexivity.
  - apply bind_ok in Hf as (am1 & H1 & Hf).
    rewrite (IH _ _ k Hf) by (intros B' HB'; apply Hne; right; exact HB').
    eapply merge_author_get_other; [exact H1|]. apply Hne. left.
Qed.

Lemma same_identity_get (author_map author_map' : list (atom * author)) k a :
  Forall2 (λ e e', e'.1 = e.1 ∧ a_fields e'.2 = a_fields e.2) author_map author_map' →
  od_get k author_map = Some a →
  ∃ a', od_get k author_map' = Some a' ∧ a_fields a' = a_fields a.
Proof.
  induction 1 as [|[k1 a1] [k2 a2] l l' [Hk Hf] _ IH]; simpl; [discriminate|].
  simpl in Hk, Hf. subst k2. destruct (decide (k = k1)).
  - intros [= <-]. eauto.
  - exact IH.
Qed.

(** X6.  Only the publications of a known author are merged; the
    author's own fields are replaced.  After a merge the record stored
    under an id has exactly the author-level fields of the last scraped
    record with that id: a field that the dataset held and the scrape
    lacks is gone. *)
Theorem scraped_author_fields_replace_recorded
    (now : ustr) (existing pre post merged : list author) (A : author) (k : atom) :
  scholar_id A = VAtom k → atom_truthy k = true →
  (∀ B, B ∈ post → scholar_id B ≠ VAtom k) →
  merge_results now existing (pre ++ A :: post) = Ok merged →
  ∃ a, a ∈ merged ∧ a_fields a = a_fields A ∧
       ∀ b, b ∈ merged → scholar_id b = VAtom k → b = a.
Proof.
  intros Hs Ht Hpost Hm.
  destruct (merge_results_passes _ _ _ _ Hm)
    as (am0 & am1 & r & _ & H1 & _ & -> & _ & _ & Hi & _ & Hid).
  rewrite foldM_app in H1. apply bind_ok in H1 as (amp & _ & H1). simpl in H1.
  apply bind_ok in H1 as (amA & HA & H1).
  destruct (merge_author_get_own _ _ _ _ HA Hs Ht) as [pubs Hown].
  rewrite <- (foldM_merge_author_get_other _ _ _ _ H1 Hpost) in Hown.
  destruct (same_identity_get _ _ _ _ Hid Hown) as (a & Ha & Hfields).
  exists a. split; [eapply od_get_value, Ha|]. split; [exact Hfields|].
  intros b Hb Hsb. unfold od_values in Hb.
  apply list_elem_of_fmap in Hb as ([k' b'] & -> & Hb). simpl in Hsb.
  destruct (proj2 Hi k' b' Hb) as [Hsb' _].
  assert (k' = k) as -> by congruence.
  pose proof (od_elem_of_get _ _ _ (proj1 Hi) Hb) as Hget. simpl. congruence.
Qed.

(** X28.  A dataset that [merge_and_save_results] has written is a
    fixed point of the merge: saving again with nothing scraped, at any
    later time, writes the same dataset. *)
Theorem written_dataset_is_a_fixed_point
    (now now' : ustr) (existing partial_authors merged : list author) :
  merge_results now existing partial_authors = Ok merged →
  merge_results now' merged [] = Ok merged.
Proof.
  intros Hm.
  destruct (merge_results_passes _ _ _ _ Hm)
    as (am0 & am1 & r & _ & _ & Hd & -> & _ & _ & Hi & _).
  assert (settled r.2) as Hs.
  { eapply dedupe_authors_settled; [exact Hd|].
    intros k0 a0 Hin0. apply list_elem_of_fmap in Hin0 as ([k1 a1] & [= -> ->] & _).
    apply stamp_author_stamped. }
  unfold merge_results.
  rewrite (foldM_index_author_values r.2 [] Hi). simpl.
  rewrite (stamp_settled _ _ Hs).
  rewrite (dedupe_authors_idem _ _ _ Hd). reflexivity.
Qed.

(** *** Records of the expected shape never make the merge raise *)

Lemma get_union (q e : publication) (f : string) :
  get (q ∪ e) f = get q f ∨ get (q ∪ e) f = get e f.
Proof.
  unfold get. rewrite lookup_union. destruct (q !! f), (e !! f); simpl; auto.
Qed.

Lemma well_formed_union (q e : publication) :
  well_formed_publication q → well_formed_publication e →
  well_formed_publication (q ∪ e).
Proof.
  intros (Hq1 & Hq2 & Hq3) (He1 & He2 & He3). unfold well_formed_publication, hashable_id, author_pub_id in *.
  split; [|split].
  - destruct (get_union q e "author_pub_id") as [->| ->]; assumption.
  - destruct (get_union q e "title") as [->| ->]; assumption.
  - destruct (get_union q e "bib") as [->| ->]; assumption.
Qed.

Lemma get_stamp_other now_iso (p : publication) (f : string) :
  f ≠ "last_scraped"%string → get (stamp now_iso p) f = get p f.
Proof.
  intros Hne. unfold stamp. destruct (truthy (get p "last_scraped")); [reflexivity|].
  unfold get. rewrite lookup_insert_ne by congruence. reflexivity.
Qed.

Lemma well_formed_stamp now_iso (p : publication) :
  well_formed_publication p → well_formed_publication (stamp now_iso p).
Proof.
  unfold well_formed_publication, hashable_id, author_pub_id.
  rewrite !get_stamp_other by discriminate. tauto.
Qed.

Lemma well_formed_dedupe_key (p : publication) :
  well_formed_publication p → ∃ key, dedupe_key p = Ok key.
Proof.
  intros (_ & Ht & Hb).
  assert (∃ s, extract_title p = Ok (VAtom (AStr s))) as [s Hs].
  { unfold extract_title. destruct (truthy (get p "title")) eqn:Htt.
    - destruct Ht as [Ht|[s ->]]; [congruence|eauto].
    - destruct (truthy (get p "bib")) eqn:Htb; simpl; [|eauto].
      destruct Hb as [Hb|(d & Hd & Hbt)]; [congruence|]. rewrite Hd.
      destruct (atom_truthy (default ANone (d !! "title"))) eqn:Hbt'; [|eauto].
      destruct Hbt as [Hbt|[s Hbt]]; [simpl in Hbt; congruence|].
      injection Hbt as ->. eauto. }
  rewrite (dedupe_key_typed _ _ Hs). destruct (normalize s); eauto.
Qed.

Lemma dedupe_pubs_total pubs : ∀ seen,
  Forall well_formed_publication pubs → ∃ r, dedupe_pubs seen pubs = Ok r.
Proof.
  induction pubs as [|p pubs IH]; intros seen Hwf; simpl; [eauto|].
  apply Forall_cons in Hwf as [Hp Hwf].
  destruct (well_formed_dedupe_key p Hp) as [key ->]. simpl.
  destruct (decide (key ∈ seen)); [apply IH, Hwf|].
  destruct (IH ({[key]} ∪ seen) Hwf) as [r ->]. simpl. eauto.
Qed.

Lemma dedupe_authors_total author_map : ∀ seen,
  (∀ k a, (k, a) ∈ author_map → Forall well_formed_publication (publications a)) →
  ∃ r, dedupe_authors seen author_map = Ok r.
Proof.
  induction author_map as [|[k a] l IH]; intros seen Hwf; simpl; [eauto|].
  destruct (dedupe_pubs_total (publications a) seen) as [r ->];
    [apply (Hwf k a); left|]. simpl.
  destruct (IH r.1) as [r' ->]; [intros k' a' Hin; apply (Hwf k' a'); right; exact Hin|].
  simpl. eauto.
Qed.

Lemma index_pub_well_formed pub_map p pub_map' :
  well_formed_publication p → Forall well_formed_publication pub_map.*2 →
  index_pub pub_map p = Ok pub_map' → Forall well_formed_publication pub_map'.*2.
Proof.
  intros Hp Hm. destruct Hp as ([a Ha] & Hp). rewrite (index_pub_atom _ _ _ Ha).
  intros [= <-]. destruct (atom_truthy a); [|exact Hm].
  apply Forall_forall. intros x Hx. apply list_elem_of_fmap in Hx as ([k' x'] & -> & Hx).
  apply elem_of_od_set in Hx as [[_ ->]|Hx].
  - split; [exists a; exact Ha|exact Hp].
  - rewrite Forall_forall in Hm. apply Hm. apply list_elem_of_fmap. exists (k', x'). auto.
Qed.

Lemma merge_pub_well_formed pub_map q pub_map' :
  well_formed_publication q → Forall well_formed_publication pub_map.*2 →
  merge_pub pub_map q = Ok pub_map' → Forall well_formed_publication pub_map'.*2.
Proof.
  intros Hq Hm. pose proof Hq as ([a Ha] & _). rewrite (merge_pub_atom _ _ _ Ha).
  intros [= <-]. destruct (atom_truthy a); [|exact Hm].
  rewrite Forall_forall in Hm.
  apply Forall_forall. intros x Hx. apply list_elem_of_fmap in Hx as ([k' x'] & -> & Hx).
  apply elem_of_od_set in Hx as [[_ ->]|Hx].
  - destruct (od_get a pub_map) as [e|] eqn:Hg; [|exact Hq].
    apply well_formed_union; [exact Hq|]. apply Hm.
    apply list_elem_of_fmap. exists (a, e). split; [reflexivity|].
    apply od_get_elem_of, Hg.
  - apply Hm. apply list_elem_of_fmap. exists (k', x'). auto.
Qed.

Lemma foldM_well_formed
    (f : list (atom * publication) → publication → result (list (atom * publication))) l :
  (∀ m p m', well_formed_publication p → Forall well_formed_publication m.*2 →
     f m p = Ok m' → Forall well_formed_publication m'.*2) →
  ∀ m m', Forall well_formed_publication l → Forall well_formed_publication m.*2 →
    foldM f m l = Ok m' → Forall well_formed_publication m'.*2.
Proof.
  intros Hf. induction l as [|p l IH]; intros m m' Hl Hm Hfold; simpl in Hfold.
  - injection Hfold as <-. exact Hm.
  - apply Forall_cons in Hl as [Hp Hl]. apply bind_ok in Hfold as (m1 & H1 & Hfold).
    eapply IH; [exact Hl| |exact Hfold]. eapply Hf; eauto.
Qed.

Lemma merge_publications_well_formed old_pubs new_pubs :
  Forall well_formed_publication old_pubs → Forall well_formed_publication new_pubs →
  ∃ merged, merge_publications old_pubs new_pubs = Ok merged ∧
            Forall well_formed_publication merged.
Proof.
  intros Hold Hnew.
  assert (Forall hashable_id old_pubs) as Hho
    by (eapply Forall_impl; [exact Hold|]; intros p Hp; apply Hp).
  assert (Forall hashable_id new_pubs) as Hhn
    by (eapply Forall_impl; [exact Hnew|]; intros p Hp; apply Hp).
  destruct (merge_publications_total _ _ Hho Hhn) as [merged Hm].
  exists merged. split; [exact Hm|].
  unfold merge_publications, build_pub_map in Hm.
  apply bind_ok in Hm as (m0 & H0 & Hm). apply bind_ok in Hm as (m1 & H1 & [= <-]).
  eapply (foldM_well_formed merge_pub); [exact merge_pub_well_formed|exact Hnew| |exact H1].
  eapply (foldM_well_formed index_pub); [exact index_pub_well_formed|exact Hold| |exact H0].
  constructor.
Qed.

Lemma index_author_well_formed author_map a :
  well_formed_author a →
  (∀ k b, (k, b) ∈ author_map → Forall well_formed_publication (publications b)) →
  ∃ author_map', index_author author_map a = Ok author_map' ∧
    ∀ k b, (k, b) ∈ author_map' → Forall well_formed_publication (publications b).
Proof.
  intros [[k0 Hs] Hp] Hwf. unfold index_author. rewrite Hs. simpl.
  destruct (atom_truthy k0); [|eauto].
  eexists. split; [reflexivity|]. intros k b Hin.
  apply elem_of_od_set in Hin as [[_ ->]|Hin]; [exact Hp|eauto].
Qed.

Lemma merge_author_well_formed author_map a :
  well_formed_author a →
  (∀ k b, (k, b) ∈ author_map → Forall well_formed_publication (publications b)) →
  ∃ author_map', merge_author author_map a = Ok author_map' ∧
    ∀ k b, (k, b) ∈ author_map' → Forall well_formed_publication (publications b).
Proof.
  intros [[k0 Hs] Hp] Hwf. unfold merge_author.
  destruct (author_is_empty a); [eauto|]. rewrite Hs. simpl.
  destruct (atom_truthy k0); simpl; [|eauto].
  destruct (od_get k0 author_map) as [old|] eqn:Hg.
  - destruct (merge_publications_well_formed (publications old) (publications a))
      as (merged & -> & Hm); [apply (Hwf k0 old), od_get_elem_of, Hg|exact Hp|].
    simpl. eexists. split; [reflexivity|]. intros k b Hin.
    apply elem_of_od_set in Hin as [[_ ->]|Hin]; [exact Hm|eauto].
  - eexists. split; [reflexivity|]. intros k b Hin.
    apply elem_of_od_set in Hin as [[_ ->]|Hin]; [exact Hp|eauto].
Qed.

Lemma foldM_authors_well_formed
    (f : list (atom * author) → author → result (list (atom * author))) l :
  (∀ am a, well_formed_author a →
     (∀ k b, (k, b) ∈ am → Forall well_formed_publication (publications b)) →
     ∃ am', f am a = Ok am' ∧
       ∀ k b, (k, b) ∈ am' → Forall well_formed_publication (publications b)) →
  ∀ am, Forall well_formed_author l →
    (∀ k b, (k, b) ∈ am → Forall well_formed_publication (publications b)) →
    ∃ am', foldM f am l = Ok am' ∧
      ∀ k b, (k, b) ∈ am' → Forall well_formed_publication (publications b).
Proof.
  intros Hf. induction l as [|a l IH]; intros am Hl Hwf; simpl; [eauto|].
  apply Forall_cons in Hl as [Ha Hl].
  destruct (Hf am a Ha Hwf) as (am1 & -> & Hwf1). simpl. apply IH; assumption.
Qed.

(** X7.  On records of the expected shape, where every [scholar_id]
    and [author_pub_id] is a scalar, every [title] is text or empty and
    every [bib] is a dictionary or empty, the merge never raises. *)
Theorem merge_never_raises_on_well_formed_records
    (now : ustr) (existing partial_authors : list author) :
  Forall well_formed_author existing →
  Forall well_formed_author partial_authors →
  ∃ merged, merge_results now existing partial_authors = Ok merged.
Proof.
  intros He Hp. unfold merge_results.
  destruct (foldM_authors_well_formed _ _ index_author_well_formed [] He)
    as (am0 & -> & Hwf0).
  { intros k b Hin. apply elem_of_nil in Hin. contradiction. }
  simpl.
  destruct (foldM_authors_well_formed _ _ merge_author_well_formed am0 Hp Hwf0)
    as (am1 & -> & Hwf1).
  simpl.
  destruct (dedupe_authors_total
              (prod_map id (stamp_author (now ++ U "Z")) <$> am1) ∅) as [r ->].
  { intros k a Hin. apply list_elem_of_fmap in Hin as ([k1 a1] & [= -> ->] & Hin).
    specialize (Hwf1 k1 a1 Hin). unfold publications, stamp_author in *. simpl.
    destruct (a_pubs a1) as [pubs|]; simpl in *; [|constructor].
    apply Forall_fmap. eapply Forall_impl; [exact Hwf1|].
    intros p Hwp. apply well_formed_stamp, Hwp. }
  simpl. eauto.
Qed.

End dataset_invariants.

(** * Further properties of the IdentityNormalizer *)

Section normalizer_algebra.
Context `{Runtime}.

Lemma is_space_32 : is_space 32 = true.
Proof. rewrite is_space_ascii by reflexivity. reflexivity. Qed.

Lemma strip_rstrip t : strip t = rstrip (lstrip t).
Proof. reflexivity. Qed.

Lemma lstrip_snoc u c :
  lstrip (u ++ [c]) =
    match lstrip u with
    | [] => if is_space c then [] else [c]
    | r => r ++ [c]
    end.
Proof.
  induction u as [|a u IH]; simpl.
  - destruct (is_space c); reflexivity.
  - destruct (is_space a); [exact IH|reflexivity].
Qed.

(** [rstrip] read from the left. *)
Lemma rstrip_cons c t :
  rstrip (c :: t) =
    match rstrip t with
    | [] => if is_space c then [] else [c]
    | r => c :: r
    end.
Proof.
  unfold rstrip. rewrite reverse_cons, lstrip_snoc.
  destruct (lstrip (reverse t)) as [|a l]; simpl.
  - destruct (is_space c); reflexivity.
  - change (a :: l ++ [c]) with ((a :: l) ++ [c]). rewrite reverse_snoc.
    destruct (reverse (a :: l)) eqn:E; [|reflexivity].
    apply (f_equal length) in E. rewrite length_reverse in E. discriminate.
Qed.

Lemma rstrip_nil : rstrip [] = [].
Proof. reflexivity. Qed.

Lemma lstrip_idem t : lstrip (lstrip t) = lstrip t.
Proof.
  induction t as [|c t IH]; simpl; [reflexivity|].
  destruct (is_space c) eqn:E; [exact IH|]. simpl. rewrite E. reflexivity.
Qed.

Lemma rstrip_idem t : rstrip (rstrip t) = rstrip t.
Proof. unfold rstrip. rewrite reverse_involutive, lstrip_idem. reflexivity. Qed.

Lemma lstrip_rstrip t : lstrip (rstrip t) = rstrip (lstrip t).
Proof.
  induction t as [|c t IH]; [reflexivity|].
  rewrite rstrip_cons. simpl lstrip at 2. destruct (is_space c) eqn:E.
  - rewrite <- IH. destruct (rstrip t) as [|a r]; [reflexivity|].
    simpl. rewrite E. reflexivity.
  - rewrite rstrip_cons. destruct (rstrip t); simpl; rewrite E; reflexivity.
Qed.

(** Trimming twice trims once. *)
Lemma strip_idem t : strip (strip t) = strip t.
Proof.
  rewrite !strip_rstrip, lstrip_rstrip, lstrip_idem, rstrip_idem. reflexivity.
Qed.

Lemma collapse_whitespace_length t : ∀ b,
  (length (collapse_whitespace b t) ≤ length t)%nat.
Proof.
  induction t as [|c t IH]; intros b; simpl; [lia|].
  pose proof (IH true). pose proof (IH false).
  destruct (is_space c); [destruct b|]; simpl; lia.
Qed.

Lemma collapse_whitespace_idem t : ∀ b,
  collapse_whitespace b (collapse_whitespace b t) = collapse_whitespace b t.
Proof.
  induction t as [|c t IH]; intros b; simpl; [reflexivity|].
  destruct (is_space c) eqn:E.
  - destruct b; [apply IH|]. simpl. rewrite is_space_32, IH. reflexivity.
  - simpl. rewrite E, IH. reflexivity.
Qed.

(** Whether a run of whitespace is open or not only matters for the
    space that a leading run leaves behind. *)
Lemma lstrip_collapse_whitespace t : ∀ b,
  lstrip (collapse_whitespace b t) = collapse_whitespace true t.
Proof.
  induction t as [|c t IH]; intros b; simpl; [reflexivity|].
  destruct (is_space c) eqn:E.
  - destruct b; [apply IH|]. simpl. rewrite is_space_32. apply IH.
  - simpl. rewrite E. reflexivity.
Qed.

Lemma collapse_whitespace_open t :
  collapse_whitespace false (collapse_whitespace true t) = collapse_whitespace true t.
Proof.
  induction t as [|c t IH]; simpl; [reflexivity|].
  destruct (is_space c) eqn:E; [exact IH|].
  simpl. rewrite E, collapse_whitespace_idem. reflexivity.
Qed.

Lemma collapse_whitespace_cons b c t :
  collapse_whitespace b (c :: t) =
    if is_space c
    then (if b then collapse_whitespace true t else 32%N :: collapse_whitespace true t)
    else c :: collapse_whitespace false t.
Proof. reflexivity. Qed.

Lemma collapse_whitespace_rstrip u : ∀ b,
  collapse_whitespace b u = u →
  collapse_whitespace b (rstrip u) = rstrip u.
Proof.
  induction u as [|c u IH]; intros b Hu; [reflexivity|].
  rewrite rstrip_cons. simpl in Hu. destruct (is_space c) eqn:E.
  - destruct b.
    + pose proof (collapse_whitespace_length u true) as Hl.
      rewrite Hu in Hl. simpl in Hl. lia.
    + injection Hu as Hc Hu. specialize (IH true Hu).
      destruct (rstrip u) as [|a r]; [reflexivity|].
      rewrite collapse_whitespace_cons, E, IH, <- Hc. reflexivity.
  - injection Hu as Hu. specialize (IH false Hu).
    destruct (rstrip u) as [|a r]; rewrite collapse_whitespace_cons, E; [reflexivity|].
    rewrite IH. reflexivity.
Qed.

(** What [strip] returns of collapsed text is collapsed and trimmed. *)
Lemma strip_collapse_whitespace_fixed t :
  let y := strip (collapse_whitespace false t) in
  collapse_whitespace false y = y ∧ strip y = y.
Proof.
  simpl. split; [|apply strip_idem].
  rewrite strip_rstrip, lstrip_collapse_whitespace.
  apply collapse_whitespace_rstrip, collapse_whitespace_open.
Qed.

End normalizer_algebra.

Section normalizer_classes.
Context `{Runtime}.

Lemma sub_punctuation_classes t :
  Forall (λ c, is_word c || is_space c = true) (sub_punctuation t).
Proof.
  unfold sub_punctuation. apply Forall_fmap, Forall_forall. intros c _. simpl.
  destruct (is_word c || is_space c) eqn:E; [exact E|].
  rewrite is_space_32. apply orb_true_r.
Qed.

Lemma sub_punctuation_fixed t :
  Forall (λ c, is_word c || is_space c = true) t → sub_punctuation t = t.
Proof.
  unfold sub_punctuation. induction 1 as [|c t Hc _ IH]; [reflexivity|].
  rewrite fmap_cons, IH, Hc. reflexivity.
Qed.

Lemma collapse_whitespace_Forall (P : N → Prop) t : ∀ b,
  P 32%N → Forall P t → Forall P (collapse_whitespace b t).
Proof.
  intros b H32 Ht. revert b. induction Ht as [|c t Hc _ IH]; intros b; simpl; [constructor|].
  destruct (is_space c); [destruct b|]; auto.
Qed.

Lemma lstrip_Forall (P : N → Prop) t : Forall P t → Forall P (lstrip t).
Proof.
  induction 1 as [|c t Hc Ht IH]; simpl; [constructor|].
  destruct (is_space c); auto.
Qed.

Lemma strip_Forall (P : N → Prop) t : Forall P t → Forall P (strip t).
Proof.
  intros Ht. unfold strip.
  apply Forall_reverse, lstrip_Forall, Forall_reverse, lstrip_Forall, Ht.
Qed.

(** A character map that respects the classes commutes with every step
    of the normalizer but the last. *)
Lemma sub_punctuation_fmap (g : N → N) t :
  keeps_classes g → sub_punctuation (g <$> t) = g <$> sub_punctuation t.
Proof.
  intros [H32 Hg]. unfold sub_punctuation. induction t as [|c t IH]; [reflexivity|].
  rewrite !fmap_cons, IH. destruct (Hg c) as [-> ->].
  destruct (is_word c || is_space c); [reflexivity|]. rewrite H32. reflexivity.
Qed.

Lemma collapse_whitespace_fmap (g : N → N) t : ∀ b,
  keeps_classes g →
  collapse_whitespace b (g <$> t) = g <$> collapse_whitespace b t.
Proof.
  intros b [H32 Hg]. revert b. induction t as [|c t IH]; intros b; [reflexivity|].
  rewrite fmap_cons, !collapse_whitespace_cons. destruct (Hg c) as [_ ->].
  destruct (is_space c); [destruct b|]; rewrite ?fmap_cons, ?IH, ?H32; reflexivity.
Qed.

Lemma lstrip_fmap (g : N → N) t :
  keeps_classes g → lstrip (g <$> t) = g <$> lstrip t.
Proof.
  intros [_ Hg]. induction t as [|c t IH]; [reflexivity|].
  rewrite fmap_cons. simpl. destruct (Hg c) as [_ ->].
  destruct (is_space c); [exact IH|reflexivity].
Qed.

Lemma strip_fmap (g : N → N) t :
  keeps_classes g → strip (g <$> t) = g <$> strip t.
Proof.
  intros Hg. unfold strip.
  rewrite (lstrip_fmap g _ Hg), <- fmap_reverse, (lstrip_fmap g _ Hg), fmap_reverse.
  reflexivity.
Qed.

(** Text without a word character collapses to nothing. *)
Lemma strip_collapse_whitespace_blank t :
  Forall (λ c, is_space c = true) t → strip (collapse_whitespace false t) = [].
Proof.
  intros Ht. rewrite strip_rstrip, lstrip_collapse_whitespace.
  assert (collapse_whitespace true t = []) as ->; [|reflexivity].
  induction Ht as [|c t Hc _ IH]; simpl; [reflexivity|]. rewrite Hc. exact IH.
Qed.

End normalizer_classes.

(** The two case conversions on ASCII text. *)
Ltac by_code_point :=
  unfold keeps_classes, is_word, is_space, ascii_runtime, is_ascii, ascii_word,
    ascii_space, ascii_lower, ascii_upper, in_range;
  repeat match goal with
  | |- context [(?a <=? ?b)%N] => destruct (N.leb_spec a b); simpl in *; try lia
  | |- context [(?a <? ?b)%N] => destruct (N.ltb_spec a b); simpl in *; try lia
  | |- context [(?a =? ?b)%N] => destruct (N.eqb_spec a b); simpl in *; try lia
  end; simpl; try reflexivity; try lia.

Lemma ascii_lower_keeps_classes : keeps_classes (H := ascii_runtime) ascii_lower.
Proof. split; [reflexivity|]. intros c. split; by_code_point. Qed.

Lemma ascii_upper_keeps_classes : keeps_classes (H := ascii_runtime) ascii_upper.
Proof. split; [reflexivity|]. intros c. split; by_code_point. Qed.

Lemma ascii_lower_idem c : ascii_lower (ascii_lower c) = ascii_lower c.
Proof. by_code_point. Qed.

Lemma ascii_lower_upper c : ascii_lower (ascii_upper c) = ascii_lower c.
Proof. by_code_point. Qed.

Lemma ascii_lower_closed c : is_ascii c = true → is_ascii (ascii_lower c) = true.
Proof. unfold is_ascii. rewrite !N.ltb_lt. by_code_point. Qed.

Lemma ascii_upper_closed c : is_ascii c = true → is_ascii (ascii_upper c) = true.
Proof. unfold is_ascii. rewrite !N.ltb_lt. by_code_point. Qed.

(** The normalizer of [ascii_runtime], step by step. *)
Lemma normalize_ascii_runtime s :
  normalize (H := ascii_runtime) s =
    ascii_lower <$> strip (H := ascii_runtime)
      (collapse_whitespace (H := ascii_runtime) false
         (sub_punctuation (H := ascii_runtime) s)).
Proof.
  unfold normalize. rewrite (strip_combining_id (nfkd (Runtime := ascii_runtime) s)).
  reflexivity.
Qed.

Lemma normalize_closed s :
  forallb is_ascii s = true →
  forallb is_ascii (normalize (H := ascii_runtime) s) = true.
Proof.
  intros Hs. rewrite normalize_ascii_runtime.
  apply forallb_fmap; [exact ascii_lower_closed|].
  apply strip_closed, collapse_whitespace_closed, sub_punctuation_closed, Hs.
Qed.

Lemma normalize_ascii_runtime_idem s :
  normalize (H := ascii_runtime) (normalize (H := ascii_runtime) s) =
  normalize (H := ascii_runtime) s.
Proof.
  rewrite !normalize_ascii_runtime.
  set (y := strip (H := ascii_runtime)
              (collapse_whitespace (H := ascii_runtime) false
                 (sub_punctuation (H := ascii_runtime) s))).
  rewrite (sub_punctuation_fmap _ _ ascii_lower_keeps_classes),
    (collapse_whitespace_fmap _ _ _ ascii_lower_keeps_classes),
    (strip_fmap _ _ ascii_lower_keeps_classes).
  rewrite sub_punctuation_fixed.
  - destruct (strip_collapse_whitespace_fixed (H := ascii_runtime)
                (sub_punctuation (H := ascii_runtime) s)) as [Hc Hs].
    fold y in Hc, Hs. rewrite Hc, Hs.
    rewrite <- list_fmap_compose. apply list_fmap_ext. intros i c _. simpl.
    apply ascii_lower_idem.
  - apply strip_Forall, collapse_whitespace_Forall; [reflexivity|].
    apply sub_punctuation_classes.
Qed.

Lemma normalize_ascii_runtime_fmap (g : N → N) s :
  keeps_classes (H := ascii_runtime) g →
  (∀ c, ascii_lower (g c) = ascii_lower c) →
  normalize (H := ascii_runtime) (g <$> s) = normalize (H := ascii_runtime) s.
Proof.
  intros Hg Hl. rewrite !normalize_ascii_runtime.
  rewrite (sub_punctuation_fmap _ _ Hg), (collapse_whitespace_fmap _ _ _ Hg),
    (strip_fmap _ _ Hg), <- list_fmap_compose.
  apply list_fmap_ext. intros i c _. simpl. apply Hl.
Qed.

Section normalizer_properties.
Context `{Runtime}.

(** X8.  On ASCII titles the normalizer is idempotent: a normalized
    title is its own normal form. *)
Theorem normalize_is_idempotent_on_ascii (title : ustr) :
  forallb is_ascii title = true →
  ∃ normalized,
    _normalize_title_for_dedupe (VAtom (AStr title)) = Ok normalized ∧
    _normalize_title_for_dedupe (VAtom (AStr normalized)) = Ok normalized.
Proof.
  intros Hs. exists (normalize title).
  rewrite !normalize_title_for_dedupe_str. split; [reflexivity|]. f_equal.
  rewrite (normalize_ascii title Hs).
  rewrite (normalize_ascii _ (normalize_closed title Hs)).
  apply normalize_ascii_runtime_idem.
Qed.

(** X9.  On ASCII titles the normalizer ignores case: a title, its
    upper-case form and its lower-case form have one normal form. *)
Theorem normalize_ignores_case_on_ascii (title : ustr) :
  forallb is_ascii title = true →
  _normalize_title_for_dedupe (VAtom (AStr (upper title))) =
    _normalize_title_for_dedupe (VAtom (AStr title)) ∧
  _normalize_title_for_dedupe (VAtom (AStr (lower title))) =
    _normalize_title_for_dedupe (VAtom (AStr title)).
Proof.
  intros Hs. rewrite !normalize_title_for_dedupe_str.
  rewrite (upper_ascii title Hs), (lower_ascii title Hs).
  rewrite (normalize_ascii title Hs).
  split; f_equal.
  - rewrite normalize_ascii
      by (apply forallb_fmap; [exact ascii_upper_closed|exact Hs]).
    apply normalize_ascii_runtime_fmap;
      [exact ascii_upper_keeps_classes|exact ascii_lower_upper].
  - rewrite normalize_ascii
      by (apply forallb_fmap; [exact ascii_lower_closed|exact Hs]).
    apply normalize_ascii_runtime_fmap;
      [exact ascii_lower_keeps_classes|exact ascii_lower_idem].
Qed.

(** X10.  An ASCII title without a letter, digit or underscore, such as
    "???" or " - ", normalizes to the empty string, so the publication
    is keyed by its [author_pub_id] as if it had no title. *)
Theorem title_without_word_characters_counts_as_missing
    (p : publication) (title : ustr) :
  forallb is_ascii title = true →
  forallb (λ c, negb (ascii_word c)) title = true →
  extract_title p = Ok (VAtom (AStr title)) →
  _normalize_title_for_dedupe (VAtom (AStr title)) = Ok [] ∧
  dedupe_key p =
    Ok (U "__id__:" ++ (if has_id p then py_str (author_pub_id p) else [])).
Proof.
  intros Hs Hw Ht.
  assert (normalize title = []) as Hn.
  { rewrite (normalize_ascii title Hs), normalize_ascii_runtime.
    rewrite strip_collapse_whitespace_blank; [reflexivity|].
    unfold sub_punctuation. apply Forall_fmap, Forall_forall. intros c Hc. simpl.
    rewrite forallb_forall in Hs, Hw. apply list_elem_of_In in Hc.
    specialize (Hs c Hc). specialize (Hw c Hc). rewrite Hs.
    destruct (ascii_word c); [discriminate|]. simpl.
    destruct (ascii_space c) eqn:E; simpl; [rewrite Hs; exact E|reflexivity]. }
  split.
  - rewrite normalize_title_for_dedupe_str, Hn. reflexivity.
  - rewrite (dedupe_key_typed _ _ Ht), Hn. reflexivity.
Qed.

End normalizer_properties.

(** * The normal form of a title *)

Section title_words.
Context `{Runtime}.

Lemma ascii_word_not_space c : ascii_word c = true → ascii_space c = false.
Proof.
  intros Hw. apply not_true_is_false. intros Hs. revert Hw Hs.
  unfold ascii_word, ascii_space, in_range.
  rewrite !orb_true_iff, !andb_true_iff, !N.leb_le, !N.eqb_eq. lia.
Qed.

Lemma flush_nonempty word w : w ∈ flush word → w ≠ [].
Proof.
  destruct word as [|a word]; simpl; intros Hin.
  - apply elem_of_nil in Hin. contradiction.
  - apply list_elem_of_singleton in Hin as ->. discriminate.
Qed.

Lemma words_from_nonempty t : ∀ word w, w ∈ words_from word t → w ≠ [].
Proof.
  induction t as [|c t IH]; intros word w; simpl.
  - apply flush_nonempty.
  - destruct (ascii_word c); [apply IH|].
    intros [Hin|Hin]%elem_of_app; [exact (flush_nonempty _ _ Hin)|exact (IH _ _ Hin)].
Qed.

Lemma join_words_cons w w' ws :
  join_words (w :: w' :: ws) = w ++ 32%N :: join_words (w' :: ws).
Proof. reflexivity. Qed.

Lemma join_words_nil ws :
  (∀ w, w ∈ ws → w ≠ []) → join_words ws = [] → ws = [].
Proof.
  destruct ws as [|w ws]; [reflexivity|]. intros Hne Hj. exfalso.
  apply (Hne w); [left|]. destruct ws as [|w' ws].
  - exact Hj.
  - rewrite join_words_cons in Hj. destruct w; [reflexivity|discriminate].
Qed.

Lemma join_words_fmap (g : N → N) ws :
  g 32%N = 32%N →
  fmap (M := list) g (join_words ws) = join_words (fmap (M := list) g <$> ws).
Proof.
  intros Hg. induction ws as [|w ws IH]; [reflexivity|].
  destruct ws as [|w' ws]; [reflexivity|].
  rewrite join_words_cons, fmap_app, fmap_cons, Hg, IH. reflexivity.
Qed.

(** What is left of a title when punctuation has become whitespace,
    whitespace has been collapsed and the right end trimmed: the words,
    one space between them.  A word at hand continues into the text. *)
Lemma join_words_from t :
  forallb is_ascii t = true →
  ∀ word,
    join_words (words_from word t) =
      match word with
      | [] => rstrip (collapse_whitespace true (sub_punctuation t))
      | _ => word ++ rstrip (collapse_whitespace false (sub_punctuation t))
      end.
Proof.
  induction t as [|c t IH]; intros Ha word.
  - destruct word as [|a word]; [reflexivity|].
    simpl. rewrite app_nil_r. reflexivity.
  - simpl in Ha. apply andb_true_iff in Ha as [Hc Ht]. specialize (IH Ht).
    change (sub_punctuation (c :: t))
      with ((if is_word c || is_space c then c else 32%N) :: sub_punctuation t).
    rewrite (is_word_ascii c Hc). simpl words_from.
    destruct (ascii_word c) eqn:Hw.
    + assert (is_space c = false) as Hs
        by (rewrite (is_space_ascii c Hc); apply ascii_word_not_space, Hw).
      simpl orb. cbv iota. rewrite !collapse_whitespace_cons, Hs, IH.
      assert (∀ x, rstrip (c :: x) = c :: rstrip x) as Hr.
      { intros x. rewrite rstrip_cons, Hs. destruct (rstrip x); reflexivity. }
      rewrite Hr. destruct word as [|a word]; [reflexivity|].
      simpl. rewrite <- app_assoc. reflexivity.
    + simpl orb.
      set (h := if is_space c then c else 32%N).
      assert (is_space h = true) as Hh.
      { subst h. destruct (is_space c) eqn:Hs; [exact Hs|apply is_space_32]. }
      rewrite !collapse_whitespace_cons, Hh.
      pose proof (IH []) as IH0. cbv iota in IH0.
      destruct word as [|a word]; [exact IH0|].
      change (flush (a :: word)) with [a :: word].
      rewrite rstrip_cons, is_space_32, <- IH0.
      destruct (words_from [] t) as [|w ws] eqn:Hws.
      * simpl. rewrite app_nil_r. reflexivity.
      * change ([a :: word] ++ w :: ws) with ((a :: word) :: w :: ws).
        rewrite join_words_cons.
        destruct (join_words (w :: ws)) eqn:Hj; [|reflexivity].
        apply join_words_nil in Hj; [discriminate|].
        intros w0 Hin. rewrite <- Hws in Hin. exact (words_from_nonempty _ _ _ Hin).
Qed.

Lemma strip_collapse_words t :
  forallb is_ascii t = true →
  strip (collapse_whitespace false (sub_punctuation t)) = join_words (ascii_words t).
Proof.
  intros Ha. rewrite strip_rstrip, lstrip_collapse_whitespace.
  symmetry. exact (join_words_from t Ha []).
Qed.

End title_words.

Section deduplicator_normal_form.
Context `{Runtime}.

(** The normalized form of an ASCII title: its words, in lower case,
    one space between them. *)
Lemma normalize_words t :
  forallb is_ascii t = true → normalize t = join_words (lowered_words t).
Proof.
  intros Ha. rewrite (normalize_ascii t Ha), normalize_ascii_runtime.
  rewrite (strip_collapse_words (H := ascii_runtime) t Ha).
  apply join_words_fmap. reflexivity.
Qed.

(** The decomposition and the removal of the combining marks come
    first; what follows sees their result only. *)
Lemma normalize_unmarked title :
  forallb is_ascii (strip_combining (nfkd title)) = true →
  normalize title = normalize (strip_combining (nfkd title)).
Proof.
  intros Ha. unfold normalize at 2.
  rewrite (nfkd_ascii _ Ha), (strip_combining_ascii _ Ha). reflexivity.
Qed.

Lemma lowered_words_nil t : lowered_words t = [] → ascii_words t = [].
Proof. unfold lowered_words. apply fmap_nil_inv. Qed.

Lemma join_lowered_words_nonempty t : ascii_words t ≠ [] → join_words (lowered_words t) ≠ [].
Proof.
  intros Hne Hj. apply Hne, lowered_words_nil. apply join_words_nil; [|exact Hj].
  intros w Hin. unfold lowered_words in Hin.
  apply list_elem_of_fmap in Hin as (w0 & -> & Hin).
  apply words_from_nonempty in Hin. destruct w0; [contradiction|discriminate].
Qed.

(** C4 (as amended).  The dedupe pass goes through the publications in
    order and keeps a publication exactly when its key is new: the
    result is [first_seen], the survivors have distinct keys, every key
    met has a survivor, and a publication after one with the same key is
    dropped.  The key is the normalized title, or
    ["__id__:" + author_pub_id] when the title normalizes to the empty
    string.  The normalized form of a title whose decomposition, the
    combining marks left out, is ASCII text consists of the words of
    that text in lower case, with one space between them, a word being a
    maximal run of letters, digits and underscores.  Titles that differ
    by accents, by case, or by punctuation and spacing between the words
    and at the ends, such as "Deep Learning!" and "deep   learning",
    have the same words and so the same key.  Punctuation inside a word
    makes two words of it, as it is replaced by a space. *)
Theorem dedupe_keeps_first_seen
    (seen_titles : gset ustr) (pubs : list publication) (keys : list ustr) :
  keys_of pubs keys →
  let survivors := first_seen seen_titles (zip keys pubs) in
  dedupe_pubs seen_titles pubs = Ok (list_to_set keys ∪ seen_titles, survivors.*2)
  ∧ keys_of survivors.*2 survivors.*1
  ∧ NoDup survivors.*1
  ∧ (∀ key, key ∈ survivors.*1 ↔ key ∈ keys ∧ key ∉ seen_titles)
  ∧ (∀ before key p after,
       zip keys pubs = before ++ (key, p) :: after →
       survivors =
         first_seen seen_titles before
         ++ (if decide (key ∈ seen_titles ∨ key ∈ before.*1) then [] else [(key, p)])
         ++ first_seen ({[key]} ∪ (list_to_set before.*1 ∪ seen_titles)) after)
  ∧ (∀ p title,
       extract_title p = Ok (VAtom (AStr title)) →
       dedupe_key p =
         Ok (normalization_key title
               (if has_id p then py_str (author_pub_id p) else [])))
  ∧ normalize (U "Deep Learning!") = U "deep learning"
  ∧ normalize (U "deep   learning") = U "deep learning"
  ∧ (∀ title,
       let unmarked := strip_combining (nfkd title) in
       forallb is_ascii unmarked = true →
       normalize title = join_words (lowered_words unmarked))
  ∧ (∀ title title' id id',
       let unmarked := strip_combining (nfkd title) in
       let unmarked' := strip_combining (nfkd title') in
       forallb is_ascii unmarked = true →
       forallb is_ascii unmarked' = true →
       lowered_words unmarked = lowered_words unmarked' →
       ascii_words unmarked ≠ [] →
       normalization_key title id = normalize title ∧
       normalization_key title' id' = normalize title).
Proof.
  intros Hk survivors. subst survivors.
  split; [apply dedupe_pubs_first_seen, Hk|].
  split; [apply keys_of_first_seen, Hk|].
  split; [apply first_seen_NoDup|].
  split; [intros key; rewrite first_seen_keys, (keys_of_zip_fst _ _ Hk); reflexivity|].
  split; [intros before key p after ->; apply first_seen_split|].
  split; [intros p title Ht; apply dedupe_key_typed, Ht|].
  split; [rewrite normalize_ascii by reflexivity; reflexivity|].
  split; [rewrite normalize_ascii by reflexivity; reflexivity|].
  split.
  - intros title unmarked Ha. subst unmarked.
    rewrite (normalize_unmarked title Ha). apply normalize_words, Ha.
  - intros title title' id id' unmarked unmarked' Ha Ha' Hw Hne.
    subst unmarked unmarked'.
    assert (normalize title' = normalize title) as Heq.
    { rewrite (normalize_unmarked title Ha), (normalize_unmarked title' Ha'),
        (normalize_words _ Ha), (normalize_words _ Ha'), Hw. reflexivity. }
    assert (normalize title ≠ []) as Hn.
    { rewrite (normalize_unmarked title Ha), (normalize_words _ Ha).
      apply join_lowered_words_nonempty, Hne. }
    unfold normalization_key. rewrite Heq.
    destruct (normalize title); [contradiction|auto].
Qed.

End deduplicator_normal_form.

(** * Further properties of the FreshnessScheduler *)

Section freshness_properties.
Context `{Runtime}.

Lemma scan_publications_cases now threshold sid pubs :
  scan_publications now threshold sid pubs = sid ∨
  scan_publications now threshold sid pubs = VAtom ANone.
Proof.
  induction pubs as [|pub pubs IH]; simpl; [auto|].
  destruct (truthy (get pub "last_scraped")); simpl; [|auto].
  destruct (age now (get pub "last_scraped")) as [d|]; [|auto].
  destruct (d >? threshold); auto.
Qed.

Lemma age_later now now' last_scraped d :
  age now last_scraped = Some d →
  age now' last_scraped = Some (d + (now' - now)).
Proof.
  unfold age. destruct last_scraped as [[| |s]| |]; try discriminate.
  destruct (fromisoformat _) as [[t|t]|]; try discriminate.
  intros [= <-]. f_equal. lia.
Qed.

Lemma age_None_later now now' last_scraped :
  age now last_scraped = None → age now' last_scraped = None.
Proof.
  unfold age. destruct last_scraped as [[| |s]| |]; try reflexivity.
  destruct (fromisoformat _) as [[t|t]|]; try discriminate; reflexivity.
Qed.

Lemma scan_publications_monotone now now' threshold threshold' sid pubs :
  now ≤ now' → threshold' ≤ threshold → truthy sid = true →
  scan_publications now threshold sid pubs = sid →
  scan_publications now' threshold' sid pubs = sid.
Proof.
  intros Hnow Hthr Hsid. induction pubs as [|pub pubs IH]; simpl.
  - intros <-. reflexivity.
  - destruct (truthy (get pub "last_scraped")); simpl; [|reflexivity].
    destruct (age now (get pub "last_scraped")) as [d|] eqn:Ha.
    + rewrite (age_later _ now' _ _ Ha).
      destruct (Z.gtb_spec d threshold) as [Hgt|Hle].
      * intros _. destruct (Z.gtb_spec (d + (now' - now)) threshold'); [reflexivity|lia].
      * intros Hscan. destruct (d + (now' - now) >? threshold'); [reflexivity|auto].
    + rewrite (age_None_later _ now' _ Ha). reflexivity.
Qed.

(** X11.  Selection is monotone: an author selected for a refresh is
    selected at every later time and under every smaller threshold. *)
Theorem selected_author_stays_selected
    (now now' : Z) (a : author) (threshold_days threshold_days' : Z) :
  now ≤ now' →
  threshold_days' ≤ threshold_days →
  Z.abs threshold_days' ≤ 999999999 →
  truthy (scholar_id a) = true →
  check_author_needs_scraping now a threshold_days = Ok (scholar_id a) →
  check_author_needs_scraping now' a threshold_days' = Ok (scholar_id a).
Proof.
  intros Hnow Hthr Hrange Hsid. unfold check_author_needs_scraping, timedelta_days.
  rewrite Hsid. simpl. rewrite (proj2 (Z.leb_le _ _) Hrange).
  destruct (Z.abs threshold_days <=? 999999999); simpl; [|discriminate].
  destruct (publications a) as [|pub pubs]; [reflexivity|].
  intros [= Hscan]. f_equal.
  eapply scan_publications_monotone; [exact Hnow| |exact Hsid|exact Hscan].
  unfold micros_per_day. lia.
Qed.

(** [replace] turns the trailing "Z" of a stamp into the offset. *)
Lemma replace_aux_trailing (new s : ustr) : ∀ fuel,
  (length s < fuel)%nat → 90%N ∉ s →
  replace_aux fuel [90%N] new (s ++ [90%N]) = s ++ new.
Proof.
  induction s as [|c s IH]; intros fuel Hfuel Hz;
    (destruct fuel as [|fuel]; [simpl in Hfuel; lia|]).
  - simpl. destruct fuel; simpl; rewrite app_nil_r; reflexivity.
  - apply not_elem_of_cons in Hz as [Hc Hz]. simpl in Hfuel.
    change (replace_aux (S fuel) [90%N] new ((c :: s) ++ [90%N]))
      with (if (90 =? c)%N && true
            then new ++ replace_aux fuel [90%N] new (drop 1 (c :: s ++ [90%N]))
            else c :: replace_aux fuel [90%N] new (s ++ [90%N])).
    destruct (N.eqb_spec 90 c) as [Heq|_]; [contradiction|]. simpl.
    rewrite IH by (assumption || lia). reflexivity.
Qed.

Lemma replace_trailing_Z (now : ustr) :
  90%N ∉ now → replace (U "Z") (U "+00:00") (now ++ U "Z") = now ++ U "+00:00".
Proof.
  intros Hz. unfold replace. apply (replace_aux_trailing (U "+00:00") now); [|exact Hz].
  rewrite length_app. simpl. lia.
Qed.

Lemma scan_publications_same_age now threshold sid d pubs :
  pubs ≠ [] →
  Forall (λ pub, truthy (get pub "last_scraped") = true ∧
                 age now (get pub "last_scraped") = Some d) pubs →
  scan_publications now threshold sid pubs =
    if d >? threshold then sid else VAtom ANone.
Proof.
  intros Hne Hall. induction Hall as [|pub pubs [Ht Ha] Hall IH]; [congruence|].
  simpl. rewrite Ht, Ha. simpl. destruct (d >? threshold) eqn:E; [reflexivity|].
  destruct pubs as [|pub' pubs]; [reflexivity|]. rewrite IH by discriminate.
  reflexivity.
Qed.

(** X12.  The stamp that [merge_and_save_results] writes is the one
    that [check_author_needs_scraping] reads: an author whose
    publications were all stamped by a save made at [t] is selected
    again exactly when more than [threshold_days] have passed since
    [t].  [now] is [datetime.utcnow().isoformat()], which holds no "Z",
    and the runtime is asked to read it with the UTC offset appended. *)
Theorem freshly_stamped_author_is_selected_after_threshold
    (now : ustr) (t clock threshold_days : Z) (a : author) :
  90%N ∉ now →
  fromisoformat (now ++ U "+00:00") = Some (Aware t) →
  truthy (scholar_id a) = true →
  Z.abs threshold_days ≤ 999999999 →
  publications a ≠ [] →
  Forall (λ p, truthy (get p "last_scraped") = false) (publications a) →
  check_author_needs_scraping clock (stamp_author (now ++ U "Z") a) threshold_days =
    Ok (if clock - t >? threshold_days * micros_per_day
        then scholar_id a else VAtom ANone).
Proof.
  intros Hz Hread Hsid Hrange Hne Hfresh.
  unfold check_author_needs_scraping, timedelta_days.
  change (scholar_id (stamp_author (now ++ U "Z") a)) with (scholar_id a).
  rewrite Hsid. simpl. rewrite (proj2 (Z.leb_le _ _) Hrange). simpl.
  assert (publications (stamp_author (now ++ U "Z") a) =
          stamp (now ++ U "Z") <$> publications a) as ->.
  { unfold publications, stamp_author. simpl. destruct (a_pubs a); reflexivity. }
  destruct (publications a) as [|pub pubs] eqn:Hpubs; [congruence|].
  rewrite fmap_cons, <- fmap_cons. f_equal.
  rewrite (scan_publications_same_age clock _ _ (clock - t)).
  - reflexivity.
  - rewrite fmap_cons. discriminate.
  - apply Forall_fmap. eapply Forall_impl; [exact Hfresh|].
    intros p Hp. simpl. unfold stamp. rewrite Hp.
    unfold get. rewrite lookup_insert_eq. simpl.
    split; [destruct now; reflexivity|].
    unfold age. rewrite (replace_trailing_Z now Hz), Hread. reflexivity.
Qed.

Lemma build_skip_ids_elem
    (now threshold_days : Z) (existing_authors : list author)
    (skip_ids : list value) (v : value) :
  build_skip_ids now threshold_days existing_authors = Ok skip_ids →
  (v ∈ skip_ids ↔
   ∃ a pub t,
     a ∈ existing_authors ∧ pub ∈ publications a ∧
     author_pub_id pub = v ∧ truthy v = true ∧
     scraped_at pub t ∧ now - t ≤ threshold_days * micros_per_day).
Proof.
  unfold build_skip_ids, timedelta_days.
  destruct (Z.abs threshold_days <=? 999999999); simpl; [|discriminate].
  intros [= <-]. rewrite list_elem_of_bind.
  assert (∀ pub,
    v ∈ fresh_pub_ids now (threshold_days * micros_per_day) [pub] ↔
    author_pub_id pub = v ∧ truthy v = true ∧
    ∃ t, scraped_at pub t ∧ now - t ≤ threshold_days * micros_per_day) as Hone.
  { intros pub. unfold fresh_pub_ids. simpl. rewrite app_nil_r.
    destruct (truthy (get pub "last_scraped")) eqn:Ht.
    - pose proof (age_scraped_at now pub Ht) as Hage.
      destruct (age now (get pub "last_scraped")) as [d|].
      + destruct Hage as (t & Hs & ->).
        destruct (Z.leb_spec (now - t) (threshold_days * micros_per_day)) as [Hle|Hgt].
        * fold (author_pub_id pub). destruct (truthy (author_pub_id pub)) eqn:Hid.
          -- rewrite list_elem_of_singleton. split.
             ++ intros ->. eauto.
             ++ intros [<- _]. reflexivity.
          -- split; [intros Hin; apply elem_of_nil in Hin; contradiction|].
             intros (<- & Hv & _). congruence.
        * split; [intros Hin; apply elem_of_nil in Hin; contradiction|].
          intros (_ & _ & t' & Hs' & Hle). rewrite (scraped_at_fun _ _ _ Hs' Hs) in Hle. lia.
      + split; [intros Hin; apply elem_of_nil in Hin; contradiction|].
        intros (_ & _ & t' & Hs' & _). destruct (Hage t' Hs').
    - split; [intros Hin; apply elem_of_nil in Hin; contradiction|].
      intros (_ & _ & t' & Hs' & _). destruct (falsy_not_scraped_at pub Ht t' Hs'). }
  split.
  - intros (a & Hin & Ha). unfold fresh_pub_ids in Hin.
    apply list_elem_of_bind in Hin as (pub & Hin & Hpub).
    assert (v ∈ fresh_pub_ids now (threshold_days * micros_per_day) [pub]) as Hin'.
    { unfold fresh_pub_ids. simpl. rewrite app_nil_r. exact Hin. }
    apply Hone in Hin' as (Hid & Hv & t & Hs & Hle). exists a, pub, t.
    repeat split; assumption.
  - intros (a & pub & t & Ha & Hpub & Hid & Hv & Hs & Hle). exists a. split; [|exact Ha].
    unfold fresh_pub_ids. apply list_elem_of_bind. exists pub. split; [|exact Hpub].
    assert (v ∈ fresh_pub_ids now (threshold_days * micros_per_day) [pub]) as Hin'
      by (apply Hone; eauto).
    unfold fresh_pub_ids in Hin'. simpl in Hin'. rewrite app_nil_r in Hin'. exact Hin'.
Qed.

(** X13.  The skip list holds exactly the ids of the recorded
    publications that do not need a refresh: a publication's non-empty
    id is on it when its [last_scraped] is read and lies at most
    [threshold_days] back, and no other value is. *)
Theorem skip_ids_are_the_fresh_identified_publications
    (now threshold_days : Z) (existing_authors : list author)
    (skip_ids : list value) (v : value) :
  build_skip_ids now threshold_days existing_authors = Ok skip_ids →
  (v ∈ skip_ids ↔
   ∃ a pub t,
     a ∈ existing_authors ∧ pub ∈ publications a ∧
     author_pub_id pub = v ∧ truthy v = true ∧
     scraped_at pub t ∧ now - t ≤ threshold_days * micros_per_day).
Proof. apply build_skip_ids_elem. Qed.

End freshness_properties.

(** * Further properties of the PersistenceGateway *)

Section persistence_properties.
Context `{Runtime}.

Lemma write_file_other fault files path d q :
  q ≠ path → (write_file fault files path d).1 !! q = files !! q.
Proof.
  intros Hne. destruct fault; simpl; rewrite ?lookup_insert_ne by congruence; reflexivity.
Qed.

Lemma os_replace_other fails files src dst q :
  q ≠ src → q ≠ dst → (os_replace fails files src dst).1 !! q = files !! q.
Proof.
  intros Hs Hd. unfold os_replace. destruct (files !! src); [|reflexivity].
  destruct fails; simpl; [reflexivity|].
  rewrite lookup_insert_ne, lookup_delete_ne by congruence. reflexivity.
Qed.

Lemma save_merged_other faults files path merged q :
  q ≠ path → q ≠ (path +:+ ".tmp")%string →
  (save_merged faults files path merged).1 !! q = files !! q.
Proof.
  intros Hp Ht. unfold save_merged.
  destruct (write_file (tmp_write faults) files (path +:+ ".tmp") merged) as [f1 r1] eqn:Hw.
  assert (f1 !! q = files !! q) as H1.
  { change f1 with (f1, r1).1. rewrite <- Hw. apply write_file_other, Ht. }
  simpl. destruct r1 as [[]|e]; simpl.
  - destruct (os_replace (replace_fails faults) f1 (path +:+ ".tmp") path) as [f2 r2] eqn:Hr.
    assert (f2 !! q = files !! q) as H2.
    { change f2 with (f2, r2).1. rewrite <- Hr, <- H1. apply os_replace_other; assumption. }
    simpl. destruct r2 as [[]|e]; simpl; [exact H2|].
    rewrite write_file_other by exact Hp. exact H2.
  - rewrite write_file_other by exact Hp. exact H1.
Qed.

(** X14.  A save touches the results file and its temporary companion
    and nothing else, whatever fails on the way. *)
Theorem save_touches_two_paths_only
    (faults : io_faults) (now : ustr) (files : gmap string file)
    (partial_authors : list author) (results_file_path q : string) :
  q ≠ results_file_path →
  q ≠ (results_file_path +:+ ".tmp")%string →
  (merge_and_save_results faults now files partial_authors results_file_path).1 !! q
    = files !! q.
Proof.
  intros Hp Ht. unfold merge_and_save_results.
  destruct (merge_results now _ partial_authors); [|reflexivity].
  apply save_merged_other; assumption.
Qed.

(** X15.  Nothing but the rename removes the temporary file.  After a
    save it is gone when the rename worked; it is left behind complete
    when only the rename failed, and cut short when the write to it
    broke off; when it could not be opened, whatever an earlier run
    left there is still there. *)
Theorem temporary_file_is_removed_only_by_the_rename
    (faults : io_faults) (now : ustr) (files : gmap string file)
    (partial_authors merged : list author) (results_file_path : string) :
  merge_results now (read_existing (read_fails faults) files results_file_path)
    partial_authors = Ok merged →
  (merge_and_save_results faults now files partial_authors results_file_path).1
    !! (results_file_path +:+ ".tmp")%string =
    match tmp_write faults with
    | NoFault => if replace_fails faults then Some (Dataset merged) else None
    | OpenFails => files !! (results_file_path +:+ ".tmp")%string
    | WriteFails => Some (Truncated merged)
    end.
Proof.
  intros Hm. unfold merge_and_save_results. rewrite Hm.
  pose proof (temp_path_differs results_file_path) as Htmp.
  unfold save_merged, os_replace.
  destruct faults as [rf [| |] rp dw]; simpl.
  - rewrite lookup_insert_eq. destruct rp; simpl.
    + rewrite write_file_other by exact Htmp. apply lookup_insert_eq.
    + rewrite lookup_insert_ne by congruence. apply lookup_delete_eq.
  - apply write_file_other, Htmp.
  - rewrite write_file_other by exact Htmp. apply lookup_insert_eq.
Qed.

(** X16.  A results file that cannot be read or parsed counts as an
    empty dataset: the save that follows writes the scraped records
    alone, and what the file held, a write cut short by an earlier
    failure for instance, is overwritten without notice. *)
Theorem unreadable_results_file_is_overwritten
    (faults : io_faults) (now : ustr) (files : gmap string file)
    (partial_authors merged : list author) (results_file_path : string) :
  read_fails faults = true ∨ (∀ d, files !! results_file_path ≠ Some (Dataset d)) →
  tmp_write faults = NoFault → replace_fails faults = false →
  merge_results now [] partial_authors = Ok merged →
  let r := merge_and_save_results faults now files partial_authors results_file_path in
  r.2 = Ok () ∧ r.1 !! results_file_path = Some (Dataset merged).
Proof.
  intros Hbad Htw Hrp Hm. simpl. unfold merge_and_save_results.
  assert (read_existing (read_fails faults) files results_file_path = []) as ->.
  { unfold read_existing. destruct Hbad as [-> | Hno].
    - destruct (files !! results_file_path) as [[]|]; reflexivity.
    - destruct (files !! results_file_path) as [[d| |]|] eqn:E; try reflexivity.
      destruct (Hno d eq_refl). }
  rewrite Hm. unfold save_merged, os_replace. rewrite Htw, Hrp. simpl.
  rewrite lookup_insert_eq. simpl. split; [reflexivity|apply lookup_insert_eq].
Qed.

End persistence_properties.

(** * Further properties of the CrawlController *)

Section crawl_properties.
Context `{Runtime}.
Variable env : environment.

(** One call of [crawl]: its result and what it does to the world. *)
Lemma crawl_once (scholarID : ustr) (skip_ids : list ustr) (w : world) :
  (crawl env scholarID skip_ids w).2 =
    match getAuthorData env (length (w_fetched w)) scholarID skip_ids with
    | Ok data => Ok (Some data)
    | Raise e =>
        if check_for_captcha (exn_msg e)
        then Raise (mkExn Exception (U "CAPTCHA_DETECTED: " ++ exn_msg e))
        else Ok None
    end
  ∧ w_fetched (crawl env scholarID skip_ids w).1 = w_fetched w ++ [scholarID]
  ∧ w_proxies (crawl env scholarID skip_ids w).1 = w_proxies w
  ∧ w_files (crawl env scholarID skip_ids w).1 = w_files w
  ∧ w_saves (crawl env scholarID skip_ids w).1 = w_saves w.
Proof.
  unfold crawl, MAX_RETRIES. simpl. rewrite Z.sub_diag. simpl.
  destruct (getAuthorData env (length (w_fetched w)) scholarID skip_ids) as [data|e]; simpl.
  - repeat split.
  - destruct (check_for_captcha (exn_msg e)); simpl; repeat split.
Qed.

(** X17.  With [MAX_RETRIES = 1] the retry machinery of [crawl] is
    inert: the collaborator is asked exactly once, no backoff sleep is
    taken and no proxy is rotated; and the time limit, which is checked
    before the first attempt only, does not strike, the clock of the
    model moving while fetching and sleeping only.  The fetched record
    is returned, a fetch error with a keyword becomes the distinguished
    exception, and any other fetch error becomes [None]. *)
Theorem crawl_makes_a_single_attempt (scholarID : ustr) (skip_ids : list ustr) (w : world) :
  let r := crawl env scholarID skip_ids w in
  r.2 = match getAuthorData env (length (w_fetched w)) scholarID skip_ids with
        | Ok data => Ok (Some data)
        | Raise e =>
            if check_for_captcha (exn_msg e)
            then Raise (mkExn Exception (U "CAPTCHA_DETECTED: " ++ exn_msg e))
            else Ok None
        end
  ∧ w_fetched r.1 = w_fetched w ++ [scholarID]
  ∧ w_clock r.1 = w_clock w + fetch_millis env (length (w_fetched w))
  ∧ w_proxies r.1 = w_proxies w
  ∧ w_files r.1 = w_files w
  ∧ w_saves r.1 = w_saves w.
Proof.
  unfold crawl, MAX_RETRIES. simpl. rewrite Z.sub_diag. simpl.
  destruct (getAuthorData env (length (w_fetched w)) scholarID skip_ids) as [data|e]; simpl.
  - repeat split.
  - destruct (check_for_captcha (exn_msg e)); simpl; repeat split.
Qed.

Lemma scrape_loop_unblocked results_path skip_ids scholarIds :
  ∀ authorsList w w' final,
    scrape_loop env results_path skip_ids scholarIds authorsList w = (w', final, Ok ()) →
    w_fetched w' = w_fetched w ++ scholarIds ∧
    w_files w' = w_files w ∧ w_saves w' = w_saves w ∧ w_proxies w' = w_proxies w ∧
    final = authorsList ++ collected env (length (w_fetched w)) skip_ids scholarIds.
Proof.
  induction scholarIds as [|scholarId ids IH]; intros authorsList w w' final Hloop;
    simpl in Hloop.
  - injection Hloop as <- <-. simpl. rewrite !app_nil_r. auto.
  - destruct (crawl_once scholarId skip_ids w) as (Hr & Hf & Hp & Hfiles & Hs).
    destruct (crawl env scholarId skip_ids w) as [w1 r] eqn:Hcrawl.
    cbn [fst snd] in *.
    assert (length (w_fetched w1) = S (length (w_fetched w))) as Hlen
      by (rewrite Hf, length_app; simpl; lia).
    cbn [collected].
    destruct (getAuthorData env (length (w_fetched w)) scholarId skip_ids) as [data|e].
    + subst r. apply IH in Hloop as (-> & -> & -> & -> & ->).
      rewrite Hlen, Hf, <- !app_assoc. auto.
    + destruct (check_for_captcha (exn_msg e)); subst r.
      * change (U "CAPTCHA_DETECTED: " ++ exn_msg e)
          with (U "CAPTCHA_DETECTED" ++ (U ": " ++ exn_msg e)) in Hloop.
        rewrite is_captcha_marker in Hloop. discriminate.
      * apply IH in Hloop as (-> & -> & -> & -> & ->).
        rewrite Hlen, Hf, <- !app_assoc. auto.
Qed.

(** X18.  A run that ends normally has asked for every identity
    exactly once, in the order given, has made no save and has left the
    results file as it was: partial results are written on a CAPTCHA
    abort only.  The statement is about the results file; the session
    cache under [.cache/], which the method reads before the loop
    (lines 232-383), is another file and no part of the model. *)
Theorem unblocked_run_requests_every_identity_once
    (results_path : string) (scholarIds skip_ids : list ustr)
    (w w' : world) (authorsList : list author) :
  start_scraping env results_path scholarIds skip_ids w = (w', authorsList, Ok ()) →
  w_fetched w' = w_fetched w ++ scholarIds ∧
  w_files w' !! results_path = w_files w !! results_path ∧
  w_saves w' = w_saves w.
Proof.
  unfold start_scraping. intros Hloop.
  apply scrape_loop_unblocked in Hloop as (Hf & Hfiles & Hs & _).
  rewrite Hfiles. auto.
Qed.

Lemma scrape_loop_runs results_path skip_ids scholarIds :
  (∀ n scholarId e,
     getAuthorData env n scholarId skip_ids = Raise e →
     check_for_captcha (exn_msg e) = false) →
  ∀ authorsList w, ∃ w' final,
    scrape_loop env results_path skip_ids scholarIds authorsList w = (w', final, Ok ()).
Proof.
  intros Hno. induction scholarIds as [|scholarId ids IH]; intros authorsList w; simpl.
  - eauto.
  - destruct (crawl_once scholarId skip_ids w) as (Hr & _).
    destruct (crawl env scholarId skip_ids w) as [w1 r]. cbn [fst snd] in *.
    destruct (getAuthorData env (length (w_fetched w)) scholarId skip_ids) as [data|e] eqn:Hg.
    + subst r. apply IH.
    + rewrite (Hno _ _ _ Hg) in Hr. subst r. apply IH.
Qed.

(** X19.  Fetch errors that are not classified as a block never stop a
    run: when no fetch error holds a keyword, [start_scraping] ends
    normally, and its list holds the records of the identities whose
    fetch returned, in order, the others being passed over. *)
Theorem unblocked_run_returns_the_fetched_records
    (results_path : string) (scholarIds skip_ids : list ustr) (w : world) :
  (∀ n scholarId e,
     getAuthorData env n scholarId skip_ids = Raise e →
     check_for_captcha (exn_msg e) = false) →
  ∃ w',
    start_scraping env results_path scholarIds skip_ids w =
      (w', collected env (length (w_fetched w)) skip_ids scholarIds, Ok ()).
Proof.
  intros Hno. unfold start_scraping.
  destruct (scrape_loop_runs results_path skip_ids scholarIds Hno [] w) as (w' & final & Hloop).
  exists w'. rewrite Hloop.
  apply scrape_loop_unblocked in Hloop as (_ & _ & _ & _ & ->). reflexivity.
Qed.

End crawl_properties.

(** * Properties of the runner ([scraper.py]) *)

(** X20.  The merge loop written out in [scraper.py] and the one in
    [merge_and_save_results] do the same to every scraped record that
    carries a [publications] list. *)
Theorem module_level_merge_agrees_with_helper
    (author_map : list (atom * author)) (scraped_author : author)
    (pubs : list publication) :
  a_pubs scraped_author = Some pubs →
  script_merge_author author_map scraped_author = merge_author author_map scraped_author.
Proof.
  intros Hp. unfold script_merge_author, merge_author.
  destruct (author_is_empty scraped_author); [reflexivity|].
  destruct (truthy (scholar_id scraped_author)); simpl; [|reflexivity].
  destruct (as_key (scholar_id scraped_author)) as [k|e]; simpl; [|reflexivity].
  destruct (od_get k author_map) as [old|].
  - unfold merge_publications, build_pub_map.
    destruct (foldM index_pub [] (publications old)) as [m0|e]; simpl; [|reflexivity].
    destruct (foldM merge_pub m0 (publications scraped_author)); reflexivity.
  - f_equal. f_equal. destruct scraped_author as [fields ps]. simpl in Hp. subst ps.
    reflexivity.
Qed.

(** X29.  Whatever [config.json] is, [load_config] defines the three
    settings the runner reads: a key that the file gives has the file's
    value, and each of the three that it does not give has its
    default. *)
Theorem load_config_always_defines_the_settings (file : config_file) (key : string) :
  key ∈ ["results_file"; "rescrape_threshold_days"; "scholar_ids"]%string →
  is_Some (load_config file !! key) ∧
  ∀ config, file = ConfigObject config →
    load_config file !! key =
      match config !! key with
      | Some v => Some v
      | None => default_config !! key
      end.
Proof.
  intros Hkey.
  assert (is_Some (default_config !! key)) as Hdef.
  { repeat (apply elem_of_cons in Hkey as [->|Hkey]; [eexists; reflexivity|]).
    apply elem_of_nil in Hkey. contradiction. }
  split.
  - destruct file as [| |config]; simpl; try exact Hdef.
    rewrite lookup_union. destruct Hdef as [v ->].
    destruct (config !! key); eexists; reflexivity.
  - intros config ->. simpl. rewrite lookup_union.
    destruct (config !! key), (default_config !! key); reflexivity.
Qed.

Section runner_properties.
Context `{Runtime}.

Lemma script_merge_author_keys author_map a author_map' :
  script_merge_author author_map a = Ok author_map' →
  (∀ k, k ∈ author_map'.*1 ↔
        k ∈ author_map.*1 ∨ (scholar_id a = VAtom k ∧ atom_truthy k = true)) ∧
  ∃ new, author_map'.*1 = author_map.*1 ++ new ∧
         ∀ k, k ∈ new → scholar_id a = VAtom k ∧ k ∉ author_map.*1.
Proof.
  assert (author_map' = author_map →
    (∀ k, scholar_id a = VAtom k → atom_truthy k = true → False) →
    (∀ k, k ∈ author_map'.*1 ↔
        k ∈ author_map.*1 ∨ (scholar_id a = VAtom k ∧ atom_truthy k = true)) ∧
    ∃ new, author_map'.*1 = author_map.*1 ++ new ∧
         ∀ k, k ∈ new → scholar_id a = VAtom k ∧ k ∉ author_map.*1) as Hsame.
  { intros -> Hno. split.
    - intros k. split; [auto|]. intros [?|[Hs Ht]]; [assumption|]. destruct (Hno k Hs Ht).
    - exists []. rewrite app_nil_r. split; [reflexivity|].
      intros k Hk. apply elem_of_nil in Hk. contradiction. }
  unfold script_merge_author. destruct (author_is_empty a) eqn:He.
  { intros [= <-]. apply Hsame; [reflexivity|]. intros k Hs Ht.
    assert (truthy (scholar_id a) = true) as Htr by (rewrite Hs; exact Ht).
    apply truthy_scholar_id_not_empty in Htr. congruence. }
  destruct (truthy (scholar_id a)) eqn:Ht; simpl.
  2:{ intros [= <-]. apply Hsame; [reflexivity|]. intros k Hs Hk.
      rewrite Hs in Ht. simpl in Ht. congruence. }
  destruct (scholar_id a) as [k0| |] eqn:Hs; simpl; try discriminate.
  simpl in Ht.
  assert (∀ v : author,
    (∀ k, k ∈ (od_set k0 v author_map).*1 ↔
        k ∈ author_map.*1 ∨ (VAtom k0 = VAtom k ∧ atom_truthy k = true)) ∧
    ∃ new, (od_set k0 v author_map).*1 = author_map.*1 ++ new ∧
         ∀ k, k ∈ new → VAtom k0 = VAtom k ∧ k ∉ author_map.*1) as Hset.
  { intros v. split.
    - intros k. rewrite od_set_keys_elem. split.
      + intros [->|?]; auto.
      + intros [?|[[= ->] _]]; auto.
    - destruct (od_set_keys_grow k0 v author_map) as (new & Hn & Hcase).
      exists new. split; [exact Hn|]. intros k Hk.
      destruct Hcase as [->|[-> Hnotin]].
      + apply elem_of_nil in Hk. contradiction.
      + apply list_elem_of_singleton in Hk as ->. auto. }
  destruct (od_get k0 author_map) as [old|].
  - intros Hm. apply bind_ok in Hm as (m0 & _ & Hm).
    apply bind_ok in Hm as (m1 & _ & [= <-]). apply Hset.
  - intros [= <-]. apply Hset.
Qed.

Lemma script_merge_author_indexed author_map scraped author_map' :
  indexed author_map → script_merge_author author_map scraped = Ok author_map' →
  indexed author_map'.
Proof.
  intros Hi. unfold script_merge_author.
  destruct (author_is_empty scraped); [intros [= <-]; exact Hi|].
  destruct (truthy (scholar_id scraped)) eqn:Ht; simpl; [|intros [= <-]; exact Hi].
  destruct (scholar_id scraped) as [k| |] eqn:Hs; simpl; try discriminate. simpl in Ht.
  destruct (od_get k author_map) as [old|].
  - intros Hm. apply bind_ok in Hm as (m0 & _ & Hm).
    apply bind_ok in Hm as (m1 & _ & [= <-]). apply indexed_set; auto.
  - intros [= <-]. apply indexed_set; auto.
Qed.

Lemma foldM_script_merge_author_indexed results : ∀ author_map author_map',
  indexed author_map → foldM script_merge_author author_map results = Ok author_map' →
  indexed author_map'.
Proof.
  induction results as [|a l IH]; intros am am' Hi Hf; simpl in Hf.
  - injection Hf as <-. exact Hi.
  - apply bind_ok in Hf as (am1 & H1 & Hf).
    eapply IH; [|exact Hf]. eapply script_merge_author_indexed; eauto.
Qed.

(** Once a record has been merged into a known author, the author's
    publications all carry an id. *)
Lemma merge_author_touch author_map A author_map' k old :
  merge_author author_map A = Ok author_map' →
  scholar_id A = VAtom k → atom_truthy k = true →
  od_get k author_map = Some old →
  ∃ a', od_get k author_map' = Some a' ∧
        Forall (λ p, has_id p = true) (publications a').
Proof.
  intros Hm Hs Ht Hg. rewrite (merge_author_known _ _ _ _ Hs Ht Hg) in Hm.
  apply bind_ok in Hm as (merged & Hmp & [= <-]).
  eexists. split; [apply od_get_set_eq|]. simpl.
  apply Forall_forall. intros p Hp. eapply merge_publications_has_id; eauto.
Qed.

Lemma foldM_merge_author_touched l : ∀ author_map author_map' k a0,
  foldM merge_author author_map l = Ok author_map' →
  atom_truthy k = true →
  od_get k author_map = Some a0 →
  Forall (λ p, has_id p = true) (publications a0) ∨ VAtom k ∈ scholar_id <$> l →
  ∃ a', od_get k author_map' = Some a' ∧
        Forall (λ p, has_id p = true) (publications a').
Proof.
  induction l as [|A l IH]; intros am am' k a0 Hf Ht Hg Hcase; simpl in Hf.
  - injection Hf as <-. destruct Hcase as [Hall|Hin]; [eauto|].
    rewrite fmap_nil in Hin. apply elem_of_nil in Hin. contradiction.
  - apply bind_ok in Hf as (am1 & H1 & Hf).
    destruct (decide (scholar_id A = VAtom k)) as [Hs|Hs].
    + destruct (merge_author_touch _ _ _ _ _ H1 Hs Ht Hg) as (a1 & Hg1 & Hall1).
      eapply IH; eauto.
    + rewrite <- (merge_author_get_other _ _ _ _ H1 Hs) in Hg.
      eapply IH; [exact Hf|exact Ht|exact Hg|].
      destruct Hcase as [Hall|Hin]; [auto|]. right.
      rewrite fmap_cons in Hin. apply elem_of_cons in Hin as [Heq|Hin]; [congruence|exact Hin].
Qed.

(** X21.  A run that is not stopped merges twice, and the second merge
    meets every recorded author as a known one: in the dataset it
    writes, the publications of every author that was on record all
    carry an [author_pub_id].  Recorded publications without one are
    dropped, those of the authors that were not scraped included. *)
Theorem normal_run_keeps_identified_publications_only
    (now : ustr) (existing_authors results final : list author) (a e : author) :
  run_merge now existing_authors results = Ok final →
  a ∈ final →
  e ∈ existing_authors → scholar_id e = scholar_id a →
  Forall (λ p, has_id p = true) (publications a).
Proof.
  intros Hrun Ha He Hsid. unfold run_merge in Hrun.
  apply bind_ok in Hrun as (merged1 & Hs & Hm).
  unfold script_merge in Hs. apply bind_ok in Hs as (am0 & H0 & Hs).
  apply bind_ok in Hs as (am1s & H1s & [= <-]).
  destruct (merge_results_passes _ _ _ _ Hm)
    as (am0' & am1 & r & H0' & H1 & Hd & -> & Hi0 & _ & Hi & _ & Hid).
  rewrite H0 in H0'. injection H0' as <-.
  assert (indexed am1s) as Hi1s
    by exact (foldM_script_merge_author_indexed _ _ _ Hi0 H1s).
  (* the author's key *)
  unfold od_values in Ha. apply list_elem_of_fmap in Ha as ([k a'] & -> & Ha). simpl in *.
  destruct (proj2 Hi k a' Ha) as [Hk Ht].
  (* the key is known to the recorded dataset and met by the second merge *)
  assert (k ∈ am0.*1) as Hk0.
  { destruct (foldM_keys _ _ index_author_keys _ _ H0) as [Hk0 _]. apply Hk0. right.
    split; [exact Ht|]. apply list_elem_of_fmap. exists e. split; [congruence|exact He]. }
  assert (VAtom k ∈ scholar_id <$> od_values am1s) as Hmet.
  { rewrite (indexed_scholar_ids _ Hi1s). apply list_elem_of_fmap. exists k.
    split; [reflexivity|].
    destruct (foldM_keys _ _ script_merge_author_keys _ _ H1s) as [Hk1 _]. apply Hk1. auto. }
  destruct (od_get k am0) as [a0|] eqn:Hg0; [|apply od_get_None in Hg0; contradiction].
  destruct (foldM_merge_author_touched _ _ _ _ _ H1 Ht Hg0 (or_intror Hmet))
    as (a1 & Hg1 & Hall1).
  (* stamping and the dedupe pass keep the ids *)
  assert (od_get k r.2 = Some a') as Hgr by (apply od_elem_of_get; [exact (proj1 Hi)|exact Ha]).
  assert (od_get k (prod_map id (stamp_author (now ++ U "Z")) <$> am1)
          = Some (stamp_author (now ++ U "Z") a1)) as Hgs.
  { clear -Hg1. induction am1 as [|[k1 b] l IH]; simpl in *; [discriminate|].
    destruct (decide (k = k1)); [congruence|auto]. }
  assert (∀ am seen rd b, dedupe_authors seen am = Ok rd → od_get k am = Some b →
            ∃ b', od_get k rd.2 = Some b' ∧ publications b' `sublist_of` publications b)
    as Hdedupe.
  { clear. induction am as [|[k1 b1] l IH]; intros seen rd b Hd Hg; simpl in *; [discriminate|].
    apply bind_ok in Hd as (rp & Hrp & Hd). apply bind_ok in Hd as (rr & Hrr & [= <-]).
    simpl. destruct (decide (k = k1)).
    - injection Hg as <-. eexists. split; [reflexivity|]. simpl.
      eapply dedupe_pubs_sublist, Hrp.
    - eapply IH; eauto. }
  destruct (Hdedupe _ _ _ _ Hd Hgs) as (b' & Hgb & Hsub).
  assert (b' = a') as -> by congruence.
  apply Forall_forall. intros p Hp.
  pose proof (elem_of_sublist _ _ _ Hp Hsub) as Hp'.
  assert (publications (stamp_author (now ++ U "Z") a1) =
          stamp (now ++ U "Z") <$> publications a1) as Heq.
  { unfold publications, stamp_author. simpl. destruct (a_pubs a1); reflexivity. }
  rewrite Heq in Hp'. apply list_elem_of_fmap in Hp' as (q & -> & Hq).
  unfold has_id. rewrite stamp_author_pub_id.
  rewrite Forall_forall in Hall1. apply (Hall1 q Hq).
Qed.

End runner_properties.

(** * Properties of the serialization helpers and the simplified records *)

(** Induction over Python values, with the elements of the containers. *)
Lemma pyobj_induction (P : pyobj → Prop) :
  P PNone → (∀ b, P (PBool b)) → (∀ z, P (PInt z)) → (∀ bits, P (PFloat bits)) →
  (∀ s, P (PStr s)) →
  (∀ l, Forall P l → P (PList l)) →
  (∀ l, Forall P l → P (PTuple l)) →
  (∀ d, Forall (λ kv, P kv.2) d → P (PDict d)) →
  (∀ dict, Forall (λ kv, P kv.2) dict → P (PObject dict)) →
  (∀ text, P (POther text)) →
  ∀ obj, P obj.
Proof.
  intros HNone HBool HInt HFloat HStr HList HTuple HDict HObject HOther.
  fix IH 1.
  intros [ |b|z|bits|s|l|l|d|dict|text];
    [exact HNone|apply HBool|apply HInt|apply HFloat|apply HStr| | | | |apply HOther].
  - apply HList. induction l as [|o l IHl]; constructor; [apply IH|exact IHl].
  - apply HTuple. induction l as [|o l IHl]; constructor; [apply IH|exact IHl].
  - apply HDict. induction d as [|[k o] d IHd]; constructor; [apply IH|exact IHd].
  - apply HObject. induction dict as [|[k o] d IHd]; constructor; [apply IH|exact IHd].
Qed.

Lemma make_serializable_native obj : json_native (_make_serializable obj) = true.
Proof.
  induction obj as [ | | | | |l IH|l IH|d IH|dict IH| ] using pyobj_induction;
    try reflexivity; simpl.
  - induction IH as [|o l Ho _ IHl]; simpl; [reflexivity|]. rewrite Ho. exact IHl.
  - induction IH as [|o l Ho _ IHl]; simpl; [reflexivity|]. rewrite Ho. exact IHl.
  - induction IH as [|[k o] l Ho _ IHl]; simpl in *; [reflexivity|]. rewrite Ho. exact IHl.
  - induction IH as [|[k o] l Ho _ IHl]; simpl in *; [reflexivity|]. rewrite Ho. exact IHl.
Qed.

Lemma make_serializable_fixed obj :
  json_native obj = true → _make_serializable obj = obj.
Proof.
  induction obj as [ | | | | |l IH|l IH|d IH|dict IH| ] using pyobj_induction;
    try reflexivity; simpl; try discriminate.
  - intros Hn. f_equal. induction IH as [|o l Ho _ IHl]; [reflexivity|].
    simpl in Hn. apply andb_true_iff in Hn as [Hn1 Hn2].
    rewrite fmap_cons, (Ho Hn1), (IHl Hn2). reflexivity.
  - intros Hn. f_equal. induction IH as [|[k o] l Ho _ IHl]; [reflexivity|].
    simpl in Hn, Ho. apply andb_true_iff in Hn as [Hn1 Hn2].
    rewrite fmap_cons, (IHl Hn2). simpl. rewrite (Ho Hn1). reflexivity.
Qed.

(** X22.  Whatever it is given, [_make_serializable] returns a value
    made of scalars, lists and dictionaries only, which [json.dump]
    writes without help; applying it a second time changes nothing. *)
Theorem make_serializable_yields_json_values (obj : pyobj) :
  json_native (_make_serializable obj) = true ∧
  _make_serializable (_make_serializable obj) = _make_serializable obj.
Proof.
  split; [apply make_serializable_native|].
  apply make_serializable_fixed, make_serializable_native.
Qed.

(** X23.  Data that is already made of scalars, lists and dictionaries,
    such as a record loaded from the results file, passes through
    [_make_serializable] unchanged. *)
Theorem make_serializable_leaves_json_values_alone (obj : pyobj) :
  json_native obj = true → _make_serializable obj = obj.
Proof. apply make_serializable_fixed. Qed.

(** A name that does not start with an underscore starts neither with
    two nor with the mangling prefix of a class. *)
Lemma prefix_underscore (rest name : string) :
  String.prefix "_" name = false → String.prefix (String "_" rest) name = false.
Proof.
  destruct name as [|c name]; [reflexivity|].
  change (String.prefix "_" (String c name))
    with (if Ascii.ascii_dec "_" c then String.prefix "" name else false).
  change (String.prefix (String "_" rest) (String c name))
    with (if Ascii.ascii_dec "_" c then String.prefix rest name else false).
  destruct (Ascii.ascii_dec "_" c); [|reflexivity].
  destruct name; discriminate.
Qed.

Lemma public_attributes_underscore class_name class_dir :
  "_class_attributes"%string ∉ getObjectPublicAttributes class_name class_dir.
Proof.
  unfold getObjectPublicAttributes. intros Hin.
  apply list_elem_of_fmap in Hin as ([name c] & Hn & Hin). simpl in Hn. subst name.
  apply list_elem_of_In, List.filter_In in Hin as [_ Hf]. simpl in Hf.
  rewrite !andb_true_iff in Hf. destruct Hf as [[[_ _] Hf] _]. discriminate.
Qed.

(** X24.  Of the four tests of [getObjectPublicAttributes] two decide:
    it returns the names that are not callable and do not start with an
    underscore.  No name it returns starts with an underscore, so
    [_class_attributes] is never among the attributes it lists. *)
Theorem public_attributes_never_start_with_underscore
    (class_name : string) (class_dir : list (string * bool)) :
  getObjectPublicAttributes class_name class_dir =
    (List.filter (λ entry, negb entry.2 && negb (String.prefix "_" entry.1)) class_dir).*1
  ∧ (∀ name, name ∈ getObjectPublicAttributes class_name class_dir →
       String.prefix "_" name = false)
  ∧ "_class_attributes"%string ∉ getObjectPublicAttributes class_name class_dir.
Proof.
  assert (getObjectPublicAttributes class_name class_dir =
    (List.filter (λ entry, negb entry.2 && negb (String.prefix "_" entry.1)) class_dir).*1)
    as Heq.
  { unfold getObjectPublicAttributes. f_equal. apply List.filter_ext. intros [name c].
    simpl. destruct (String.prefix "_" name) eqn:E.
    - rewrite !andb_false_r. reflexivity.
    - rewrite (prefix_underscore "_" name E).
      change ("_" ++ class_name ++ "__")%string with (String "_" (class_name ++ "__")).
      rewrite (prefix_underscore _ name E). simpl. rewrite !andb_true_r. reflexivity. }
  assert (∀ name, name ∈ getObjectPublicAttributes class_name class_dir →
            String.prefix "_" name = false) as Hpub.
  { intros name Hin. rewrite Heq in Hin.
    apply list_elem_of_fmap in Hin as ([name' c] & -> & Hin). simpl.
    apply list_elem_of_In, List.filter_In in Hin as [_ Hf]. simpl in Hf.
    apply andb_true_iff in Hf as [_ Hf]. apply negb_true_iff in Hf. exact Hf. }
  split; [exact Heq|]. split; [exact Hpub|].
  intros Hin. apply Hpub in Hin. discriminate.
Qed.

Section simplified_records.
Context `{Runtime}.

(** X25.  A publication whose record is fresh is not filled again.
    When the runner's skip list is handed to the scraper and a
    publication of the dataset was scraped at most [threshold_days]
    ago, [SimplifiedPublication] builds the record of the publication
    with that id without calling [scholarly.fill], however incomplete
    the publication is. *)
Theorem fresh_publication_is_not_filled_again
    (now threshold_days : Z) (existing_authors : list author) (skip_ids : list atom)
    (a : author) (pub : publication) (t : Z) (pid : atom)
    (fill : raw_publication → raw_publication) (publication : raw_publication) :
  build_skip_ids now threshold_days existing_authors = Ok (VAtom <$> skip_ids) →
  a ∈ existing_authors → pub ∈ publications a →
  author_pub_id pub = VAtom pid → atom_truthy pid = true →
  scraped_at pub t → now - t ≤ threshold_days * micros_per_day →
  get (rp_fields publication) "author_pub_id" = VAtom pid →
  SimplifiedPublication fill publication skip_ids =
    SimplifiedPublication (λ p, p) publication skip_ids.
Proof.
  intros Hskip Ha Hpub Hid Ht Hs Hle Hraw.
  assert (pid ∈ skip_ids) as Hin.
  { assert (VAtom pid ∈ VAtom <$> skip_ids) as Hv.
    { apply (build_skip_ids_elem _ _ _ _ _ Hskip). exists a, pub, t. auto 10. }
    apply list_elem_of_fmap in Hv as (pid' & [= <-] & Hv). exact Hv. }
  assert (should_fill publication skip_ids = false) as Hno.
  { unfold should_fill, is_skipped. rewrite Hraw. simpl. rewrite Ht.
    destruct skip_ids as [|s l]; [apply elem_of_nil in Hin; contradiction|].
    rewrite bool_decide_eq_true_2 by exact Hin. apply andb_false_r. }
  unfold SimplifiedPublication. rewrite Hno. reflexivity.
Qed.

Lemma copy_attributes_lookup (attributes : list string) (publication : raw_publication)
    (name : string) :
  copy_attributes attributes publication !! name =
    if bool_decide (name ∈ attributes) then
      match default ∅ (rp_bib publication) !! name with
      | Some a => Some (VAtom a)
      | None => rp_fields publication !! name
      end
    else None.
Proof.
  unfold copy_attributes. rewrite lookup_union, lookup_fmap, !map_lookup_filter.
  destruct (bool_decide_reflect (name ∈ attributes)) as [Hin|Hout].
  - destruct (default ∅ (rp_bib publication) !! name) as [a|]; simpl.
    + rewrite option_guard_True by exact Hin. simpl.
      destruct (rp_fields publication !! name); simpl;
        [destruct (guard _)|]; reflexivity.
    + destruct (rp_fields publication !! name); simpl; [|reflexivity].
      rewrite option_guard_True by exact Hin. reflexivity.
  - destruct (default ∅ (rp_bib publication) !! name) as [a|]; simpl;
      rewrite ?option_guard_False by exact Hout; simpl;
      (destruct (rp_fields publication !! name); simpl;
       rewrite ?option_guard_False by exact Hout; reflexivity).
Qed.

(** X26.  A [SimplifiedPublication] holds declared class attributes
    only, and for each of them the value of [bib] wins: the attribute
    has the value found under that key in [bib] when [bib] has the key,
    a [None] included, and the top-level value otherwise. *)
Theorem simplified_publication_prefers_bib
    (fill : raw_publication → raw_publication) (publication : raw_publication)
    (skip_ids : list atom) (o : simplified) (name : string) :
  SimplifiedPublication fill publication skip_ids = Built o →
  let filled :=
    if should_fill publication skip_ids then fill publication else publication in
  copied o !! name =
    if bool_decide (name ∈ publication_attributes) then
      match default ∅ (rp_bib filled) !! name with
      | Some a => Some (VAtom a)
      | None => rp_fields filled !! name
      end
    else None.
Proof.
  unfold SimplifiedPublication.
  destruct (rp_fields publication !! "container_type") as [ct|]; [|discriminate].
  destruct (decide (ct = str "Publication")); [|discriminate].
  intros [= <-]. simpl. apply copy_attributes_lookup.
Qed.

(** X27.  The two ways in which a record reaches the results file
    differ.  [JSONEncoder.default], used for the output of a finished
    run, emits the copied attributes and leaves [_class_attributes]
    out; [_make_serializable], used by [merge_and_save_results] for a
    partial save, takes the whole [__dict__], so that every record of a
    partial save carries a [_class_attributes] list. *)
Theorem partial_save_keeps_class_attributes
    (fill : raw_publication → raw_publication) (publication : raw_publication)
    (skip_ids : list atom) (o : simplified) :
  SimplifiedPublication fill publication skip_ids = Built o →
  JSONEncoder_default o = copied o ∧
  JSONEncoder_default o !! "_class_attributes" = None ∧
  ∃ d, _make_serializable (instance o) = PDict d ∧
       (AStr (U "_class_attributes"), PList (PStr ∘ U <$> publication_attributes)) ∈ d.
Proof.
  unfold SimplifiedPublication.
  destruct (rp_fields publication !! "container_type") as [ct|]; [|discriminate].
  destruct (decide (ct = str "Publication")); [|discriminate].
  intros [= <-].
  set (filled := if should_fill publication skip_ids then fill publication else publication).
  assert ("_class_attributes"%string ∉ publication_attributes) as Hout
    by apply public_attributes_underscore.
  assert (JSONEncoder_default
            (mkSimplified publication_attributes
               (copy_attributes publication_attributes filled)) =
          copy_attributes publication_attributes filled) as Henc.
  { unfold JSONEncoder_default, object_dict. cbn [class_attributes copied].
    apply map_eq. intros name. apply option_eq. intros v.
    rewrite map_lookup_filter_Some. cbn [fst].
    assert (copy_attributes publication_attributes filled !! name = Some v →
            name ∈ publication_attributes) as Hattr.
    { rewrite copy_attributes_lookup.
      destruct (bool_decide_reflect (name ∈ publication_attributes)); [auto|discriminate]. }
    split.
    - intros [Hl Hin]. rewrite lookup_insert_ne in Hl by congruence. exact Hl.
    - intros Hl. pose proof (Hattr Hl) as Hin. split; [|exact Hin].
      rewrite lookup_insert_ne by congruence. exact Hl. }
  split; [exact Henc|]. split.
  - rewrite Henc, copy_attributes_lookup, bool_decide_eq_false_2 by exact Hout. reflexivity.
  - eexists. split; [reflexivity|].
    apply list_elem_of_fmap.
    exists (U "_class_attributes",
            value_to_pyobj (VList (AStr ∘ U <$> publication_attributes))).
    split.
    + reflexivity.
    + unfold instance, dict_to_pyobj. apply list_elem_of_fmap.
      exists ("_class_attributes"%string, VList (AStr ∘ U <$> publication_attributes)).
      split; [reflexivity|]. apply elem_of_map_to_list. apply lookup_insert_eq.
Qed.

End simplified_records.

(** * The two merges of a run *)

Section two_merges.
Context `{Runtime}.

Lemma keyed_entries pubs : Forall identified pubs → keyed (entries pubs).
Proof.
  intros Hid k p Hin. apply elem_of_entries in Hin as [-> Hin].
  rewrite Forall_forall in Hid. apply identified_pid, Hid, Hin.
Qed.

Lemma keyed_pid (pub_map : list (atom * publication)) :
  keyed pub_map → pid <$> pub_map.*2 = pub_map.*1.
Proof.
  intros Hk. induction pub_map as [|[k p] l IH]; [reflexivity|].
  rewrite !fmap_cons. simpl. f_equal.
  - unfold pid. destruct (Hk k p (list_elem_of_here _ _)) as [-> _]. reflexivity.
  - apply IH. intros k' p' Hin. apply Hk. right. exact Hin.
Qed.

Lemma keyed_entries_values (pub_map : list (atom * publication)) :
  keyed pub_map → entries pub_map.*2 = pub_map.
Proof.
  intros Hk. induction pub_map as [|[k p] l IH]; [reflexivity|].
  unfold entries in *. rewrite !fmap_cons. simpl. f_equal.
  - unfold pid. destruct (Hk k p (list_elem_of_here _ _)) as [-> _]. reflexivity.
  - apply IH. intros k' p' Hin. apply Hk. right. exact Hin.
Qed.

Lemma union_absorbs (x y s : publication) : x ∪ y = x → y ∪ s = y → x ∪ s = x.
Proof.
  intros Hxy Hys. rewrite <- Hxy at 1. rewrite <- (assoc_L (∪)), Hys. exact Hxy.
Qed.

(** A list of publications with ids of their own supersedes its own index. *)
Lemma supersedes_refl pubs : distinctly_identified pubs → supersedes (entries pubs) pubs.
Proof.
  intros Hd. split; [exact Hd|]. split.
  - exists []. rewrite app_nil_r, entries_keys. reflexivity.
  - intros k s x Hg Hx Hk. apply od_get_elem_of, elem_of_entries in Hg as [-> Hs].
    rewrite (distinctly_identified_inj pubs x s Hd Hx Hs Hk). apply (idemp_L (∪)).
Qed.

(** What [merge_pub] keeps true of a [pub_map] that started as [base]. *)
Lemma merge_pub_supersedes base pub_map q pub_map' :
  keyed pub_map → NoDup pub_map.*1 →
  (∃ new, pub_map.*1 = base.*1 ++ new) →
  (∀ k s x, od_get k base = Some s → od_get k pub_map = Some x → x ∪ s = x) →
  merge_pub pub_map q = Ok pub_map' →
  (∃ new, pub_map'.*1 = base.*1 ++ new) ∧
  (∀ k s x, od_get k base = Some s → od_get k pub_map' = Some x → x ∪ s = x).
Proof.
  intros Hkeyed Hnd [new Hnew] Habs Hm. unfold merge_pub in Hm.
  destruct (truthy (author_pub_id q)); simpl in Hm; [|injection Hm as <-; eauto].
  apply bind_ok in Hm as (kq & _ & Hm).
  assert (∃ v, pub_map' = od_set kq v pub_map ∧
               ∀ e, od_get kq pub_map = Some e → v = q ∪ e) as (v & -> & Hv).
  { destruct (od_get kq pub_map) as [e|]; injection Hm as <-; eexists; split; eauto.
    - intros e' [= <-]. reflexivity.
    - discriminate. }
  split.
  - destruct (od_set_keys_grow kq v pub_map) as (new' & -> & _).
    exists (new ++ new'). rewrite Hnew, app_assoc. reflexivity.
  - intros k s x Hs Hx. rewrite od_get_set in Hx. destruct (decide (kq = k)) as [->|Hne].
    + injection Hx as <-.
      destruct (od_get k pub_map) as [e|] eqn:He.
      * rewrite (Hv e eq_refl), <- (assoc_L (∪)), (Habs k s e Hs He). reflexivity.
      * apply od_get_None in He. exfalso. apply He. unfold od_keys. rewrite Hnew.
        apply elem_of_app. left. apply od_get_elem_of in Hs.
        apply list_elem_of_fmap. exists (k, s). auto.
    + eauto.
Qed.

Lemma foldM_merge_pub_supersedes base new : ∀ pub_map pub_map',
  keyed pub_map → NoDup pub_map.*1 →
  (∃ new, pub_map.*1 = base.*1 ++ new) →
  (∀ k s x, od_get k base = Some s → od_get k pub_map = Some x → x ∪ s = x) →
  foldM merge_pub pub_map new = Ok pub_map' →
  keyed pub_map' ∧ NoDup pub_map'.*1 ∧
  (∃ new, pub_map'.*1 = base.*1 ++ new) ∧
  (∀ k s x, od_get k base = Some s → od_get k pub_map' = Some x → x ∪ s = x).
Proof.
  induction new as [|q new IH]; intros m m' Hk Hnd Hnew Habs Hf; simpl in Hf.
  - injection Hf as <-. auto.
  - apply bind_ok in Hf as (m1 & H1 & Hf).
    destruct (merge_pub_supersedes _ _ _ _ Hk Hnd Hnew Habs H1) as [Hnew1 Habs1].
    eapply IH; [| | | |exact Hf]; eauto using merge_pub_keyed, merge_pub_NoDup.
Qed.

(** Merging anything into a list yields a list that supersedes it. *)
Lemma merge_publications_supersedes cur new merged :
  distinctly_identified cur →
  merge_publications cur new = Ok merged →
  supersedes (entries cur) merged.
Proof.
  intros Hd Hm. unfold merge_publications in Hm.
  rewrite (build_pub_map_entries _ Hd) in Hm. simpl in Hm.
  apply bind_ok in Hm as (m1 & H1 & [= <-]).
  assert (keyed (entries cur)) as Hk by (apply keyed_entries, Hd).
  assert (NoDup (entries cur).*1) as Hnd by (rewrite entries_keys; apply Hd).
  destruct (foldM_merge_pub_supersedes (entries cur) new _ m1 Hk Hnd)
    as (Hk1 & Hnd1 & Hnew1 & Habs1); auto.
  { exists []. rewrite app_nil_r. reflexivity. }
  { intros k s x Hs Hx. assert (x = s) as -> by congruence. apply (idemp_L (∪)). }
  unfold od_values. split; [apply keyed_distinctly_identified; assumption|]. split.
  - rewrite (keyed_pid _ Hk1). exact Hnew1.
  - intros k s x Hs Hx Hpid. apply (Habs1 k s x Hs).
    apply list_elem_of_fmap in Hx as ([k' x'] & -> & Hx). simpl in Hpid.
    assert (k' = k) as ->.
    { destruct (Hk1 k' x' Hx) as [Hid _]. unfold pid in Hpid. rewrite Hid in Hpid.
      exact Hpid. }
    apply od_elem_of_get; assumption.
Qed.

Lemma supersedes_trans base cur merged :
  supersedes base cur → supersedes (entries cur) merged → supersedes base merged.
Proof.
  intros (Hdc & [new1 Hn1] & Habs1) (Hdm & [new2 Hn2] & Habs2).
  split; [exact Hdm|]. split.
  - exists (new1 ++ new2). rewrite Hn2, entries_keys, Hn1, app_assoc. reflexivity.
  - intros k s x Hs Hx Hpid.
    assert (k ∈ pid <$> cur) as Hk.
    { rewrite Hn1. apply elem_of_app. left. apply od_get_elem_of in Hs.
      apply list_elem_of_fmap. exists (k, s). auto. }
    apply list_elem_of_fmap in Hk as (y & Hky & Hy).
    assert (od_get k (entries cur) = Some y) as Hgy.
    { apply od_elem_of_get; [unfold od_keys; rewrite entries_keys; apply Hdc|].
      apply elem_of_entries. auto. }
    apply (union_absorbs x y s); [exact (Habs2 k y x Hgy Hx Hpid)|].
    apply (Habs1 k s y Hs Hy). congruence.
Qed.

Lemma Forall2_same_keys {A B K} (f : A → K) (g : B → K) (R : A → B → Prop) :
  ∀ (l1 : list A) (l2 : list B),
    f <$> l1 = g <$> l2 →
    (∀ x y, x ∈ l1 → y ∈ l2 → f x = g y → R x y) →
    Forall2 R l1 l2.
Proof.
  induction l1 as [|x l1 IH]; intros [|y l2] Hk HR; try discriminate; constructor.
  - injection Hk as Hxy _. apply HR; [left|left|exact Hxy].
  - injection Hk as _ Hk. apply IH; [exact Hk|].
    intros x' y' Hx Hy. apply HR; right; assumption.
Qed.

Lemma filter_all {A} (P : A → Prop) `{∀ x, Decision (P x)} (l : list A) :
  Forall P l → filter P l = l.
Proof.
  induction 1 as [|x l Hx _ IH]; [reflexivity|].
  rewrite filter_cons_True by exact Hx. f_equal. exact IH.
Qed.

(** Re-sightings that hold every field of the entries they meet take
    their places. *)
Lemma foldM_merge_pub_replace : ∀ (cur : list publication) (base : list (atom * publication)),
  Forall2 (λ x e, identified x ∧ pid x = e.1 ∧ x ∪ e.2 = x) cur base →
  ∀ done rest,
    NoDup ((pid <$> done) ++ base.*1) →
    foldM merge_pub (entries done ++ base) (cur ++ rest) =
      foldM merge_pub (entries (done ++ cur) ) rest.
Proof.
  induction 1 as [|x [k s] cur base (Hid & Hk & Habs) _ IH]; intros done rest Hnd.
  - rewrite !app_nil_r. reflexivity.
  - simpl in Hk, Habs. destruct (identified_pid x Hid) as [Hx Ht]. rewrite Hk in Hx, Ht.
    assert (k ∉ (entries done).*1) as Hnotin.
    { rewrite entries_keys. apply NoDup_app in Hnd as (_ & Hd & _).
      intros Hin. apply (Hd k Hin). left. }
    change ((x :: cur) ++ rest) with (x :: (cur ++ rest)).
    change (foldM merge_pub (entries done ++ (k, s) :: base) (x :: (cur ++ rest)))
      with (merge_pub (entries done ++ (k, s) :: base) x ≫=
              λ m, foldM merge_pub m (cur ++ rest)).
    rewrite (merge_pub_atom _ x k Hx), Ht, (od_get_middle k s _ _ Hnotin),
      (od_set_middle k _ s _ _ Hnotin), Habs.
    change (Ok (entries done ++ (k, x) :: base) ≫= λ m, foldM merge_pub m (cur ++ rest))
      with (foldM merge_pub (entries done ++ (k, x) :: base) (cur ++ rest)).
    replace (entries done ++ (k, x) :: base) with (entries (done ++ [x]) ++ base).
    + rewrite IH.
      * rewrite <- app_assoc. reflexivity.
      * rewrite fmap_app, <- app_assoc. simpl. rewrite Hk.
        rewrite fmap_cons in Hnd. exact Hnd.
    + rewrite entries_app, <- app_assoc. simpl. rewrite Hk. reflexivity.
Qed.

(** Merging a list that supersedes [base] into [base] yields the index
    of the list. *)
Lemma foldM_merge_pub_superseding base cur :
  NoDup base.*1 → supersedes base cur →
  foldM merge_pub base cur = Ok (entries cur).
Proof.
  intros Hnd (Hd & [new Hnew] & Habs).
  apply fmap_app_inv in Hnew as (c1 & c2 & Hc1 & -> & ->).
  assert (Forall2 (λ x e, identified x ∧ pid x = e.1 ∧ x ∪ e.2 = x) c1 base) as H2.
  { apply (Forall2_same_keys pid fst); [congruence|].
    intros x [k s] Hx He Hk. simpl in *. destruct Hd as [Hid _].
    rewrite Forall_forall in Hid. split; [apply Hid, elem_of_app; auto|].
    split; [exact Hk|]. apply (Habs k s x); [|apply elem_of_app; auto|exact Hk].
    apply od_elem_of_get; assumption. }
  pose proof (foldM_merge_pub_replace c1 base H2 [] c2) as Hr. simpl in Hr.
  rewrite Hr by exact Hnd. clear Hr.
  destruct Hd as [Hid Hndc]. rewrite fmap_app in Hndc.
  apply Forall_app in Hid as [Hid1 Hid2].
  apply NoDup_app in Hndc as (Hn1 & Hdis & Hn2).
  assert (∀ q, q ∈ c2 → pid q ∉ pid <$> c1) as Hfresh.
  { intros q Hq Hin. apply (Hdis (pid q) Hin). apply list_elem_of_fmap. eauto. }
  assert (∀ s q, s ∈ c1 → q ∈ c2 → pid q = pid s → q ∪ s = s) as Hvac.
  { intros s q Hs Hq Heq. exfalso. apply (Hfresh q Hq). rewrite Heq.
    apply list_elem_of_fmap. eauto. }
  pose proof (foldM_merge_pub_resighting c1 c2 (conj Hid1 Hn1) Hvac [] Hid2) as Hr.
  simpl in Hr. rewrite app_nil_r in Hr. rewrite entries_app, Hr.
  - rewrite filter_all; [reflexivity|]. apply Forall_forall. exact Hfresh.
  - exact Hn2.
  - intros p Hp. apply elem_of_nil in Hp. contradiction.
Qed.

Lemma merge_publications_superseding old cur :
  distinctly_identified old → supersedes (entries old) cur →
  merge_publications old cur = Ok cur.
Proof.
  intros Hd Hs. unfold merge_publications.
  rewrite (build_pub_map_entries _ Hd). simpl.
  rewrite (foldM_merge_pub_superseding _ _) ; [| rewrite entries_keys; apply Hd | exact Hs].
  simpl. unfold od_values. rewrite entries_values. reflexivity.
Qed.

Lemma set_publications_same a :
  is_Some (a_pubs a) → set_publications a (publications a) = a.
Proof.
  destruct a as [fields [pubs|]]; intros [? Hp]; [reflexivity|discriminate].
Qed.

(** ** Authors *)

Lemma supersedes_authors_refl base :
  indexed base →
  (∀ k a, (k, a) ∈ base → has_identified_publications a) →
  supersedes_authors base base.
Proof.
  intros Hi Hall. split; [exact Hi|]. split; [exists []; rewrite app_nil_r; reflexivity|].
  split.
  - intros k a Hg. apply od_get_elem_of, Hall in Hg as (pubs & -> & _). eauto.
  - intros k a0 a Hg0 Hg. assert (a = a0) as -> by congruence.
    apply od_get_elem_of, Hall in Hg as (pubs & Hp & Hd).
    unfold publications. rewrite Hp. simpl. apply supersedes_refl, Hd.
Qed.

Lemma merge_author_supersedes base author_map scraped author_map' :
  supersedes_authors base author_map →
  is_Some (a_pubs scraped) →
  merge_author author_map scraped = Ok author_map' →
  supersedes_authors base author_map'.
Proof.
  intros (Hi & [new Hnew] & Hsome & Hsup) Hp Hm.
  pose proof (merge_author_indexed _ _ _ Hi Hm) as Hi'.
  unfold merge_author in Hm.
  destruct (author_is_empty scraped); [injection Hm as <-;
     exact (conj Hi (conj (ex_intro _ new Hnew) (conj Hsome Hsup)))|].
  destruct (truthy (scholar_id scraped)) eqn:Ht; simpl in Hm;
    [|injection Hm as <-;
     exact (conj Hi (conj (ex_intro _ new Hnew) (conj Hsome Hsup)))].
  destruct (scholar_id scraped) as [k| |] eqn:Hs; simpl in Hm; try discriminate.
  destruct (od_get k author_map) as [old|] eqn:Hg.
  - apply bind_ok in Hm as (merged & Hmp & [= <-]).
    split; [exact Hi'|]. split; [|split].
    + exists new. rewrite <- Hnew. exact (od_set_present _ _ _ _ Hg).
    + intros k' a. rewrite od_get_set. destruct (decide (k = k')) as [->|_]; [|apply Hsome].
      intros [= <-]. simpl. eauto.
    + intros k' a0 a Hg0. rewrite od_get_set. destruct (decide (k = k')) as [->|_]; [|eauto].
      intros [= <-]. change (publications (set_publications scraped merged)) with merged.
      pose proof (Hsup k' a0 old Hg0 Hg) as Hold.
      apply (supersedes_trans _ _ _ Hold).
      apply (merge_publications_supersedes _ (publications scraped)); [apply Hold|exact Hmp].
  - injection Hm as <-. split; [exact Hi'|]. split; [|split].
    + exists (new ++ [k]). rewrite (od_set_absent _ _ _ Hg), fmap_app, Hnew, app_assoc.
      reflexivity.
    + intros k' a. rewrite od_get_set. destruct (decide (k = k')) as [->|_]; [|apply Hsome].
      intros [= <-]. simpl. eauto.
    + intros k' a0 a Hg0. rewrite od_get_set. destruct (decide (k = k')) as [->|_]; [|eauto].
      exfalso. apply od_get_None in Hg. apply Hg. unfold od_keys. rewrite Hnew.
      apply elem_of_app. left. apply od_get_elem_of in Hg0.
      apply list_elem_of_fmap. exists (k', a0). auto.
Qed.

Lemma foldM_merge_author_supersedes base results : ∀ author_map author_map',
  Forall (λ r, is_Some (a_pubs r)) results →
  supersedes_authors base author_map →
  foldM merge_author author_map results = Ok author_map' →
  supersedes_authors base author_map'.
Proof.
  induction results as [|r results IH]; intros m m' Hall Hs Hf; simpl in Hf.
  - injection Hf as <-. exact Hs.
  - apply Forall_cons in Hall as [Hr Hall]. apply bind_ok in Hf as (m1 & H1 & Hf).
    eauto using merge_author_supersedes.
Qed.

(** Records that supersede the entries they meet take their places. *)
Lemma foldM_merge_author_replace :
  ∀ (cur base : list (atom * author)),
  Forall2 (λ e e0, e.1 = e0.1 ∧ scholar_id e.2 = VAtom e.1 ∧ atom_truthy e.1 = true ∧
                   is_Some (a_pubs e.2) ∧ distinctly_identified (publications e0.2) ∧
                   supersedes (entries (publications e0.2)) (publications e.2)) cur base →
  ∀ done rest,
    NoDup (done.*1 ++ base.*1) →
    foldM merge_author (done ++ base) (od_values cur ++ rest) =
      foldM merge_author (done ++ cur) rest.
Proof.
  induction 1 as [|[k a] [k0 a0] cur base (Hk & Hs & Ht & Hp & Hd & Hsup) _ IH];
    intros done rest Hnd.
  - reflexivity.
  - simpl in *. subst k0.
    assert (k ∉ done.*1) as Hnotin.
    { apply NoDup_app in Hnd as (_ & Hdis & _). intros Hin. apply (Hdis k Hin). left. }
    change (od_values ((k, a) :: cur) ++ rest) with (a :: (od_values cur ++ rest)).
    change (foldM merge_author (done ++ (k, a0) :: base) (a :: (od_values cur ++ rest)))
      with (merge_author (done ++ (k, a0) :: base) a ≫=
              λ m, foldM merge_author m (od_values cur ++ rest)).
    rewrite (merge_author_known _ a k a0 Hs Ht (od_get_middle k a0 _ _ Hnotin)),
      (merge_publications_superseding _ _ Hd Hsup).
    simpl. rewrite (od_set_middle k _ a0 _ _ Hnotin), (set_publications_same a Hp).
    replace (done ++ (k, a) :: base) with ((done ++ [(k, a)]) ++ base)
      by (rewrite <- app_assoc; reflexivity).
    rewrite IH.
    + rewrite <- app_assoc. reflexivity.
    + rewrite fmap_app, <- app_assoc. exact Hnd.
Qed.

(** Records under new identities are appended as they are. *)
Lemma foldM_merge_author_append (new : list (atom * author)) : ∀ done,
  indexed (done ++ new) →
  (∀ k a, (k, a) ∈ new → is_Some (a_pubs a)) →
  foldM merge_author done (od_values new) = Ok (done ++ new).
Proof.
  induction new as [|[k a] new IH]; intros done Hi Hp.
  - rewrite app_nil_r. reflexivity.
  - destruct Hi as [Hnd Hall].
    destruct (Hall k a) as [Hs Ht]; [apply elem_of_app; right; left|].
    change (od_values ((k, a) :: new)) with (a :: od_values new).
    change (foldM merge_author done (a :: od_values new))
      with (merge_author done a ≫= λ m, foldM merge_author m (od_values new)).
    assert (od_get k done = None) as Hg.
    { apply od_get_None. unfold od_keys. rewrite fmap_app in Hnd.
      apply NoDup_app in Hnd as (_ & Hdis & _). intros Hin. apply (Hdis k Hin). left. }
    rewrite (merge_author_new _ a k Hs Ht Hg), (od_set_absent _ _ _ Hg),
      (set_publications_same a (Hp k a (list_elem_of_here _ _))).
    simpl. rewrite IH.
    + rewrite <- app_assoc. reflexivity.
    + rewrite <- app_assoc. split; assumption.
    + intros k' a' Hin. apply (Hp k' a'). right. exact Hin.
Qed.

(** Merging the values of a map that supersedes [base] into [base]
    yields that map. *)
Lemma foldM_merge_author_superseding base cur :
  indexed base →
  (∀ k a, (k, a) ∈ base → has_identified_publications a) →
  supersedes_authors base cur →
  foldM merge_author base (od_values cur) = Ok cur.
Proof.
  intros Hib Hall (Hi & [new Hnew] & Hsome & Hsup).
  apply fmap_app_inv in Hnew as (c1 & c2 & Hc1 & -> & ->).
  unfold od_values. rewrite fmap_app.
  destruct Hi as [Hnd Hkeys].
  assert (∀ k a, (k, a) ∈ c1 ++ c2 → od_get k (c1 ++ c2) = Some a) as Hget.
  { intros k a Hin. apply od_elem_of_get; assumption. }
  pose proof (foldM_merge_author_replace c1 base) as Hr.
  unfold od_values in Hr. rewrite (λ H2, Hr H2 [] (c2.*2)).
  - apply (foldM_merge_author_append c2 c1); [split; assumption|].
    intros k a Hin. apply (Hsome k), Hget, elem_of_app. auto.
  - clear Hr. apply (Forall2_same_keys fst fst); [congruence|].
    intros [k a] [k0 a0] He He0 Hk. simpl in *. subst k0.
    assert ((k, a) ∈ c1 ++ c2) as Hin by (apply elem_of_app; auto).
    destruct (Hkeys k a Hin) as [Hs Ht].
    assert (od_get k base = Some a0) as Hg0
      by (apply od_elem_of_get; [apply Hib|exact He0]).
    destruct (Hall k a0 He0) as (pubs & Hp0 & Hd0).
    split; [reflexivity|]. split; [exact Hs|]. split; [exact Ht|].
    split; [apply (Hsome k), Hget, Hin|].
    split; [unfold publications; rewrite Hp0; exact Hd0|].
    apply (Hsup k a0 a Hg0 (Hget k a Hin)).
  - apply Hib.
Qed.

Lemma foldM_index_author_from existing : ∀ author_map author_map',
  foldM index_author author_map existing = Ok author_map' →
  ∀ k a, (k, a) ∈ author_map' → (k, a) ∈ author_map ∨ a ∈ existing.
Proof.
  induction existing as [|r existing IH]; intros m m' Hf k a Hin; simpl in Hf.
  - injection Hf as <-. auto.
  - apply bind_ok in Hf as (m1 & H1 & Hf).
    destruct (IH _ _ Hf k a Hin) as [Hin1|?]; [|right; right; assumption].
    unfold index_author in H1. destruct (truthy (scholar_id r)); simpl in H1.
    + apply bind_ok in H1 as (k1 & _ & [= <-]).
      apply elem_of_od_set in Hin1 as [[-> ->]|?]; [right; left|auto].
    + injection H1 as <-. auto.
Qed.

Lemma foldM_script_merge_author results : ∀ author_map,
  Forall (λ r, is_Some (a_pubs r)) results →
  foldM script_merge_author author_map results = foldM merge_author author_map results.
Proof.
  induction results as [|r results IH]; intros m Hall; [reflexivity|].
  apply Forall_cons in Hall as [[pubs Hp] Hall]. simpl.
  assert (script_merge_author m r = merge_author m r) as ->.
  { unfold script_merge_author, merge_author.
    destruct (author_is_empty r); [reflexivity|].
    destruct (truthy (scholar_id r)); simpl; [|reflexivity].
    destruct (as_key (scholar_id r)) as [k|e]; simpl; [|reflexivity].
    destruct (od_get k m) as [old|].
    - unfold merge_publications, build_pub_map.
      destruct (foldM index_pub [] (publications old)) as [m0|e]; simpl; [|reflexivity].
      destruct (foldM merge_pub m0 (publications r)); reflexivity.
    - rewrite (set_publications_same r); [reflexivity|eauto]. }
  destruct (merge_author m r) as [m1|e]; simpl; [apply IH, Hall|reflexivity].
Qed.

(** X30.  When every recorded author has a publication list in which
    each publication has an id of its own, and every scraped record has
    a [publications] list, the module-level merge changes nothing: the
    run writes what [merge_and_save_results] would have written from the
    scraped records themselves, and fails where it would have failed. *)
Theorem module_level_merge_is_redundant
    (now : ustr) (existing_authors results : list author) :
  Forall has_identified_publications existing_authors →
  Forall (λ r, is_Some (a_pubs r)) results →
  run_merge now existing_authors results = merge_results now existing_authors results.
Proof.
  intros Hex Hres. unfold run_merge, script_merge.
  destruct (foldM index_author [] existing_authors) as [author_map|e] eqn:Hix;
    [|unfold merge_results; rewrite Hix; reflexivity].
  simpl. rewrite (foldM_script_merge_author results author_map Hres).
  unfold merge_results at 2. rewrite Hix. simpl.
  destruct (foldM merge_author author_map results) as [merged|e] eqn:Hm; [|reflexivity].
  simpl. unfold merge_results. rewrite Hix. simpl.
  pose proof (foldM_index_author_indexed _ _ _ indexed_nil Hix) as Hi.
  assert (∀ k a, (k, a) ∈ author_map → has_identified_publications a) as Hall.
  { intros k a Hin. destruct (foldM_index_author_from _ _ _ Hix k a Hin) as [Hn|Ha].
    - apply elem_of_nil in Hn. contradiction.
    - rewrite Forall_forall in Hex. apply Hex, Ha. }
  rewrite (foldM_merge_author_superseding author_map merged Hi Hall); [reflexivity|].
  apply (foldM_merge_author_supersedes author_map results author_map merged Hres);
    [apply supersedes_authors_refl; assumption|exact Hm].
Qed.

End two_merges.

(** * The further properties on sample data *)

Section more_instances.
Local Existing Instance ascii_runtime.

Lemma ex_saved_is_written : merge_results ex_now ex_recorded ex_scraped = Ok ex_saved.
Proof. vm_compute. reflexivity. Qed.

Lemma merged_authors_have_distinct_scholar_ids_witness :
  Forall identified_author ex_saved ∧ NoDup (scholar_id <$> ex_saved).
Proof.
  apply (merged_authors_have_distinct_scholar_ids ex_now ex_recorded ex_scraped ex_saved).
  vm_compute. reflexivity.
Defined.

Lemma merged_publications_are_stamped_witness :
  ∃ pubs, a_pubs ex_saved_2 = Some pubs ∧ Forall stamped pubs.
Proof.
  apply (merged_publications_are_stamped ex_now ex_recorded ex_scraped ex_saved ex_saved_2).
  - vm_compute. reflexivity.
  - apply list_elem_of_further, list_elem_of_here.
Defined.

Lemma publications_of_two_authors_never_share_a_key_witness :
  ∃ key_p key_q,
    dedupe_key (dict_of [("author_pub_id", str "p1"); ("title", str "T");
                         ("pages", str "1-9"); ex_stamp]) = Ok key_p ∧
    dedupe_key (dict_of [("author_pub_id", str "x1"); ("title", str "Deep Learning!");
                         ex_stamp]) = Ok key_q ∧
    key_p ≠ key_q.
Proof.
  apply (publications_of_two_authors_never_share_a_key ex_now ex_recorded ex_scraped
           ex_saved [] [] [] ex_saved_1 ex_saved_2).
  - vm_compute. reflexivity.
  - reflexivity.
  - apply list_elem_of_here.
  - apply list_elem_of_here.
Defined.

Lemma merge_keeps_every_identified_author_witness :
  VAtom (ex_key "A2") ∈ scholar_id <$> ex_saved ↔
  VAtom (ex_key "A2") ∈ scholar_id <$> (ex_recorded ++ ex_scraped).
Proof.
  apply (merge_keeps_every_identified_author ex_now ex_recorded ex_scraped ex_saved
           (ex_key "A2")).
  - vm_compute. reflexivity.
  - reflexivity.
Defined.

Lemma merge_keeps_recorded_authors_in_place_witness :
  ∃ new,
    scholar_id <$> ex_saved = (scholar_id <$> ex_recorded) ++ new ∧
    ∀ sid, sid ∈ new → sid ∈ scholar_id <$> ex_scraped ∧
                       sid ∉ scholar_id <$> ex_recorded.
Proof.
  apply (merge_keeps_recorded_authors_in_place ex_now ex_recorded ex_scraped ex_saved).
  - repeat constructor. exists (ex_key "A1"). split; reflexivity.
  - apply NoDup_singleton.
  - vm_compute. reflexivity.
Defined.

Lemma scraped_author_fields_replace_recorded_witness :
  ∃ a, a ∈ [ex_saved_1] ∧ a_fields a = a_fields (ex_author "A1" [ex_sparse]) ∧
       ∀ b, b ∈ [ex_saved_1] → scholar_id b = VAtom (ex_key "A1") → b = a.
Proof.
  apply (scraped_author_fields_replace_recorded ex_now [ex_with_homepage] [] []
           [ex_saved_1] (ex_author "A1" [ex_sparse]) (ex_key "A1")).
  - reflexivity.
  - reflexivity.
  - intros B HB. apply elem_of_nil in HB. destruct HB.
  - vm_compute. reflexivity.
Defined.

Lemma ex_recorded_well_formed : Forall well_formed_author ex_recorded.
Proof.
  constructor; [|constructor]. split.
  - exists (ex_key "A1"). reflexivity.
  - constructor; [|constructor]. split; [|split].
    + exists (AStr (U "p1")). reflexivity.
    + right. exists (U "T"). reflexivity.
    + left. reflexivity.
Qed.

Lemma merge_never_raises_on_well_formed_records_witness :
  ∃ merged, merge_results ex_now ex_recorded ex_recorded = Ok merged.
Proof.
  apply (merge_never_raises_on_well_formed_records ex_now ex_recorded ex_recorded).
  - exact ex_recorded_well_formed.
  - exact ex_recorded_well_formed.
Defined.

Lemma written_dataset_is_a_fixed_point_witness :
  merge_results ex_later ex_saved [] = Ok ex_saved.
Proof.
  apply (written_dataset_is_a_fixed_point ex_now ex_later ex_recorded ex_scraped ex_saved).
  vm_compute. reflexivity.
Defined.

Lemma normalize_is_idempotent_on_ascii_witness :
  ∃ normalized,
    _normalize_title_for_dedupe (str "Deep Learning!") = Ok normalized ∧
    _normalize_title_for_dedupe (VAtom (AStr normalized)) = Ok normalized.
Proof. apply (normalize_is_idempotent_on_ascii (U "Deep Learning!")). reflexivity. Defined.

Lemma normalize_ignores_case_on_ascii_witness :
  _normalize_title_for_dedupe (VAtom (AStr (upper (U "Deep Learning!")))) =
    _normalize_title_for_dedupe (str "Deep Learning!") ∧
  _normalize_title_for_dedupe (VAtom (AStr (lower (U "Deep Learning!")))) =
    _normalize_title_for_dedupe (str "Deep Learning!").
Proof. apply (normalize_ignores_case_on_ascii (U "Deep Learning!")). reflexivity. Defined.

Lemma title_without_word_characters_counts_as_missing_witness :
  _normalize_title_for_dedupe (str "?! - ...") = Ok [] ∧
  dedupe_key ex_punctuation =
    Ok (U "__id__:" ++ (if has_id ex_punctuation
                        then py_str (author_pub_id ex_punctuation) else [])).
Proof.
  apply (title_without_word_characters_counts_as_missing ex_punctuation (U "?! - ..."));
    reflexivity.
Defined.

Lemma selected_author_stays_selected_witness :
  check_author_needs_scraping ex_eight_days_later (ex_author "A1" [ex_ten_days_old]) 5
    = Ok (scholar_id (ex_author "A1" [ex_ten_days_old])).
Proof.
  apply (selected_author_stays_selected ex_now_micros ex_eight_days_later
           (ex_author "A1" [ex_ten_days_old]) 7 5).
  - vm_compute. discriminate.
  - lia.
  - vm_compute. discriminate.
  - reflexivity.
  - vm_compute. reflexivity.
Defined.

Lemma freshly_stamped_author_is_selected_after_threshold_witness :
  check_author_needs_scraping ex_eight_days_later
    (stamp_author (ex_now ++ U "Z") (ex_author "A1" [ex_prior])) 7 =
    Ok (if ex_eight_days_later - ex_now_micros >? 7 * micros_per_day
        then scholar_id (ex_author "A1" [ex_prior]) else VAtom ANone).
Proof.
  apply (freshly_stamped_author_is_selected_after_threshold ex_now ex_now_micros
           ex_eight_days_later 7 (ex_author "A1" [ex_prior])).
  - apply (bool_decide_unpack (90%N ∉ ex_now)). vm_compute. exact I.
  - vm_compute. reflexivity.
  - reflexivity.
  - vm_compute. discriminate.
  - discriminate.
  - repeat constructor.
Defined.

Lemma skip_ids_are_the_fresh_identified_publications_witness :
  str "p1" ∈ [str "p1"] ↔
  ∃ a pub t,
    a ∈ [ex_author "A1" [ex_ten_days_old]] ∧ pub ∈ publications a ∧
    author_pub_id pub = str "p1" ∧ truthy (str "p1") = true ∧
    scraped_at pub t ∧ ex_now_micros - t ≤ 14 * micros_per_day.
Proof.
  apply (skip_ids_are_the_fresh_identified_publications ex_now_micros 14
           [ex_author "A1" [ex_ten_days_old]] [str "p1"] (str "p1")).
  vm_compute. reflexivity.
Defined.

Lemma save_touches_two_paths_only_witness :
  (merge_and_save_results ex_bad_disk ex_now
     {["notes.txt" := Corrupt]} ex_scraped "results.json").1 !! "notes.txt"
  = ({["notes.txt" := Corrupt]} : gmap string file) !! "notes.txt".
Proof.
  apply (save_touches_two_paths_only ex_bad_disk ex_now {["notes.txt" := Corrupt]}
           ex_scraped "results.json" "notes.txt"); discriminate.
Defined.

Lemma temporary_file_is_removed_only_by_the_rename_witness :
  (merge_and_save_results (mkFaults false NoFault true NoFault) ex_now
     {["results.json" := Dataset ex_recorded]} ex_scraped "results.json").1
    !! "results.json.tmp" = Some (Dataset ex_saved).
Proof.
  apply (temporary_file_is_removed_only_by_the_rename
           (mkFaults false NoFault true NoFault) ex_now
           {["results.json" := Dataset ex_recorded]} ex_scraped ex_saved "results.json").
  vm_compute. reflexivity.
Defined.

Lemma unreadable_results_file_is_overwritten_witness :
  let r := merge_and_save_results no_faults ex_now
             {["results.json" := Truncated ex_saved]}
             [ex_author "A2" [ex_deep_1]] "results.json" in
  r.2 = Ok () ∧ r.1 !! "results.json" = Some (Dataset [ex_saved_2]).
Proof.
  apply (unreadable_results_file_is_overwritten no_faults ex_now
           {["results.json" := Truncated ex_saved]}
           [ex_author "A2" [ex_deep_1]] [ex_saved_2] "results.json").
  - right. intros d. vm_compute. discriminate.
  - reflexivity.
  - reflexivity.
  - vm_compute. reflexivity.
Defined.

Lemma unblocked_run_requests_every_identity_once_witness :
  w_fetched ex_prefix_run.1.1 = w_fetched ex_world ++ [U "a1"; U "a2"] ∧
  w_files ex_prefix_run.1.1 !! "results.json" = w_files ex_world !! "results.json" ∧
  w_saves ex_prefix_run.1.1 = w_saves ex_world.
Proof.
  apply (unblocked_run_requests_every_identity_once ex_env "results.json"
           [U "a1"; U "a2"] [] ex_world ex_prefix_run.1.1 ex_prefix_run.1.2).
  vm_compute. reflexivity.
Defined.

Lemma unblocked_run_returns_the_fetched_records_witness :
  ∃ w',
    start_scraping ex_typed_env "results.json" ex_ids [] ex_world =
      (w', collected ex_typed_env (length (w_fetched ex_world)) [] ex_ids, Ok ()).
Proof.
  apply (unblocked_run_returns_the_fetched_records ex_typed_env "results.json" ex_ids []
           ex_world).
  intros n scholarId e. unfold ex_typed_env. cbn [getAuthorData].
  destruct (decide (scholarId = U "a3")); [|discriminate].
  intros [= <-]. vm_compute. reflexivity.
Defined.

Lemma module_level_merge_agrees_with_helper_witness :
  script_merge_author [(ex_key "A1", ex_author "A1" [ex_prior])] (ex_author "A1" [ex_sparse])
  = merge_author [(ex_key "A1", ex_author "A1" [ex_prior])] (ex_author "A1" [ex_sparse]).
Proof.
  apply (module_level_merge_agrees_with_helper
           [(ex_key "A1", ex_author "A1" [ex_prior])] (ex_author "A1" [ex_sparse])
           [ex_sparse]).
  reflexivity.
Defined.

Lemma normal_run_keeps_identified_publications_only_witness :
  Forall (λ p, has_id p = true) (publications ex_saved_1).
Proof.
  apply (normal_run_keeps_identified_publications_only ex_now ex_recorded_with_draft
           [ex_author "A2" [ex_deep_1]] ex_run_saved ex_saved_1
           (ex_author "A1" [ex_prior; ex_draft])).
  - vm_compute. reflexivity.
  - apply list_elem_of_here.
  - apply list_elem_of_here.
  - reflexivity.
Defined.

Lemma make_serializable_leaves_json_values_alone_witness :
  _make_serializable ex_json = ex_json.
Proof. apply (make_serializable_leaves_json_values_alone ex_json). reflexivity. Defined.

Lemma fresh_publication_is_not_filled_again_witness :
  SimplifiedPublication ex_fill ex_raw [AStr (U "p1")] =
    SimplifiedPublication (λ p, p) ex_raw [AStr (U "p1")].
Proof.
  apply (fresh_publication_is_not_filled_again ex_now_micros 14
           [ex_author "A1" [ex_ten_days_old]] [AStr (U "p1")]
           (ex_author "A1" [ex_ten_days_old]) ex_ten_days_old
           (ex_now_micros - 10 * micros_per_day) (AStr (U "p1")) ex_fill ex_raw).
  - vm_compute. reflexivity.
  - apply list_elem_of_here.
  - apply list_elem_of_here.
  - reflexivity.
  - reflexivity.
  - exists (U "2024-01-01T00:00:00Z"). split; [reflexivity|].
    split; [discriminate|]. vm_compute. reflexivity.
  - vm_compute. discriminate.
  - reflexivity.
Defined.

Lemma simplified_publication_prefers_bib_witness :
  let filled :=
    if should_fill ex_raw [AStr (U "p1")] then ex_fill ex_raw else ex_raw in
  copied ex_simplified !! "title" =
    if bool_decide ("title"%string ∈ publication_attributes) then
      match default ∅ (rp_bib filled) !! "title" with
      | Some a => Some (VAtom a)
      | None => rp_fields filled !! "title"
      end
    else None.
Proof.
  apply (simplified_publication_prefers_bib ex_fill ex_raw [AStr (U "p1")] ex_simplified
           "title").
  vm_compute. reflexivity.
Defined.

Lemma partial_save_keeps_class_attributes_witness :
  JSONEncoder_default ex_simplified = copied ex_simplified ∧
  JSONEncoder_default ex_simplified !! "_class_attributes" = None ∧
  ∃ d, _make_serializable (instance ex_simplified) = PDict d ∧
       (AStr (U "_class_attributes"), PList (PStr ∘ U <$> publication_attributes)) ∈ d.
Proof.
  apply (partial_save_keeps_class_attributes ex_fill ex_raw [AStr (U "p1")] ex_simplified).
  vm_compute. reflexivity.
Defined.

Lemma load_config_always_defines_the_settings_witness :
  is_Some (load_config (ConfigObject {["scholar_ids" := VList [AStr (U "A1")]]})
             !! "results_file") ∧
  ∀ config,
    ConfigObject {["scholar_ids" := VList [AStr (U "A1")]]} = ConfigObject config →
    load_config (ConfigObject {["scholar_ids" := VList [AStr (U "A1")]]}) !! "results_file" =
      match config !! "results_file" with
      | Some v => Some v
      | None => default_config !! "results_file"
      end.
Proof.
  apply (load_config_always_defines_the_settings
           (ConfigObject {["scholar_ids" := VList [AStr (U "A1")]]}) "results_file").
  apply list_elem_of_here.
Defined.

Lemma module_level_merge_is_redundant_witness :
  run_merge ex_now ex_recorded ex_scraped = merge_results ex_now ex_recorded ex_scraped.
Proof.
  apply (module_level_merge_is_redundant ex_now ex_recorded ex_scraped).
  - apply Forall_cons. split; [|apply Forall_nil_2].
    exists [ex_prior]. split; [reflexivity|]. split.
    + apply Forall_cons. split; [|apply Forall_nil_2].
      exists (AStr (U "p1")). split; reflexivity.
    + apply NoDup_singleton.
  - apply Forall_cons. split; [eexists; reflexivity|].
    apply Forall_cons. split; [eexists; reflexivity|apply Forall_nil_2].
Defined.

Lemma dedupe_keeps_first_seen_witness :
  keys_of [ex_deep_1; ex_deep_2] [U "deep learning"; U "deep learning"] ∧
  dedupe_pubs ∅ [ex_deep_1; ex_deep_2] =
    Ok (list_to_set [U "deep learning"; U "deep learning"] ∪ ∅,
        (first_seen ∅ (zip [U "deep learning"; U "deep learning"]
                         [ex_deep_1; ex_deep_2])).*2).
Proof.
  assert (keys_of [ex_deep_1; ex_deep_2] [U "deep learning"; U "deep learning"]) as Hk.
  { repeat constructor; vm_compute; reflexivity. }
  split; [exact Hk|].
  exact (proj1 (dedupe_keeps_first_seen ∅ [ex_deep_1; ex_deep_2]
                  [U "deep learning"; U "deep learning"] Hk)).
Defined.

(** C4 as stated fails: titles that differ by punctuation only need not
    collapse.  The hyphen of "E-mail" becomes a space, which makes two
    words of it; "Email" is one word.  The keys differ and both
    publications survive. *)
Lemma punctuation_inside_a_word_splits_it :
  normalize (U "E-mail filtering") = U "e mail filtering" ∧
  normalize (U "Email filtering") = U "email filtering" ∧
  dedupe_pubs ∅ [ex_email_1; ex_email_2] =
    Ok ({[U "e mail filtering"; U "email filtering"]}, [ex_email_1; ex_email_2]).
Proof. repeat split; vm_compute; reflexivity. Qed.

(** The accent of C4, under a runtime whose tables know it: "Café
    society" and "cafe  society?" have one key, and the second
    publication is dropped. *)
Lemma accented_title_collapses :
  normalize (H := acute_runtime) ex_cafe_title = U "cafe society" ∧
  normalize (H := acute_runtime) (U "cafe  society?") = U "cafe society" ∧
  dedupe_pubs (H := acute_runtime) ∅ [ex_cafe_1; ex_cafe_2] =
    Ok ({[U "cafe society"]}, [ex_cafe_1]).
Proof. repeat split; vm_compute; reflexivity. Qed.

End more_instances.
